(** * create-student-groups: the grouping core of [app.js]

    A shallow embedding of the functions [mulberry32], [shuffleInPlace],
    [parseCSV], [groupStudents], [reshuffleRespectingLocksToGroupSize],
    [lockedStayInPlace] and of the guard of [applyNewGroupSize], followed by
    the properties of the specification that concern them.

    Conventions of the embedding.
    - A JS array is a [list], in index order; [push] appends at the end and
      [pop] removes the last element.
    - A JS string is a [string]; its code units are the characters of the
      [string] (code units below 256), compared by their code.
    - The group size is a JS number holding an integer: a [Z].  Lengths and
      indices are [nat].
    - [throw new Error(msg)] is the result [Throw msg]. *)

From Stdlib Require Import String Ascii ZArith Bool Arith Lia Permutation List.
Import ListNotations.
Open Scope string_scope.
Open Scope list_scope.

(** ** Results of a call *)

Inductive result (A : Type) : Type :=
| Ok (a : A)
| Throw (msg : string).
Arguments Ok {A} a.
Arguments Throw {A} msg.

(** ** Data model *)

(** [{ name, program }], a row of the CSV. *)
Record student : Type := mkStudent { name : string; program : string }.

(** [{ name, program, locked }], a student placed in a group. *)
Record member : Type := mkMember { who : student; locked : bool }.

(** [{ index, students, missingPrograms }]; [None] is [null]. *)
Record group : Type := mkGroup {
  index : nat;
  students : list member;
  missingPrograms : option (list string)
}.

(** The object returned by [groupStudents]. *)
Record partition : Type := mkPartition {
  groupSize : Z;
  numGroups : nat;
  programs : list string;
  groups : list group
}.

(** ** Arrays *)

(** [arr.pop()]: the last element and the array without it. *)
Fixpoint pop {A : Type} (l : list A) : option (A * list A) :=
  match l with
  | [] => None
  | x :: r =>
      match pop r with
      | None => Some (x, [])
      | Some (y, r') => Some (y, x :: r')
      end
  end.

(** [arr[i] = x] for an index inside the array. *)
Fixpoint set_nth {A : Type} (i : nat) (x : A) (l : list A) : list A :=
  match l, i with
  | [], _ => []
  | _ :: r, O => x :: r
  | y :: r, S i' => y :: set_nth i' x r
  end.

(** [[arr[i], arr[j]] = [arr[j], arr[i]]]; both indices are inside the array
    wherever the program swaps. *)
Definition swap {A : Type} (arr : list A) (i j : nat) : list A :=
  match nth_error arr i, nth_error arr j with
  | Some x, Some y => set_nth j x (set_nth i y arr)
  | _, _ => arr
  end.

(** [f(x, i)] over an array, as [Array.prototype.map] passes the index. *)
Fixpoint mapi_from {A B : Type} (f : nat -> A -> B) (i : nat) (l : list A) : list B :=
  match l with
  | [] => []
  | x :: r => f i x :: mapi_from f (S i) r
  end.
Definition mapi {A B : Type} (f : nat -> A -> B) (l : list A) : list B :=
  mapi_from f 0 l.

(** ** The random source *)

Definition two32 : Z := 4294967296%Z.

(** One call of the closure returned by [mulberry32]: from the state [a] (kept
    as its unsigned 32-bit pattern) to the numerator of the returned float over
    2^32 and the next state.  [| 0], [Math.imul] and [^] all work on the 32-bit
    pattern, so every intermediate value is reduced modulo 2^32. *)
Definition mulberry32_step (a : Z) : Z * Z :=
  let a1 := ((a mod two32 + 1831565813) mod two32)%Z in
  let t1 := ((Z.lxor a1 (Z.shiftr a1 15) * Z.lor 1 a1) mod two32)%Z in
  let m := ((Z.lxor t1 (Z.shiftr t1 7) * Z.lor 61 t1) mod two32)%Z in
  let t2 := Z.lxor ((t1 + m) mod two32)%Z t1 in
  (Z.lxor t2 (Z.shiftr t2 14), a1).

(** The value of the variable [rng]: the closure [mulberry32(seed)] with its
    captured state, or [undefined], in which case [Math.random] is called.
    [Math.random] is an oracle: [oracle k n] stands for
    [Math.floor(Math.random() * n)] at the [k]-th call, an index below [n]. *)
Inductive rng : Type :=
| Seeded (a : Z)
| MathRandom (oracle : nat -> nat -> nat) (calls : nat).

(** [Math.floor((rng ? rng() : Math.random()) * n)].  With a seed the float is
    [u / 2^32] for a 32-bit [u], and [u * n] is exact in a double for every
    array shorter than 2^21 elements, so the floor is the integer quotient. *)
Definition draw (r : rng) (n : nat) : nat * rng :=
  match r with
  | Seeded a =>
      let (u, a') := mulberry32_step a in
      (Z.to_nat (u * Z.of_nat n / two32)%Z, Seeded a')
  | MathRandom oracle k => (oracle k n mod n, MathRandom oracle (S k))
  end.

(** [mulberry32(a)]: the closure, its captured variable holding the seed. *)
Definition mulberry32 (a : Z) : rng := Seeded a.

(** [(typeof seed === 'number') ? mulberry32(seed) : undefined]; [world] is
    what [Math.random] will answer. *)
Definition make_rng (world : nat -> nat -> nat) (seed : option Z) : rng :=
  match seed with
  | Some s => mulberry32 s
  | None => MathRandom world 0
  end.

(** The loop of [shuffleInPlace], entered with [i] the current index. *)
Fixpoint shuffle_from {A : Type} (i : nat) (arr : list A) (r : rng) : list A * rng :=
  match i with
  | O => (arr, r)
  | S i' =>
      let (j, r') := draw r (i + 1) in
      shuffle_from i' (swap arr i j) r'
  end.

Definition shuffleInPlace {A : Type} (arr : list A) (r : rng) : list A * rng :=
  shuffle_from (length arr - 1) arr r.

(** ** [groupStudents] *)

(** [programMap]: a [Map] from program to the array of its students, in
    insertion order of the keys. *)
Definition pmap : Type := list (string * list student).

(** [programMap.get(p)]; it is only called on keys of the map. *)
Fixpoint pm_get (p : string) (m : pmap) : list student :=
  match m with
  | [] => []
  | (k, v) :: r => if String.eqb k p then v else pm_get p r
  end.

(** The array stored under [p] replaced by [b] (the effect of mutating the
    array object that [programMap.get(p)] returned). *)
Fixpoint pm_set (p : string) (b : list student) (m : pmap) : pmap :=
  match m with
  | [] => []
  | (k, v) :: r => if String.eqb k p then (k, b) :: r else (k, v) :: pm_set p b r
  end.

(** [if (!programMap.has(p)) programMap.set(p, []); programMap.get(p).push(s)]. *)
Fixpoint pm_push (p : string) (s : student) (m : pmap) : pmap :=
  match m with
  | [] => [(p, [s])]
  | (k, v) :: r => if String.eqb k p then (k, v ++ [s]) :: r else (k, v) :: pm_push p s r
  end.

Definition build_programMap (studs : list student) : pmap :=
  fold_left (fun m s => pm_push (program s) s m) studs [].

(** [Array.prototype.sort()] on strings: ascending by code units. *)
Fixpoint insert_string (x : string) (l : list string) : list string :=
  match l with
  | [] => [x]
  | y :: r => if String.leb x y then x :: l else y :: insert_string x r
  end.
Definition sort_strings (l : list string) : list string :=
  fold_right insert_string [] l.

(** [for (const p of programs) shuffleInPlace(programMap.get(p), rng)]. *)
Fixpoint shuffle_buckets (ps : list string) (m : pmap) (r : rng) : pmap * rng :=
  match ps with
  | [] => (m, r)
  | p :: ps' =>
      let (b, r') := shuffleInPlace (pm_get p m) r in
      shuffle_buckets ps' (pm_set p b m) r'
  end.

(** [Math.ceil(total / groupSize)] for a positive [groupSize]. *)
Definition ceil_div (total : nat) (gs : Z) : nat :=
  Z.to_nat ((Z.of_nat total + gs - 1) / gs).

(** [{ ...s, locked: false }]. *)
Definition place (s : student) : member := {| who := s; locked := false |}.

(** [gr.length < groupSize]. *)
Definition has_room (gs : Z) (gr : list member) : bool :=
  (Z.of_nat (length gr) <? gs)%Z.

(** [groups.every(gr => gr.length >= groupSize)]. *)
Definition all_full (gs : Z) (grs : list (list member)) : bool :=
  forallb (fun gr => negb (has_room gs gr)) grs.

(** [groups[g].push(x)]. *)
Fixpoint push_at (g : nat) (x : member) (grs : list (list member)) : list (list member) :=
  match grs, g with
  | [], _ => []
  | gr :: r, O => (gr ++ [x]) :: r
  | gr :: r, S g' => gr :: push_at g' x r
  end.

(** The inner loop over [g = 0 .. numGroups - 1] for one program with enough
    students; [groups] has exactly [numGroups] elements, visited in order. *)
Fixpoint one_per_group (gs : Z) (grs : list (list member)) (bucket : list student)
  : list (list member) * list student :=
  match grs with
  | [] => ([], bucket)
  | gr :: rest =>
      match (if has_room gs gr then pop bucket else None) with
      | Some (s, bucket') =>
          let (rest', b) := one_per_group gs rest bucket' in
          ((gr ++ [place s]) :: rest', b)
      | None =>
          let (rest', b) := one_per_group gs rest bucket in
          (gr :: rest', b)
      end
  end.

(** [for (const p of programsWithEnough) { ... }]. *)
Fixpoint assign_enough (gs : Z) (ps : list string) (grs : list (list member)) (m : pmap)
  : list (list member) * pmap :=
  match ps with
  | [] => (grs, m)
  | p :: ps' =>
      let (grs', b) := one_per_group gs grs (pm_get p m) in
      assign_enough gs ps' grs' (pm_set p b m)
  end.

(** The [while (bucket.length > 0)] loop for one program with a shortage,
    entered with the index [g]; [None] when [fuel] iterations do not end it. *)
Fixpoint spread (fuel : nat) (gs : Z) (n : nat) (grs : list (list member))
  (bucket : list student) (g : nat) : option (list (list member) * list student) :=
  match bucket with
  | [] => Some (grs, bucket)
  | _ :: _ =>
      match fuel with
      | O => None
      | S fuel' =>
          let '(grs', bucket') :=
            match (if has_room gs (nth g grs []) then pop bucket else None) with
            | Some (s, b) => (push_at g (place s) grs, b)
            | None => (grs, bucket)
            end in
          if all_full gs grs' then Some (grs', bucket')
          else spread fuel' gs n grs' bucket' ((g + 1) mod n)
      end
  end.

(** Iterations granted to [spread]: enough for every run (lemma
    [spread_returns]). *)
Definition spread_fuel (n : nat) (bucket : list student) : nat :=
  S (length bucket * n + n).

(** [for (const p of programsWithShortage) { ... }]. *)
Fixpoint assign_shortage (gs : Z) (n : nat) (ps : list string) (grs : list (list member))
  (m : pmap) : option (list (list member) * pmap) :=
  match ps with
  | [] => Some (grs, m)
  | p :: ps' =>
      let bucket := pm_get p m in
      match spread (spread_fuel n bucket) gs n grs bucket 0 with
      | None => None
      | Some (grs', b) => assign_shortage gs n ps' grs' (pm_set p b m)
      end
  end.

(** [groups.sort((a, b) => a.length - b.length)]: a stable sort, ascending by
    length. *)
Fixpoint insert_by_length (x : list member) (l : list (list member)) : list (list member) :=
  match l with
  | [] => [x]
  | y :: r => if (length x <=? length y)%nat then x :: l else y :: insert_by_length x r
  end.
Definition sort_by_length (l : list (list member)) : list (list member) :=
  fold_right insert_by_length [] l.

(** [for (const g of groups) if (g.length < groupSize) { g.push(x); break; }]. *)
Fixpoint push_first (gs : Z) (x : member) (grs : list (list member)) : list (list member) :=
  match grs with
  | [] => []
  | gr :: r => if has_room gs gr then (gr ++ [x]) :: r else gr :: push_first gs x r
  end.

(** [for (const s of rest) { ... }]. *)
Fixpoint distribute_rest (gs : Z) (grs : list (list member)) (rest : list student)
  : list (list member) :=
  match rest with
  | [] => grs
  | s :: rest' =>
      let grs' := push_first gs (place s) (sort_by_length grs) in
      if all_full gs grs' then grs' else distribute_rest gs grs' rest'
  end.

(** [students.some(s => s.program === p)], the test [presentPrograms.has(p)]. *)
Definition has_program (studs : list member) (p : string) : bool :=
  existsb (fun s => String.eqb (program (who s)) p) studs.

(** The callback computing [missingPrograms] for the group at position [i]. *)
Definition with_warnings (progs : list string) (i : nat) (studs : list member) : group :=
  let missing := filter (fun p => negb (has_program studs p)) progs in
  {| index := i + 1;
     students := studs;
     missingPrograms := match missing with [] => None | _ :: _ => Some missing end |}.

(** [rest.push(...programMap.get(p))] for every program. *)
Definition remaining (ps : list string) (m : pmap) : list student :=
  flat_map (fun p => pm_get p m) ps.

(** [world] is the behaviour of [Math.random], consulted only without a seed.
    The answer is [None] only if the iterations granted to a [while] loop run
    out, which no input achieves (lemma [groupStudents_run]). *)
Definition groupStudents (world : nat -> nat -> nat) (studs : list student) (gs : Z)
  (seed : option Z) : option (result partition) :=
  if (gs <=? 0)%Z then Some (Throw "group_size must be positive") else
  let total := length studs in
  if (total =? 0)%nat then Some (Throw "No students") else
  let programMap := build_programMap studs in
  let progs := sort_strings (map fst programMap) in
  let r0 := make_rng world seed in
  let (programMap1, r1) := shuffle_buckets progs programMap r0 in
  let n := ceil_div total gs in
  let programsWithEnough := filter (fun p => (n <=? length (pm_get p programMap1))%nat) progs in
  let programsWithShortage :=
    filter (fun p => negb (n <=? length (pm_get p programMap1))%nat) progs in
  let grs0 := repeat [] n in
  let (grs1, programMap2) := assign_enough gs programsWithEnough grs0 programMap1 in
  match assign_shortage gs n programsWithShortage grs1 programMap2 with
  | None => None
  | Some (grs2, programMap3) =>
      let (rest, _) := shuffleInPlace (remaining progs programMap3) r1 in
      let grs3 := distribute_rest gs grs2 rest in
      Some (Ok {| groupSize := gs;
                  numGroups := n;
                  programs := progs;
                  groups := mapi (with_warnings progs) grs3 |})
  end.

(** ** [reshuffleRespectingLocksToGroupSize] *)

(** The own property names of [Object.prototype]: a plain object [{}] answers
    a lookup under one of them with an inherited function or object. *)
Definition inherited_keys : list string :=
  ["constructor"; "__proto__"; "hasOwnProperty"; "isPrototypeOf";
   "propertyIsEnumerable"; "toLocaleString"; "toString"; "valueOf";
   "__defineGetter__"; "__defineSetter__"; "__lookupGetter__"; "__lookupSetter__"].

Definition is_inherited (p : string) : bool := existsb (String.eqb p) inherited_keys.

(** [Math.max(1, Math.ceil(totalStudents / groupSize))], the length of
    [result].  A negative size gives a quotient of at most zero, hence 1.  With
    size 0 the quotient is [Infinity] and [Array.from] throws a [RangeError],
    unless there is no student at all: then it is [NaN] and the array is empty
    ([None]: every comparison with the count is false). *)
Definition target_groups (total : nat) (gs : Z) : result (option nat) :=
  if (0 <? gs)%Z then Ok (Some (Nat.max 1 (ceil_div total gs)))
  else if (gs <? 0)%Z then Ok (Some 1)
  else if (total =? 0)%nat then Ok None
  else Throw "Invalid array length".

(** [g.students.filter(s => s.locked).map(s => ({ ...s, locked: true }))]. *)
Definition locked_of (g : group) : list member :=
  map (fun s => {| who := who s; locked := true |}) (filter locked (students g)).

(** [lockedGroups]: the locked members of every group that has some. *)
Definition lockedGroups_of (grs : list group) : list (list member) :=
  filter (fun l => negb (length l =? 0)%nat) (map locked_of grs).

(** [unlockedPool]. *)
Definition unlocked_of (grs : list group) : list member :=
  map (fun s => {| who := who s; locked := false |})
      (filter (fun s => negb (locked s)) (flat_map students grs)).

(** [counts[p] || 0] for a program that is not an inherited key: the number of
    students of the program, locked or not. *)
Definition count_program (grs : list group) (p : string) : nat :=
  length (filter (fun s => String.eqb (program (who s)) p) (flat_map students grs)).

(** [(counts[p] || 0) >= targetNumGroups].  Under an inherited key the
    operand is a function, an object or a string built from one, whose
    comparison with a number is false. *)
Definition enough_for (grs : list group) (n : nat) (p : string) : bool :=
  negb (is_inherited p) && (n <=? count_program grs p)%nat.

(** [queues]: a plain object from program to array, kept in insertion order
    of its keys. *)
Definition queues : Type := list (string * list member).

(** [(queues[s.program] ||= []).push(s)] for a key that is not inherited. *)
Fixpoint q_push (s : member) (q : queues) : queues :=
  match q with
  | [] => [(program (who s), [s])]
  | (k, v) :: r =>
      if String.eqb k (program (who s)) then (k, v ++ [s]) :: r else (k, v) :: q_push s r
  end.

(** [queues[p]], where [None] is [undefined]. *)
Fixpoint q_get (p : string) (q : queues) : option (list member) :=
  match q with
  | [] => None
  | (k, v) :: r => if String.eqb k p then Some v else q_get p r
  end.

Fixpoint q_set (p : string) (b : list member) (q : queues) : queues :=
  match q with
  | [] => []
  | (k, v) :: r => if String.eqb k p then (k, b) :: r else (k, v) :: q_set p b r
  end.

(** A property name is an array index when it is the canonical decimal form of
    an integer from 0 to 2^32 - 2. *)
Definition digit_of (c : ascii) : option N :=
  let n := N_of_ascii c in
  if ((48 <=? n) && (n <=? 57))%N then Some (n - 48)%N else None.

Fixpoint digits_value (s : string) (acc : N) : option N :=
  match s with
  | EmptyString => Some acc
  | String c r =>
      match digit_of c with
      | Some d => digits_value r (acc * 10 + d)%N
      | None => None
      end
  end.

Definition array_index (s : string) : option N :=
  match s with
  | EmptyString => None
  | String c r =>
      if (N_of_ascii c =? 48)%N && negb (String.length r =? 0)%nat then None
      else match digits_value s 0 with
           | Some v => if (v <=? 4294967294)%N then Some v else None
           | None => None
           end
  end.

Fixpoint insert_index (x : N * string) (l : list (N * string)) : list (N * string) :=
  match l with
  | [] => [x]
  | y :: r => if (fst x <=? fst y)%N then x :: l else y :: insert_index x r
  end.

(** [Object.keys(queues)], also the order of [for (const p in queues)]: the
    array indices in ascending numeric order, then the other names in
    insertion order. *)
Definition object_keys (q : queues) : list string :=
  let ks := map fst q in
  let indexed :=
    flat_map (fun k => match array_index k with Some v => [(v, k)] | None => [] end) ks in
  map snd (fold_right insert_index [] indexed)
  ++ filter (fun k => match array_index k with Some _ => false | None => true end) ks.

(** [for (const p of Object.keys(queues)) shuffleInPlace(queues[p], rng)]. *)
Fixpoint shuffle_queues (ps : list string) (q : queues) (r : rng) : queues * rng :=
  match ps with
  | [] => (q, r)
  | p :: ps' =>
      match q_get p q with
      | Some b => let (b', r') := shuffleInPlace b r in shuffle_queues ps' (q_set p b' q) r'
      | None => shuffle_queues ps' q r
      end
  end.

(** [for (const p of missing) { ... }] for one target group [gr]. *)
Fixpoint fill_group (gs : Z) (missing : list string) (gr : list member) (q : queues)
  : list member * queues :=
  match missing with
  | [] => (gr, q)
  | p :: rest =>
      if negb (has_room gs gr) then (gr, q)
      else match q_get p q with
           | Some b =>
               match pop b with
               | Some (s, b') =>
                   fill_group gs rest (gr ++ [{| who := who s; locked := false |}])
                              (q_set p b' q)
               | None => fill_group gs rest gr q
               end
           | None => fill_group gs rest gr q
           end
  end.

(** [for (let i = 0; i < targetNumGroups; i++) { ... }]; [presentPerGroup[i]]
    holds at every moment the programs of the members of [result[i]]. *)
Fixpoint fill_missing (gs : Z) (enough : list string) (res : list (list member)) (q : queues)
  : list (list member) * queues :=
  match res with
  | [] => ([], q)
  | gr :: rest =>
      let missing := filter (fun p => negb (has_program gr p)) enough in
      let (gr', q') := fill_group gs missing gr q in
      let (rest', q'') := fill_missing gs enough rest q' in
      (gr' :: rest', q'')
  end.

(** The comparator of [targetOrder], as the test [cmp(a, b) <= 0]. *)
Definition order_le (res : list (list member)) (a b : nat) : bool :=
  let la := nth a res [] in
  let lb := nth b res [] in
  if Bool.eqb (existsb locked la) (existsb locked lb)
  then (length la <=? length lb)%nat
  else negb (existsb locked la).

Fixpoint insert_order (res : list (list member)) (x : nat) (l : list nat) : list nat :=
  match l with
  | [] => [x]
  | y :: r => if order_le res x y then x :: l else y :: insert_order res x r
  end.

(** [targetOrder]: the indices sorted (stably) by the comparator. *)
Definition targetOrder_of (res : list (list member)) : list nat :=
  fold_right (insert_order res) [] (seq 0 (length res)).

(** The first index of [targetOrder] whose group is below [groupSize]. *)
Fixpoint first_with_room (gs : Z) (order : list nat) (res : list (list member)) : option nat :=
  match order with
  | [] => None
  | idx :: r => if has_room gs (nth idx res []) then Some idx else first_with_room gs r res
  end.

(** [for (const s of leftover) { ... if (!placed) break; }]. *)
Fixpoint place_leftover (gs : Z) (order : list nat) (res : list (list member))
  (leftover : list member) : list (list member) :=
  match leftover with
  | [] => res
  | s :: rest =>
      match first_with_room gs order res with
      | Some idx =>
          place_leftover gs order (push_at idx {| who := who s; locked := false |} res) rest
      | None => res
      end
  end.

Definition reshuffleRespectingLocksToGroupSize (world : nat -> nat -> nat)
  (grs : list group) (progs : list string) (gs : Z) (seed : option Z)
  : result (list group) :=
  let r0 := make_rng world seed in
  let totalStudents := length (flat_map students grs) in
  match target_groups totalStudents gs with
  | Throw msg => Throw msg
  | Ok None => Ok []
  | Ok (Some targetNumGroups) =>
      let unlockedPool := unlocked_of grs in
      let programsWithEnough := filter (enough_for grs targetNumGroups) progs in
      let lockedGroups := lockedGroups_of grs in
      if (targetNumGroups <? length lockedGroups)%nat then
        Throw "Too many groups with locked students to merge without moving them."
      else
        let res0 := lockedGroups ++ repeat [] (targetNumGroups - length lockedGroups) in
        if existsb (fun s => is_inherited (program (who s))) unlockedPool then
          Throw "queues[s.program].push is not a function"
        else
          let q0 := fold_left (fun q s => q_push s q) unlockedPool [] in
          let (q1, r1) := shuffle_queues (object_keys q0) q0 r0 in
          let (res1, q2) := fill_missing gs programsWithEnough res0 q1 in
          let (leftover, _) :=
            shuffleInPlace (flat_map (fun p => match q_get p q2 with
                                               | Some b => b
                                               | None => []
                                               end) (object_keys q2)) r1 in
          let res2 := place_leftover gs (targetOrder_of res1) res1 leftover in
          Ok (mapi (with_warnings progs) res2)
  end.

(** ** [lockedStayInPlace] *)

(** [key(s)], the template [`${s.name}:::${s.program}`]. *)
Definition key (s : member) : string :=
  (name (who s) ++ ":::" ++ program (who s))%string.

(** [arr.includes(k)], [set.has(k)]. *)
Definition includes (k : string) (l : list string) : bool := existsb (String.eqb k) l.

(** [set.add(k)] on a [Set] kept as the list of its elements in insertion
    order. *)
Definition add_key (acc : list string) (k : string) : list string :=
  if includes k acc then acc else acc ++ [k].

(** [new Set(arr)]. *)
Definition set_of (l : list string) : list string := fold_left add_key l [].

(** [g.students.filter(s => s.locked).map(key)]. *)
Definition locked_keys (g : group) : list string :=
  map key (filter locked (students g)).

(** [keyToCohort]: a [Map], the latest binding of a key first. *)
Definition kmap : Type := list (string * nat).

Fixpoint k_get (k : string) (m : kmap) : option nat :=
  match m with
  | [] => None
  | (k', c) :: r => if String.eqb k' k then Some c else k_get k r
  end.

(** The callback of [prevGroups.forEach], on the pair [(cohorts, keyToCohort)]. *)
Definition add_cohort (st : list (list string) * kmap) (g : group)
  : list (list string) * kmap :=
  let (cohorts, keyToCohort) := st in
  let set := set_of (locked_keys g) in
  if (0 <? length set)%nat then
    let cohortId := length cohorts in
    (cohorts ++ [set], fold_left (fun m k => (k, cohortId) :: m) set keyToCohort)
  else st.

Definition cohorts_of (prevGroups : list group) : list (list string) * kmap :=
  fold_left add_cohort prevGroups ([], []).

(** [cohortIdsInGroup.add(c)] on a [Set] of numbers. *)
Definition add_id (acc : list nat) (c : nat) : list nat :=
  if existsb (Nat.eqb c) acc then acc else acc ++ [c].

(** [cohortIdsInGroup] for an array of locked keys. *)
Definition cohort_ids (keyToCohort : kmap) (lockedKeys : list string) : list nat :=
  fold_left (fun acc k => match k_get k keyToCohort with
                          | Some c => add_id acc c
                          | None => acc
                          end) lockedKeys [].

(** [for (let i = 0; i < nextGroups.length; i++) { ... }] followed by
    [return satisfied.every(Boolean)]. *)
Fixpoint check_next (cohorts : list (list string)) (keyToCohort : kmap)
  (nextGroups : list group) (satisfied : list bool) : bool :=
  match nextGroups with
  | [] => forallb (fun b => b) satisfied
  | g :: rest =>
      let lockedKeys := locked_keys g in
      match cohort_ids keyToCohort lockedKeys with
      | [] => check_next cohorts keyToCohort rest satisfied
      | [cid] =>
          if forallb (fun k => includes k lockedKeys) (nth cid cohorts []) then
            if nth cid satisfied false then false
            else check_next cohorts keyToCohort rest (set_nth cid true satisfied)
          else false
      | _ :: _ :: _ => false
      end
  end.

Definition lockedStayInPlace (prevGroups nextGroups : list group) : bool :=
  let (cohorts, keyToCohort) := cohorts_of prevGroups in
  if (length cohorts =? 0)%nat then true
  else check_next cohorts keyToCohort nextGroups (repeat false (length cohorts)).

(** ** [parseCSV] *)

Definition LF : ascii := ascii_of_nat 10.
Definition CR : ascii := ascii_of_nat 13.
Definition comma : ascii := ascii_of_nat 44.

(** The white space removed by [String.prototype.trim], among the code units
    below 256. *)
Definition is_space (c : ascii) : bool :=
  let n := nat_of_ascii c in
  ((9 <=? n) && (n <=? 13) || (n =? 32) || (n =? 160))%nat.

Fixpoint trim_start (s : list ascii) : list ascii :=
  match s with
  | [] => []
  | c :: r => if is_space c then trim_start r else s
  end.

(** [s.trim()]. *)
Definition trim (s : string) : string :=
  string_of_list_ascii (rev (trim_start (rev (trim_start (list_ascii_of_string s))))).

(** [s.toLowerCase()] on code units below 256: the letters A-Z and the
    capital letters of Latin-1. *)
Definition lower_char (c : ascii) : ascii :=
  let n := nat_of_ascii c in
  if ((65 <=? n) && (n <=? 90) || (192 <=? n) && (n <=? 214)
      || (216 <=? n) && (n <=? 222))%nat
  then ascii_of_nat (n + 32) else c.

Definition toLowerCase (s : string) : string :=
  string_of_list_ascii (map lower_char (list_ascii_of_string s)).

(** [text.split(/\r?\n/)]: [cur] is the current piece, reversed. *)
Fixpoint split_lines_from (s : list ascii) (cur : list ascii) : list string :=
  match s with
  | [] => [string_of_list_ascii (rev cur)]
  | c :: r =>
      if Ascii.eqb c LF then string_of_list_ascii (rev cur) :: split_lines_from r []
      else if Ascii.eqb c CR then
        match r with
        | c' :: r' =>
            if Ascii.eqb c' LF then string_of_list_ascii (rev cur) :: split_lines_from r' []
            else split_lines_from r (c :: cur)
        | [] => split_lines_from r (c :: cur)
        end
      else split_lines_from r (c :: cur)
  end.
Definition split_lines (text : string) : list string :=
  split_lines_from (list_ascii_of_string text) [].

(** [line.split(',')]. *)
Fixpoint split_commas_from (s : list ascii) (cur : list ascii) : list string :=
  match s with
  | [] => [string_of_list_ascii (rev cur)]
  | c :: r =>
      if Ascii.eqb c comma then string_of_list_ascii (rev cur) :: split_commas_from r []
      else split_commas_from r (c :: cur)
  end.
Definition split_commas (line : string) : list string :=
  split_commas_from (list_ascii_of_string line) [].

Definition nameAliases : list string :=
  ["name"; "student"; "student_name"; "student name"].
Definition programAliases : list string :=
  ["program"; "programme"; "study_program"; "study programme"; "studyprogram"; "major"].

(** The index left in [nameIdx] or [progIdx] by the loop over the header:
    the last column whose name is an alias; [None] is [-1]. *)
Fixpoint last_alias_from (aliases : list string) (i : nat) (header : list string)
  (found : option nat) : option nat :=
  match header with
  | [] => found
  | h :: r => last_alias_from aliases (S i) r (if includes h aliases then Some i else found)
  end.

(** [(row[i] || '').trim()]. *)
Definition cell (row : list string) (i : nat) : string := trim (nth i row "").

(** The loop over the data lines. *)
Fixpoint read_rows (nameIdx progIdx : nat) (lines : list string) : list student :=
  match lines with
  | [] => []
  | l :: r =>
      let row := split_commas l in
      let n := cell row nameIdx in
      let p := cell row progIdx in
      if ((String.length n =? 0) || (String.length p =? 0))%nat
      then read_rows nameIdx progIdx r
      else {| name := n; program := p |} :: read_rows nameIdx progIdx r
  end.

Definition parseCSV (text : string) : result (list student) :=
  let lines := filter (fun l => negb (String.length (trim l) =? 0)%nat) (split_lines text) in
  match lines with
  | [] => Throw "CSV is empty"
  | first :: data =>
      let header := map (fun s => toLowerCase (trim s)) (split_commas first) in
      let nameIdx := last_alias_from nameAliases 0 header None in
      let progIdx := last_alias_from programAliases 0 header None in
      let columns :=
        match nameIdx, progIdx with
        | Some n, Some p => Ok (n, p)
        | _, _ =>
            if (2 <=? length header)%nat then Ok (0, 1)%nat
            else Throw "Missing 'name' or 'program' header"
        end in
      match columns with
      | Throw msg => Throw msg
      | Ok (n, p) =>
          match read_rows n p data with
          | [] => Throw "No students found in CSV"
          | (_ :: _) as studs => Ok studs
          end
      end
  end.

(** ** [applyNewGroupSize] *)

(** What a call of [applyNewGroupSize] leaves behind: a banner shown by
    [showGroupBanner] with the state untouched, the size field alone set when
    no groups exist yet, or the new groups rendered. *)
Inductive banner : Type :=
| SizeBelowOne
| MoreLockedThanSize (details : list (nat * nat))
| WouldMoveLocked
| Thrown (msg : string).

Inductive outcome : Type :=
| Banner (b : banner)
| SizeOnly
| Applied (grs : list group).

(** [payload.groups.map((g, i) => ({ index: i + 1, locked: ... }))
      .filter(x => x.locked > newSize)]. *)
Definition violating (grs : list group) (newSize : Z) : list (nat * nat) :=
  filter (fun x => (newSize <? Z.of_nat (snd x))%Z)
         (mapi (fun i g => (i + 1, length (filter locked (students g)))) grs).

(** The groups are those of [currentPayload()], which reads back the sections
    rendered from [state.groups]; [world1] and [world2] are the behaviour of
    [Math.random] during the tentative and the final reshuffle. *)
Definition applyNewGroupSize (world1 world2 : nat -> nat -> nat) (grs : list group)
  (progs : list string) (newSize : Z) (seed : option Z) : outcome :=
  if (newSize <? 1)%Z then Banner SizeBelowOne else
  if (length grs =? 0)%nat then SizeOnly else
  match violating grs newSize with
  | (_ :: _) as v => Banner (MoreLockedThanSize v)
  | [] =>
      let totalStudents := length (flat_map students grs) in
      let targetNumGroups := Nat.max 1 (ceil_div totalStudents newSize) in
      let tentative :=
        if (targetNumGroups <? length grs)%nat then
          match reshuffleRespectingLocksToGroupSize world1 grs progs newSize seed with
          | Ok t => if lockedStayInPlace grs t then None else Some WouldMoveLocked
          | Throw msg => Some (Thrown msg)
          end
        else None in
      match tentative with
      | Some b => Banner b
      | None =>
          match reshuffleRespectingLocksToGroupSize world2 grs progs newSize seed with
          | Ok g => if lockedStayInPlace grs g then Applied g else Banner WouldMoveLocked
          | Throw msg => Banner (Thrown msg)
          end
      end
  end.

(** ** Notions used by the statements *)

(** The number of students held by the program map. *)
Definition pm_total (m : pmap) : nat := length (flat_map snd m).

(** The number of members placed in an array of groups. *)
Definition size (grs : list (list member)) : nat := list_sum (map (@length member) grs).

(** The sum of [group.students.length] over returned groups. *)
Definition placed (grs : list group) : nat :=
  list_sum (map (fun g => length (students g)) grs).



(** [missingPrograms] read as an array, [null] being the empty one. *)
Definition missing_of (g : group) : list string :=
  match missingPrograms g with
  | Some l => l
  | None => []
  end.

(** The intermediate values of a call that gets past the two guards. *)
Record run : Type := mkRun {
  r_progs : list string;
  r_n : nat;
  r_map1 : pmap;
  r_rng1 : rng;
  r_groups1 : list (list member);
  r_map2 : pmap;
  r_groups2 : list (list member);
  r_map3 : pmap;
  r_rest : list student
}.

Definition run_of (world : nat -> nat -> nat) (studs : list student) (gs : Z)
  (seed : option Z) (x : run) : Prop :=
  r_progs x = sort_strings (map fst (build_programMap studs))
  /\ r_n x = ceil_div (length studs) gs
  /\ shuffle_buckets (r_progs x) (build_programMap studs) (make_rng world seed)
     = (r_map1 x, r_rng1 x)
  /\ assign_enough gs
       (filter (fun p => (r_n x <=? length (pm_get p (r_map1 x)))%nat) (r_progs x))
       (repeat [] (r_n x)) (r_map1 x) = (r_groups1 x, r_map2 x)
  /\ assign_shortage gs (r_n x)
       (filter (fun p => negb (r_n x <=? length (pm_get p (r_map1 x)))%nat) (r_progs x))
       (r_groups1 x) (r_map2 x) = Some (r_groups2 x, r_map3 x)
  /\ r_rest x = fst (shuffleInPlace (remaining (r_progs x) (r_map3 x)) (r_rng1 x)).

Definition partition_of (gs : Z) (x : run) : partition :=
  {| groupSize := gs;
     numGroups := r_n x;
     programs := r_progs x;
     groups := mapi (with_warnings (r_progs x)) (distribute_rest gs (r_groups2 x) (r_rest x)) |}.



(** The number of members waiting in the queues. *)
Definition q_total (q : queues) : nat := length (flat_map snd q).

(** [leftover] before its shuffle. *)
Definition leftover_of (q : queues) : list member :=
  flat_map (fun p => match q_get p q with Some b => b | None => [] end) (object_keys q).

(** No key is shared by the locked students of two different groups: [ks]
    lists, group by group, the keys of the locked students. *)
Fixpoint apart (ks : list (list string)) : bool :=
  match ks with
  | [] => true
  | k :: r => forallb (fun x => forallb (fun k' => negb (includes x k')) r) k && apart r
  end.

(** The keys of the locked students of the groups that have some, group by
    group: one array per cohort. *)
Definition cohort_keys (grs : list group) : list (list string) :=
  filter (fun l => negb (length l =? 0)%nat) (map locked_keys grs).

(** ** Sample inputs *)

(** A [Math.random] that always returns 0. *)
Definition zeros : nat -> nat -> nat := fun _ _ => 0.

(** Six students of three programs. *)
Definition six_students : list student :=
  [ {| name := "A"; program := "CS" |}; {| name := "B"; program := "Math" |};
    {| name := "C"; program := "Physics" |}; {| name := "D"; program := "CS" |};
    {| name := "E"; program := "Math" |}; {| name := "F"; program := "Physics" |} ].

(** Two groups, one locked student in each, and four students free to move. *)
Definition two_cohorts : list group :=
  [ {| index := 1;
       students := [ {| who := {| name := "A"; program := "CS" |}; locked := true |};
                     {| who := {| name := "B"; program := "Math" |}; locked := false |};
                     {| who := {| name := "C"; program := "CS" |}; locked := false |} ];
       missingPrograms := None |};
    {| index := 2;
       students := [ {| who := {| name := "D"; program := "Math" |}; locked := true |};
                     {| who := {| name := "E"; program := "CS" |}; locked := false |};
                     {| who := {| name := "F"; program := "Math" |}; locked := false |} ];
       missingPrograms := None |} ].

(** Two groups whose locked students have the same name and program. *)
Definition twin_cohorts : list group :=
  [ {| index := 1;
       students := [ {| who := {| name := "X"; program := "CS" |}; locked := true |} ];
       missingPrograms := None |};
    {| index := 2;
       students := [ {| who := {| name := "X"; program := "CS" |}; locked := true |} ];
       missingPrograms := None |} ].

(** One group with five locked students and a sixth, unlocked. *)
Definition five_locked : list group :=
  [ {| index := 1;
       students := [ {| who := {| name := "a"; program := "CS" |}; locked := true |};
                     {| who := {| name := "b"; program := "CS" |}; locked := true |};
                     {| who := {| name := "c"; program := "Math" |}; locked := true |};
                     {| who := {| name := "d"; program := "Math" |}; locked := true |};
                     {| who := {| name := "e"; program := "Math" |}; locked := true |};
                     {| who := {| name := "f"; program := "CS" |}; locked := false |} ];
       missingPrograms := None |} ].

(** A CSV text whose header has three columns, none of them an alias. *)
Definition three_columns : string :=
  ("a,b,c" ++ String LF "x,y,z")%string.

(** One group, nobody locked. *)
Definition nobody_locked : list group :=
  [ {| index := 1;
       students := [ {| who := {| name := "A"; program := "CS" |}; locked := false |};
                     {| who := {| name := "B"; program := "Math" |}; locked := false |} ];
       missingPrograms := None |} ].

(** ** Further notions used by the statements *)

(** The students of an array of member arrays, in order. *)
Definition content (grs : list (list member)) : list student := flat_map (map who) grs.

(** The students of the groups, in order, without their lock flags. *)
Definition roster (grs : list group) : list student :=
  flat_map (fun g => map who (students g)) grs.

(** Two values of [rng] that answer alike from now on: two closures whose
    captured states have the same 32-bit pattern, or the same value. *)
Definition same_stream (r r' : rng) : Prop :=
  match r, r' with
  | Seeded a, Seeded a' => (a mod two32 = a' mod two32)%Z
  | _, _ => r = r'
  end.

(** Ascending for [<=?] on strings: each element is at most the next. *)
Fixpoint ascending (l : list string) : bool :=
  match l with
  | [] => true
  | x :: r =>
      match r with
      | [] => true
      | y :: _ => String.leb x y && ascending r
      end
  end.

(** [{ ...s, locked: false }] on a member. *)
Definition unlocked (s : member) : member := {| who := who s; locked := false |}.

(** The members of an array of member arrays, in order. *)
Definition members (grs : list (list member)) : list member := flat_map (fun gr => gr) grs.

(** ** [exportCSV] and [validateConstraints] *)

From Stdlib Require DecimalString DecimalNat.

(** [`${n}`] for a number holding a natural: its decimal digits.  (From 10^21
    on, JavaScript prints an exponent instead.) *)
Definition number_string (n : nat) : string :=
  DecimalString.NilEmpty.string_of_uint (Nat.to_uint n).

(** The array [lines] of [exportCSV]. *)
Definition exportCSV_lines (grs : list group) : list string :=
  "group,name,program"
  :: flat_map (fun g =>
       map (fun s => (number_string (index g) ++ "," ++ name (who s)
                      ++ "," ++ program (who s))%string)
           (students g)) grs.

(** [lines.join('\n')], the text that [exportCSV] puts in the [Blob] it offers
    for download. *)
Definition exportCSV (grs : list group) : string :=
  String.concat (String LF EmptyString) (exportCSV_lines grs).

(** The messages pushed by [validateConstraints], kept as their data:
    [`Group ${index} exceeds group size ${groupSize}.`] and
    [`Group ${index} missing programs: ${missing.join(', ')}`]. *)
Inductive constraint_error : Type :=
| ExceedsGroupSize (index : nat) (groupSize : Z)
| MissingPrograms (index : nat) (missing : list string).

Definition validateConstraints (grs : list group) (progs : list string) (gs : Z)
  : list constraint_error :=
  flat_map (fun g =>
    (if (gs <? Z.of_nat (length (students g)))%Z
     then [ExceedsGroupSize (index g) gs] else [])
    ++ (match filter (fun p => negb (has_program (students g) p)) progs with
        | [] => []
        | (_ :: _) as missing => [MissingPrograms (index g) missing]
        end)) grs.

(** A text without comma, line feed or carriage return. *)
Definition plain (s : string) : bool :=
  forallb (fun c => negb (Ascii.eqb c comma || Ascii.eqb c LF || Ascii.eqb c CR))
          (list_ascii_of_string s).

(** A field that a CSV line carries unchanged: not empty, plain, and without
    white space at either end. *)
Definition clean (s : string) : bool :=
  negb (String.length s =? 0)%nat && plain s && String.eqb (trim s) s.

(** ** [getProgramColors] and [themedGroupNames] *)

(** The array [colors]. *)
Definition colors : list string :=
  [ "#E69F00";
    "#56B4E9";
    "#009E73";
    "#F0E442";
    "#0072B2";
    "#D55E00";
    "#CC79A7";
    "#999999";
    "#E69F00";
    "#56B4E9";
    "#009E73";
    "#F0E442";
    "#0072B2";
    "#D55E00";
    "#CC79A7";
    "#999999";
    "#E69F00";
    "#56B4E9";
    "#009E73";
    "#F0E442" ].

(** [programColors[program] = color] on a plain object, kept as the list of
    its own properties: a new name is added, a present one overwritten, and an
    assignment of a string under [__proto__] is ignored. *)
Fixpoint own_set (k v : string) (obj : list (string * string)) : list (string * string) :=
  match obj with
  | [] => [(k, v)]
  | (k', v') :: r => if String.eqb k' k then (k', v) :: r else (k', v') :: own_set k v r
  end.

Definition assign (k v : string) (obj : list (string * string)) : list (string * string) :=
  if String.eqb k "__proto__" then obj else own_set k v obj.

(** The own property [k] of the object, [None] when it has none. *)
Fixpoint own_get (k : string) (obj : list (string * string)) : option string :=
  match obj with
  | [] => None
  | (k', v) :: r => if String.eqb k' k then Some v else own_get k r
  end.

(** The loop of [programs.forEach], entered at [index]. *)
Fixpoint color_from (index : nat) (programs : list string) (obj : list (string * string))
  : list (string * string) :=
  match programs with
  | [] => obj
  | p :: r => color_from (S index) r (assign p (nth (index mod length colors) colors "") obj)
  end.

Definition getProgramColors (programs : list string) : list (string * string) :=
  color_from 0 programs [].

(** The own properties of [lists] other than [numeric]. *)
Definition theme_lists : list (string * list string) :=
  [ ("greek",
     [ "Alpha"; "Beta"; "Gamma"; "Delta"; "Epsilon"; "Zeta"; "Eta"; "Theta"; "Iota"; "Kappa"; "Lambda"; "Mu"; "Nu"; "Xi"; "Omicron"; "Pi"; "Rho"; "Sigma"; "Tau"; "Upsilon"; "Phi"; "Chi"; "Psi"; "Omega" ]);
    ("colors",
     [ "Red"; "Blue"; "Green"; "Yellow"; "Purple"; "Orange"; "Teal"; "Cyan"; "Magenta"; "Lime"; "Indigo"; "Violet"; "Amber"; "Rose"; "Emerald"; "Sapphire"; "Ruby"; "Topaz" ]);
    ("animals",
     [ "Lion"; "Tiger"; "Bear"; "Wolf"; "Eagle"; "Falcon"; "Dolphin"; "Fox"; "Owl"; "Hawk"; "Panther"; "Cheetah"; "Bison"; "Moose"; "Koala"; "Penguin"; "Otter"; "Orca" ]);
    ("planets",
     [ "Mercury"; "Venus"; "Earth"; "Mars"; "Jupiter"; "Saturn"; "Uranus"; "Neptune"; "Pluto" ]);
    ("norse",
     [ "Odin"; "Thor"; "Freya"; "Loki"; "Baldr"; "Frigg"; "Heimdall"; "Tyr"; "Njord"; "Sif"; "Skadi"; "Bragi" ]);
    ("mathematicians",
     [ "Gauss"; "Noether"; "Euler"; "Riemann"; "Hilbert"; ("Poincar" ++ String (ascii_of_nat 233) EmptyString)%string; "Cantor"; "Ramanujan"; "Hypatia"; "Archimedes"; "Cauchy"; "Fourier"; "Fermat"; "Galois"; "Lagrange" ]);
    ("physicists",
     [ "Newton"; "Einstein"; "Curie"; "Feynman"; "Hawking"; "Maxwell"; "Faraday"; "Bohr"; "Heisenberg"; ("Schr" ++ String (ascii_of_nat 246) EmptyString ++ "dinger")%string; "Dirac"; "Planck"; "Galileo"; "Kepler" ]);
    ("chemists",
     [ "Lavoisier"; "Mendeleev"; "Dalton"; "Avogadro"; "Pauling"; ("Kekul" ++ String (ascii_of_nat 233) EmptyString)%string; "Haber"; "Curie"; "Bunsen"; "Priestley"; "Boyle"; "Berzelius" ]);
    ("biologists",
     [ "Darwin"; "Mendel"; "Pasteur"; "Linnaeus"; "Haeckel"; "Goodall"; "Franklin"; "Watson"; "Crick"; "Huxley"; "Monod"; "Margulis" ]);
    ("philosophers",
     [ "Plato"; "Aristotle"; "Kant"; "Hume"; "Nietzsche"; "Descartes"; "Spinoza"; "Kierkegaard"; "Wittgenstein"; "Confucius"; "Socrates"; "Heidegger" ]);
    ("computerscience",
     [ "Turing"; "Shannon"; "von Neumann"; "Knuth"; "Dijkstra"; "Hopper"; "Berners-Lee"; "Lamport"; "Ritchie"; "Torvalds"; "Kay"; "Backus" ]);
    ("constellations",
     [ "Orion"; "Lyra"; "Cygnus"; "Andromeda"; "Cassiopeia"; "Draco"; "Aquila"; "Pegasus"; "Phoenix"; "Ursa Major"; "Ursa Minor"; "Perseus" ]) ].

(** [`Group ${i + 1}`]. *)
Definition group_label (i : nat) : string := ("Group " ++ number_string (i + 1))%string.

Fixpoint theme_get (theme : string) (l : list (string * list string))
  : option (list string) :=
  match l with
  | [] => None
  | (k, v) :: r => if String.eqb k theme then Some v else theme_get theme r
  end.

(** [lists[theme] || lists.numeric].  Under a name inherited from
    [Object.prototype] the value is a function or an object, which is truthy
    and has no element at any index: an empty array stands for it. *)
Definition theme_list (numGroups : nat) (theme : string) : list string :=
  if String.eqb theme "numeric" then map group_label (seq 0 numGroups)
  else match theme_get theme theme_lists with
       | Some l => l
       | None => if is_inherited theme then [] else map group_label (seq 0 numGroups)
       end.

(** [list[i] ? list[i] : `Group ${i + 1}`]; the empty string is falsy. *)
Definition name_at (list : list string) (i : nat) : string :=
  match nth_error list i with
  | Some x => if (String.length x =? 0)%nat then group_label i else x
  | None => group_label i
  end.

Definition themedGroupNames (numGroups : nat) (theme : string) : list string :=
  map (name_at (theme_list numGroups theme)) (seq 0 numGroups).

(** A name of the form of a label, [s.startsWith("Group ")]. *)
Definition is_label (s : string) : bool := String.prefix "Group " s.

Fixpoint distinctb (l : list string) : bool :=
  match l with
  | [] => true
  | x :: r => negb (existsb (String.eqb x) r) && distinctb r
  end.

(** What the names of a theme are checked for: none occurs twice, none is
    empty and none has the form of a label. *)
Definition table_ok (l : list string) : bool :=
  distinctb l
  && forallb (fun s => negb (is_label s) && negb (String.length s =? 0)%nat) l.

(** ** The history of saved classes *)

(** An element of the array stored under [CLASS_HISTORY_KEY]. *)
Record class_entry : Type := mkEntry {
  c_name : string;
  c_content : string;
  c_timestamp : string;
  c_size : nat;
  c_lastGroups : option (list group)
}.

Definition MAX_HISTORY_SIZE : nat := 20.

(** The state of [localStorage] under [CLASS_HISTORY_KEY]: the array that
    [JSON.parse] makes of the stored text, [None] when nothing is stored. *)
Definition storage : Type := option (list class_entry).

(** [stored ? JSON.parse(stored) : []]. *)
Definition getClassHistory (store : storage) : list class_entry :=
  match store with
  | Some h => h
  | None => []
  end.

(** [history.findIndex(item => item.name === className)] followed by
    [history.splice(existingIndex, 1)] when an index is found. *)
Fixpoint remove_first (className : string) (h : list class_entry) : list class_entry :=
  match h with
  | [] => []
  | e :: r => if String.eqb (c_name e) className then r else e :: remove_first className r
  end.

(** [saveClassList(className, content)] as a change of the storage; [now] is
    [new Date().toISOString()], and [writable] tells whether
    [localStorage.setItem] succeeds: when it throws, the function only logs a
    warning. *)
Definition saveClassList (now : string) (writable : bool) (store : storage)
  (className content : string) : storage :=
  let history := remove_first className (getClassHistory store) in
  let history :=
    {| c_name := className; c_content := content; c_timestamp := now;
       c_size := String.length content; c_lastGroups := None |} :: history in
  let history :=
    if (MAX_HISTORY_SIZE <? length history)%nat then firstn MAX_HISTORY_SIZE history
    else history in
  if writable then Some history else store.

(** [history[classIndex].lastGroups = groups] at the first entry of that
    name; [None] when there is none. *)
Fixpoint set_lastGroups (className : string) (grs : list group) (h : list class_entry)
  : option (list class_entry) :=
  match h with
  | [] => None
  | e :: r =>
      if String.eqb (c_name e) className
      then Some ({| c_name := c_name e; c_content := c_content e;
                    c_timestamp := c_timestamp e; c_size := c_size e;
                    c_lastGroups := Some grs |} :: r)
      else match set_lastGroups className grs r with
           | Some r' => Some (e :: r')
           | None => None
           end
  end.

Definition updateClassWithGroups (writable : bool) (store : storage)
  (className : string) (grs : list group) : storage :=
  match set_lastGroups className grs (getClassHistory store) with
  | Some history => if writable then Some history else store
  | None => store
  end.

(** [history.find(item => item.name === className)]. *)
Fixpoint find_class (className : string) (h : list class_entry) : option class_entry :=
  match h with
  | [] => None
  | e :: r => if String.eqb (c_name e) className then Some e else find_class className r
  end.

(** [loadClassFromHistory(className)]; [None] is [null]. *)
Definition loadClassFromHistory (store : storage) (className : string) : option string :=
  match find_class className (getClassHistory store) with
  | Some e => Some (c_content e)
  | None => None
  end.

(** [window.deleteClass(className)] as a change of the storage; [confirmed]
    is the answer to [confirm(...)].  A failing [setItem] is not caught here:
    the storage is then left as it was. *)
Definition deleteClass (confirmed writable : bool) (store : storage) (className : string)
  : storage :=
  if confirmed then
    if writable
    then Some (filter (fun e => negb (String.eqb (c_name e) className))
                      (getClassHistory store))
    else store
  else store.

(** The names of the stored classes, most recent first. *)
Definition class_names (store : storage) : list string :=
  map c_name (getClassHistory store).

(** A stored history with one class. *)
Definition one_class : storage :=
  Some [ {| c_name := "1A"; c_content := "name,program"; c_timestamp := "";
            c_size := 12; c_lastGroups := None |} ].

(** * Properties *)

(** ** Arrays and the shuffle *)

Lemma pop_none {A : Type} (l : list A) : pop l = None -> l = [].
Proof.
  destruct l as [|x r]; simpl; [reflexivity|].
  destruct (pop r) as [[y r']|]; discriminate.
Qed.

Lemma pop_some {A : Type} (l : list A) x l' : pop l = Some (x, l') -> l = l' ++ [x].
Proof.
  revert x l'; induction l as [|a r IH]; simpl; intros x l' H; [discriminate|].
  destruct (pop r) as [[y r']|] eqn:E.
  - injection H as <- <-. simpl. f_equal. now apply IH.
  - injection H as <- <-. apply pop_none in E. now subst.
Qed.

Lemma pop_nonempty {A : Type} (l : list A) : l <> [] -> exists x l', pop l = Some (x, l').
Proof.
  destruct (pop l) as [[x l']|] eqn:E; [eauto|].
  intros H. now apply pop_none in E.
Qed.

Lemma set_nth_length {A : Type} i (x : A) l : length (set_nth i x l) = length l.
Proof.
  revert i; induction l as [|y r IH]; intros [|i]; simpl; auto.
Qed.

Lemma set_nth_perm {A : Type} (l : list A) j h y :
  nth_error l j = Some y -> Permutation (y :: set_nth j h l) (h :: l).
Proof.
  revert j; induction l as [|a r IH]; intros [|j]; simpl; try discriminate.
  - intros [= ->]. apply perm_swap.
  - intros H. rewrite perm_swap. rewrite (IH _ H). apply perm_swap.
Qed.

Lemma swap_perm {A : Type} (l : list A) i j : Permutation (swap l i j) l.
Proof.
  unfold swap.
  destruct (nth_error l i) as [x|] eqn:Ei; [|reflexivity].
  destruct (nth_error l j) as [y|] eqn:Ej; [|reflexivity].
  revert i j Ei Ej; induction l as [|a r IH]; intros [|i] [|j]; simpl;
    try discriminate.
  - intros [= ->] [= ->]. reflexivity.
  - intros [= ->] H. now apply set_nth_perm.
  - intros H [= ->]. now apply set_nth_perm.
  - intros Hi Hj. constructor. now apply IH.
Qed.

Lemma shuffle_from_perm {A : Type} i (arr : list A) r :
  Permutation (fst (shuffle_from i arr r)) arr.
Proof.
  revert arr r; induction i as [|i IH]; intros arr r; simpl; [reflexivity|].
  destruct (draw r _) as [j r'].
  etransitivity; [apply IH | apply swap_perm].
Qed.

Lemma shuffleInPlace_perm {A : Type} (arr : list A) r :
  Permutation (fst (shuffleInPlace arr r)) arr.
Proof. apply shuffle_from_perm. Qed.

(** ** The program map *)


Lemma pm_keys_push q s m k :
  In k (map fst (pm_push q s m)) <-> k = q \/ In k (map fst m).
Proof.
  induction m as [|[k' v] r IH]; simpl.
  - intuition.
  - destruct (String.eqb k' q) eqn:E; simpl.
    + apply String.eqb_eq in E; subst. intuition.
    + rewrite IH. intuition.
Qed.

Lemma pm_keys_push_nodup q s m :
  NoDup (map fst m) -> NoDup (map fst (pm_push q s m)).
Proof.
  induction m as [|[k v] r IH]; simpl; intros H.
  - constructor; [intros []|constructor].
  - destruct (String.eqb k q) eqn:E; simpl; [exact H|].
    inversion_clear H as [|? ? Hk Hr]. constructor; [|now apply IH].
    rewrite pm_keys_push. intros [->|Hin]; [|contradiction].
    now rewrite String.eqb_refl in E.
Qed.

Lemma pm_total_push q s m : pm_total (pm_push q s m) = S (pm_total m).
Proof.
  unfold pm_total. induction m as [|[k v] r IH]; simpl; [reflexivity|].
  destruct (String.eqb k q); simpl; rewrite !length_app in *; simpl; lia.
Qed.



Lemma build_from_keys k studs m :
  In k (map fst (fold_left (fun m s => pm_push (program s) s m) studs m))
  <-> In k (map program studs) \/ In k (map fst m).
Proof.
  revert m; induction studs as [|s r IH]; intros m; simpl.
  - intuition.
  - rewrite IH, pm_keys_push. intuition.
Qed.

Lemma build_programMap_keys k studs :
  In k (map fst (build_programMap studs)) <-> In k (map program studs).
Proof. unfold build_programMap. rewrite build_from_keys. simpl. intuition. Qed.

Lemma build_programMap_nodup studs : NoDup (map fst (build_programMap studs)).
Proof.
  unfold build_programMap.
  assert (H : NoDup (map fst ([] : pmap))) by constructor.
  revert H. generalize ([] : pmap).
  induction studs as [|s r IH]; intros m H; simpl; [exact H|].
  apply IH. now apply pm_keys_push_nodup.
Qed.

Lemma build_programMap_total studs : pm_total (build_programMap studs) = length studs.
Proof.
  unfold build_programMap.
  assert (H : forall m, pm_total (fold_left (fun m s => pm_push (program s) s m) studs m)
                        = length studs + pm_total m).
  { induction studs as [|s r IH]; intros m; simpl; [reflexivity|].
    rewrite IH, pm_total_push. lia. }
  rewrite H. unfold pm_total. simpl. lia.
Qed.

Lemma pm_set_keys p b m : map fst (pm_set p b m) = map fst m.
Proof.
  induction m as [|[k v] r IH]; simpl; [reflexivity|].
  destruct (String.eqb k p); simpl; [reflexivity | now rewrite IH].
Qed.



Lemma pm_total_set p b m :
  length b <= length (pm_get p m) ->
  pm_total (pm_set p b m) + length (pm_get p m) = pm_total m + length b.
Proof.
  unfold pm_total. induction m as [|[k v] r IH]; simpl; [lia|].
  destruct (String.eqb k p) eqn:E; simpl; rewrite !length_app.
  - lia.
  - intros H. specialize (IH H). lia.
Qed.

Lemma pm_get_set_perm p b m q :
  Permutation b (pm_get p m) -> Permutation (pm_get q (pm_set p b m)) (pm_get q m).
Proof.
  intros Hb. induction m as [|[k v] r IH]; simpl in *; [reflexivity|].
  destruct (String.eqb k p) eqn:E; simpl.
  - destruct (String.eqb k q); [exact Hb | reflexivity].
  - destruct (String.eqb k q); [reflexivity | now apply IH].
Qed.

Lemma flat_map_agree {A B : Type} (f g : A -> list B) l :
  (forall a, In a l -> f a = g a) -> flat_map f l = flat_map g l.
Proof.
  induction l as [|x r IH]; simpl; intros H; [reflexivity|].
  rewrite (H x) by now left. f_equal. apply IH. intros a Ha. apply H. now right.
Qed.

Lemma remaining_keys m : NoDup (map fst m) -> remaining (map fst m) m = flat_map snd m.
Proof.
  unfold remaining. induction m as [|[k v] r IH]; simpl; [reflexivity|].
  intros H. inversion_clear H as [|? ? Hk Hr].
  rewrite String.eqb_refl. f_equal.
  rewrite <- (IH Hr). apply flat_map_agree.
  intros p Hp. destruct (String.eqb k p) eqn:E; [|reflexivity].
  apply String.eqb_eq in E; subst. contradiction.
Qed.

Lemma flat_map_perm {A B : Type} (f : A -> list B) l l' :
  Permutation l l' -> Permutation (flat_map f l) (flat_map f l').
Proof.
  induction 1; simpl.
  - reflexivity.
  - now apply Permutation_app_head.
  - rewrite !app_assoc. apply Permutation_app_tail, Permutation_app_comm.
  - etransitivity; eassumption.
Qed.

Lemma remaining_total ps m :
  NoDup (map fst m) -> Permutation ps (map fst m) ->
  length (remaining ps m) = pm_total m.
Proof.
  intros Hnd Hp. unfold pm_total. rewrite <- (remaining_keys m Hnd).
  apply Permutation_length. unfold remaining. now apply flat_map_perm.
Qed.

(** ** Sorting *)

Lemma insert_string_perm x l : Permutation (insert_string x l) (x :: l).
Proof.
  induction l as [|y r IH]; simpl; [reflexivity|].
  destruct (String.leb x y); [reflexivity|].
  rewrite IH. apply perm_swap.
Qed.

Lemma sort_strings_perm l : Permutation (sort_strings l) l.
Proof.
  induction l as [|x r IH]; simpl; [reflexivity|].
  rewrite insert_string_perm. now constructor.
Qed.

Lemma insert_by_length_perm x l : Permutation (insert_by_length x l) (x :: l).
Proof.
  induction l as [|y r IH]; simpl; [reflexivity|].
  destruct (length x <=? length y)%nat; [reflexivity|].
  rewrite IH. apply perm_swap.
Qed.

Lemma sort_by_length_perm l : Permutation (sort_by_length l) l.
Proof.
  induction l as [|x r IH]; simpl; [reflexivity|].
  rewrite insert_by_length_perm. now constructor.
Qed.

(** ** The phases of [groupStudents] *)

Lemma size_cons gr grs : size (gr :: grs) = length gr + size grs.
Proof. reflexivity. Qed.

Lemma size_app_one gr x grs :
  size ((gr ++ [x]) :: grs) = S (size (gr :: grs)).
Proof. unfold size; simpl. rewrite length_app; simpl. lia. Qed.

Lemma size_perm l l' : Permutation l l' -> size l = size l'.
Proof.
  intros H. unfold size. induction H; simpl; lia.
Qed.

Lemma all_full_perm gs l l' : Permutation l l' -> all_full gs l = all_full gs l'.
Proof.
  intros H. unfold all_full. induction H; simpl.
  - reflexivity.
  - now rewrite IHPermutation.
  - rewrite !andb_assoc. f_equal. apply andb_comm.
  - congruence.
Qed.

Lemma all_full_size gs grs :
  all_full gs grs = true -> (Z.of_nat (length grs) * gs <= Z.of_nat (size grs))%Z.
Proof.
  unfold all_full, has_room. induction grs as [|gr r IH]; [simpl; lia|].
  rewrite size_cons. cbn [forallb length]. intros H.
  apply andb_prop in H as [H1 H2]. specialize (IH H2).
  apply negb_true_iff, Z.ltb_ge in H1. nia.
Qed.

Lemma all_full_room gs grs :
  all_full gs grs = false ->
  exists h, h < length grs /\ has_room gs (nth h grs []) = true.
Proof.
  unfold all_full. induction grs as [|gr r IH]; simpl; [discriminate|].
  destruct (has_room gs gr) eqn:E; simpl.
  - intros _. exists 0. split; [lia | exact E].
  - intros H. destruct (IH H) as (h & Hh & Hr). exists (S h). split; [lia | exact Hr].
Qed.

Lemma room_not_all_full gs grs h :
  h < length grs -> has_room gs (nth h grs []) = true -> all_full gs grs = false.
Proof.
  unfold all_full. revert h; induction grs as [|gr r IH]; simpl; intros h Hh Hr; [lia|].
  destruct h as [|h].
  - now rewrite Hr.
  - rewrite (IH h) by (auto; lia). apply andb_false_r.
Qed.

Lemma push_at_length g x grs : length (push_at g x grs) = length grs.
Proof.
  revert g; induction grs as [|gr r IH]; intros [|g]; simpl; auto.
Qed.

Lemma push_at_size g x grs : g < length grs -> size (push_at g x grs) = S (size grs).
Proof.
  revert g; induction grs as [|gr r IH]; intros [|g]; simpl; try lia.
  - intros _. apply size_app_one.
  - intros H. unfold size in *; simpl. rewrite IH by lia. lia.
Qed.

Lemma one_per_group_length gs grs bucket :
  length (fst (one_per_group gs grs bucket)) = length grs.
Proof.
  revert bucket; induction grs as [|gr r IH]; intros bucket; simpl; [reflexivity|].
  destruct (if has_room gs gr then pop bucket else None) as [[s b]|].
  - specialize (IH b). destruct (one_per_group gs r b); simpl in *. now rewrite IH.
  - specialize (IH bucket). destruct (one_per_group gs r bucket); simpl in *. now rewrite IH.
Qed.

Lemma one_per_group_size gs grs bucket :
  size (fst (one_per_group gs grs bucket)) + length (snd (one_per_group gs grs bucket))
  = size grs + length bucket
  /\ length (snd (one_per_group gs grs bucket)) <= length bucket.
Proof.
  revert bucket; induction grs as [|gr r IH]; intros bucket; simpl; [split; reflexivity|].
  destruct (if has_room gs gr then pop bucket else None) as [[s b]|] eqn:E.
  - destruct (has_room gs gr); [|discriminate].
    apply pop_some in E; subst bucket.
    specialize (IH b). destruct (one_per_group gs r b) as [r' b']; simpl in *.
    rewrite size_app_one, length_app. unfold size in *; simpl in *. lia.
  - specialize (IH bucket). destruct (one_per_group gs r bucket) as [r' b']; simpl in *.
    unfold size in *; simpl. lia.
Qed.

Lemma assign_enough_length gs ps grs m :
  length (fst (assign_enough gs ps grs m)) = length grs.
Proof.
  revert grs m; induction ps as [|p ps IH]; intros grs m; simpl; [reflexivity|].
  pose proof (one_per_group_length gs grs (pm_get p m)) as H.
  destruct (one_per_group gs grs (pm_get p m)) as [grs' b]; simpl in H.
  now rewrite IH.
Qed.

Lemma assign_enough_keys gs ps grs m :
  map fst (snd (assign_enough gs ps grs m)) = map fst m.
Proof.
  revert grs m; induction ps as [|p ps IH]; intros grs m; simpl; [reflexivity|].
  destruct (one_per_group gs grs (pm_get p m)) as [grs' b].
  rewrite IH. apply pm_set_keys.
Qed.

Lemma assign_enough_size gs ps grs m :
  size (fst (assign_enough gs ps grs m)) + pm_total (snd (assign_enough gs ps grs m))
  = size grs + pm_total m.
Proof.
  revert grs m; induction ps as [|p ps IH]; intros grs m; simpl; [reflexivity|].
  pose proof (one_per_group_size gs grs (pm_get p m)) as H.
  destruct (one_per_group gs grs (pm_get p m)) as [grs' b]; simpl in H.
  rewrite IH. pose proof (pm_total_set p b m). lia.
Qed.

Lemma spread_length fuel gs n grs bucket g grs' b' :
  spread fuel gs n grs bucket g = Some (grs', b') -> length grs' = length grs.
Proof.
  revert grs bucket g; induction fuel as [|fuel IH]; intros grs bucket g;
    destruct bucket as [|s0 bk]; cbn [spread]; try discriminate.
  - now intros [= <- <-].
  - now intros [= <- <-].
  - destruct (if has_room gs (nth g grs []) then pop (s0 :: bk) else None) as [[s b]|].
    + destruct (all_full gs (push_at g (place s) grs)).
      * intros [= <- <-]. apply push_at_length.
      * intros H. apply IH in H. now rewrite push_at_length in H.
    + destruct (all_full gs grs); [now intros [= <- <-] | apply IH].
Qed.

Lemma spread_size fuel gs n grs bucket g grs' b' :
  n = length grs -> g < n ->
  spread fuel gs n grs bucket g = Some (grs', b') ->
  size grs' + length b' = size grs + length bucket /\ length b' <= length bucket.
Proof.
  revert grs bucket g; induction fuel as [|fuel IH]; intros grs bucket g Hn Hg;
    destruct bucket as [|s0 bk]; cbn [spread]; try discriminate.
  - intros [= <- <-]. simpl; lia.
  - intros [= <- <-]. simpl; lia.
  - assert (Hg' : (g + 1) mod n < n) by (apply Nat.mod_upper_bound; lia).
    destruct (if has_room gs (nth g grs []) then pop (s0 :: bk) else None)
      as [[s b]|] eqn:E.
    + destruct (has_room gs (nth g grs [])); [|discriminate].
      apply pop_some in E.
      assert (El : length (s0 :: bk) = S (length b))
        by (rewrite E, length_app; simpl; lia).
      assert (Hs : size (push_at g (place s) grs) = S (size grs))
        by (apply push_at_size; lia).
      destruct (all_full gs (push_at g (place s) grs)).
      * intros [= <- <-]. simpl in *. lia.
      * intros H. apply IH in H; [|now rewrite push_at_length|exact Hg'].
        simpl in *. lia.
    + destruct (all_full gs grs); [intros [= <- <-]; simpl; lia|].
      intros H. apply IH in H; auto.
Qed.

(** The [while] loop ends: from the index [g], a group with room is [d]
    positions ahead, and every visit of a group with room shortens the bucket. *)
Lemma spread_returns_from fuel gs n grs bucket g d :
  n = length grs -> g < n ->
  all_full gs grs = true \/ (d < n /\ has_room gs (nth ((g + d) mod n) grs []) = true) ->
  length bucket * n + d < fuel ->
  spread fuel gs n grs bucket g <> None.
Proof.
  revert grs bucket g d; induction fuel as [|fuel IH]; intros grs bucket g d Hn Hg Hd Hf;
    [lia|].
  destruct bucket as [|s0 bk]; cbn [spread]; [discriminate|].
  assert (Hg' : (g + 1) mod n < n) by (apply Nat.mod_upper_bound; lia).
  destruct (has_room gs (nth g grs [])) eqn:Hroom.
  - destruct (pop_nonempty (s0 :: bk)) as (s & b & Hpop); [discriminate|].
    rewrite Hpop.
    assert (El : length (s0 :: bk) = S (length b))
      by (rewrite (pop_some _ _ _ Hpop), length_app; simpl; lia).
    destruct (all_full gs (push_at g (place s) grs)) eqn:Hfull; [discriminate|].
    destruct (all_full_room _ _ Hfull) as (h & Hh & Hr).
    rewrite push_at_length in Hh.
    apply IH with (d := (h + n - (g + 1) mod n) mod n).
    + now rewrite push_at_length.
    + exact Hg'.
    + right. split; [apply Nat.mod_upper_bound; lia|].
      rewrite Nat.Div0.add_mod_idemp_r.
      replace ((g + 1) mod n + (h + n - (g + 1) mod n)) with (h + 1 * n) by lia.
      rewrite Nat.Div0.mod_add, Nat.mod_small by lia. exact Hr.
    + assert ((h + n - (g + 1) mod n) mod n < n) by (apply Nat.mod_upper_bound; lia).
      cbn [length] in El, Hf. nia.
  - destruct Hd as [Hfull|[Hd Hr]].
    + rewrite Hfull. discriminate.
    + rewrite (room_not_all_full gs grs ((g + d) mod n)); auto;
        [|rewrite <- Hn; apply Nat.mod_upper_bound; lia].
      destruct d as [|d].
      { rewrite Nat.add_0_r, Nat.mod_small in Hr by lia. congruence. }
      apply IH with (d := d); auto.
      * right. split; [lia|].
        rewrite Nat.Div0.add_mod_idemp_l.
        now replace (g + 1 + d) with (g + S d) by lia.
      * cbn [length] in *. lia.
Qed.

Lemma spread_returns gs n grs bucket :
  n = length grs -> 0 < n -> spread (spread_fuel n bucket) gs n grs bucket 0 <> None.
Proof.
  intros Hn Hpos. unfold spread_fuel.
  destruct (all_full gs grs) eqn:E.
  - apply spread_returns_from with (d := 0); auto. lia.
  - destruct (all_full_room _ _ E) as (h & Hh & Hr).
    apply spread_returns_from with (d := h); auto; [|lia].
    right. split; [lia|]. simpl. rewrite Nat.mod_small by lia. exact Hr.
Qed.

Lemma assign_shortage_facts gs n ps grs m grs' m' :
  n = length grs -> 0 < n ->
  assign_shortage gs n ps grs m = Some (grs', m') ->
  length grs' = length grs
  /\ map fst m' = map fst m
  /\ size grs' + pm_total m' = size grs + pm_total m.
Proof.
  revert grs m; induction ps as [|p ps IH]; intros grs m Hn Hpos; cbn [assign_shortage].
  - intros [= <- <-]. auto.
  - destruct (spread (spread_fuel n (pm_get p m)) gs n grs (pm_get p m) 0)
      as [[grs1 b]|] eqn:E; [|discriminate].
    intros H.
    pose proof (spread_length _ _ _ _ _ _ _ _ E) as Hl.
    destruct (spread_size _ _ _ _ _ _ _ _ Hn Hpos E) as [Hs Hb].
    apply IH in H; [|congruence|exact Hpos].
    destruct H as (H1 & H2 & H3).
    rewrite pm_set_keys in H2.
    pose proof (pm_total_set p b m Hb).
    repeat split; [congruence | exact H2 | lia].
Qed.

Lemma assign_shortage_returns gs n ps grs m :
  n = length grs -> 0 < n -> assign_shortage gs n ps grs m <> None.
Proof.
  revert grs m; induction ps as [|p ps IH]; intros grs m Hn Hpos; cbn [assign_shortage];
    [discriminate|].
  destruct (spread (spread_fuel n (pm_get p m)) gs n grs (pm_get p m) 0)
    as [[grs1 b]|] eqn:E.
  - apply IH; [|exact Hpos]. apply spread_length in E. congruence.
  - now apply spread_returns in E.
Qed.


Lemma push_first_length gs x grs : length (push_first gs x grs) = length grs.
Proof.
  induction grs as [|gr r IH]; simpl; [reflexivity|].
  destruct (has_room gs gr); simpl; [reflexivity | now rewrite IH].
Qed.

Lemma push_first_size gs x grs :
  all_full gs grs = false -> size (push_first gs x grs) = S (size grs).
Proof.
  unfold all_full. induction grs as [|gr r IH]; simpl; [discriminate|].
  destruct (has_room gs gr); simpl; intros H.
  - apply size_app_one.
  - rewrite !size_cons, IH by exact H. lia.
Qed.


(** Every remaining student is placed when the groups can hold them all. *)
Lemma distribute_rest_size gs grs rest :
  (Z.of_nat (size grs + length rest) <= Z.of_nat (length grs) * gs)%Z ->
  size (distribute_rest gs grs rest) = size grs + length rest.
Proof.
  revert grs; induction rest as [|s rest IH]; intros grs Hcap; simpl; [lia|].
  pose proof (sort_by_length_perm grs) as Hp.
  pose proof (size_perm _ _ Hp) as Hsz.
  pose proof (Permutation_length Hp) as Hlen.
  destruct (all_full gs (sort_by_length grs)) eqn:E.
  - apply all_full_size in E. simpl in Hcap. lia.
  - pose proof (push_first_size gs (place s) _ E) as Hs.
    pose proof (push_first_length gs (place s) (sort_by_length grs)) as Hl.
    destruct (all_full gs (push_first gs (place s) (sort_by_length grs))) eqn:E'.
    + apply all_full_size in E'. simpl in Hcap. lia.
    + rewrite IH; [lia|]. simpl in Hcap. lia.
Qed.

(** A property of single groups that survives a guarded [push] of a freshly
    placed student survives every phase. *)
Section GroupInvariant.
Variable gs : Z.
Variable Q : list member -> Prop.
Hypothesis Q_push :
  forall gr s, Q gr -> has_room gs gr = true -> Q (gr ++ [place s]).

Lemma one_per_group_keeps grs bucket :
  Forall Q grs -> Forall Q (fst (one_per_group gs grs bucket)).
Proof.
  revert bucket; induction grs as [|gr r IH]; intros bucket H; simpl; [constructor|].
  inversion_clear H as [|? ? Hgr Hr].
  destruct (has_room gs gr) eqn:E.
  - destruct (pop bucket) as [[s b]|].
    + specialize (IH b Hr). destruct (one_per_group gs r b); simpl in *.
      constructor; auto.
    + specialize (IH bucket Hr). destruct (one_per_group gs r bucket); simpl in *.
      constructor; auto.
  - specialize (IH bucket Hr). destruct (one_per_group gs r bucket); simpl in *.
    constructor; auto.
Qed.

Lemma assign_enough_keeps ps grs m :
  Forall Q grs -> Forall Q (fst (assign_enough gs ps grs m)).
Proof.
  revert grs m; induction ps as [|p ps IH]; intros grs m H; simpl; [exact H|].
  pose proof (one_per_group_keeps grs (pm_get p m) H) as H'.
  destruct (one_per_group gs grs (pm_get p m)); simpl in H'. now apply IH.
Qed.

Lemma push_at_keeps g s grs :
  Forall Q grs -> has_room gs (nth g grs []) = true -> Forall Q (push_at g (place s) grs).
Proof.
  revert g; induction grs as [|gr r IH]; intros [|g] H Hr; simpl; try constructor;
    inversion_clear H; auto.
Qed.

Lemma spread_keeps fuel n grs bucket g grs' b' :
  Forall Q grs -> spread fuel gs n grs bucket g = Some (grs', b') -> Forall Q grs'.
Proof.
  revert grs bucket g; induction fuel as [|fuel IH]; intros grs bucket g HQ;
    destruct bucket as [|s0 bk]; cbn [spread]; try discriminate.
  - now intros [= <- <-].
  - now intros [= <- <-].
  - destruct (has_room gs (nth g grs [])) eqn:Hr.
    + destruct (pop (s0 :: bk)) as [[s b]|].
      * pose proof (push_at_keeps g s grs HQ Hr) as HQ'.
        destruct (all_full gs _); [now intros [= <- <-] | now apply IH].
      * destruct (all_full gs grs); [now intros [= <- <-] | now apply IH].
    + destruct (all_full gs grs); [now intros [= <- <-] | now apply IH].
Qed.

Lemma assign_shortage_keeps n ps grs m grs' m' :
  Forall Q grs -> assign_shortage gs n ps grs m = Some (grs', m') -> Forall Q grs'.
Proof.
  revert grs m; induction ps as [|p ps IH]; intros grs m HQ; cbn [assign_shortage].
  - now intros [= <- <-].
  - destruct (spread _ gs n grs (pm_get p m) 0) as [[grs1 b]|] eqn:E; [|discriminate].
    apply IH. eapply spread_keeps; eassumption.
Qed.

Lemma push_first_keeps s grs : Forall Q grs -> Forall Q (push_first gs (place s) grs).
Proof.
  induction 1 as [|gr r Hgr Hr IH]; simpl; [constructor|].
  destruct (has_room gs gr) eqn:E; constructor; auto.
Qed.

Lemma distribute_rest_keeps grs rest :
  Forall Q grs -> Forall Q (distribute_rest gs grs rest).
Proof.
  revert grs; induction rest as [|s rest IH]; intros grs HQ; simpl; [exact HQ|].
  assert (H : Forall Q (push_first gs (place s) (sort_by_length grs))).
  { apply push_first_keeps.
    eapply Permutation_Forall; [|exact HQ].
    symmetry. apply sort_by_length_perm. }
  destruct (all_full gs _); [exact H | now apply IH].
Qed.
End GroupInvariant.

(** ** [groupStudents] as a whole *)

Lemma ceil_div_capacity total gs :
  (0 < gs)%Z -> (Z.of_nat total <= Z.of_nat (ceil_div total gs) * gs)%Z.
Proof.
  intros Hgs. unfold ceil_div.
  rewrite Z2Nat.id by (apply Z.div_pos; lia).
  pose proof (Z.mod_pos_bound (Z.of_nat total + gs - 1) gs Hgs).
  pose proof (Z.div_mod (Z.of_nat total + gs - 1) gs). nia.
Qed.

Lemma ceil_div_pos total gs : (0 < gs)%Z -> 0 < total -> 0 < ceil_div total gs.
Proof.
  intros Hgs Ht. pose proof (ceil_div_capacity total gs Hgs). nia.
Qed.

Lemma mapi_from_students progs i grs :
  map students (mapi_from (with_warnings progs) i grs) = grs.
Proof.
  revert i; induction grs as [|gr r IH]; intros i; simpl; [reflexivity|].
  now rewrite IH.
Qed.

Lemma placed_size grs : placed grs = size (map students grs).
Proof. unfold placed, size. now rewrite map_map. Qed.

Lemma shuffle_buckets_facts ps m r :
  map fst (fst (shuffle_buckets ps m r)) = map fst m
  /\ forall q, Permutation (pm_get q (fst (shuffle_buckets ps m r))) (pm_get q m).
Proof.
  revert m r; induction ps as [|p ps IH]; intros m r; simpl; [auto|].
  pose proof (shuffleInPlace_perm (pm_get p m) r) as Hp.
  destruct (shuffleInPlace (pm_get p m) r) as [b r']; simpl in Hp.
  destruct (IH (pm_set p b m) r') as [H1 H2]. split.
  - now rewrite H1, pm_set_keys.
  - intros q. rewrite H2. now apply pm_get_set_perm.
Qed.

Lemma pm_total_perm m m' :
  map fst m' = map fst m -> NoDup (map fst m) ->
  (forall q, length (pm_get q m') = length (pm_get q m)) ->
  pm_total m' = pm_total m.
Proof.
  intros Hk Hnd Hlen. unfold pm_total.
  rewrite <- (remaining_keys m Hnd), <- (remaining_keys m') by now rewrite Hk.
  rewrite Hk. unfold remaining. rewrite !flat_map_concat_map, !length_concat, !map_map.
  f_equal. apply map_ext. intros a. apply Hlen.
Qed.

(** [groupStudents] returns for every non-empty input and positive size. *)
Lemma groupStudents_run world studs gs seed :
  studs <> [] -> (0 < gs)%Z ->
  exists x, run_of world studs gs seed x
            /\ groupStudents world studs gs seed = Some (Ok (partition_of gs x)).
Proof.
  intros Hne Hgs. unfold groupStudents.
  destruct (gs <=? 0)%Z eqn:E; [apply Z.leb_le in E; lia|].
  destruct (length studs =? 0)%nat eqn:E0.
  { apply Nat.eqb_eq, length_zero_iff_nil in E0. contradiction. }
  apply Nat.eqb_neq in E0.
  set (progs := sort_strings (map fst (build_programMap studs))).
  set (n := ceil_div (length studs) gs).
  destruct (shuffle_buckets progs (build_programMap studs) (make_rng world seed))
    as [m1 r1] eqn:E1.
  destruct (assign_enough gs _ (repeat [] n) m1) as [grs1 m2] eqn:E2.
  assert (Hl1 : length grs1 = n).
  { pose proof (assign_enough_length gs
      (filter (fun p => (n <=? length (pm_get p m1))%nat) progs) (repeat [] n) m1) as H.
    rewrite E2 in H. simpl in H. now rewrite repeat_length in H. }
  assert (Hn : 0 < n) by (apply ceil_div_pos; lia).
  destruct (assign_shortage gs n _ grs1 m2) as [[grs2 m3]|] eqn:E3.
  - destruct (shuffleInPlace (remaining progs m3) r1) as [rest r2] eqn:E4.
    exists (mkRun progs n m1 r1 grs1 m2 grs2 m3 rest).
    split; [|reflexivity].
    unfold run_of; simpl. rewrite E4. repeat split; auto.
  - exfalso. revert E3. apply assign_shortage_returns; [now rewrite Hl1 | exact Hn].
Qed.

Lemma size_repeat_nil n : size (repeat [] n) = 0.
Proof. induction n as [|n IH]; [reflexivity|]. simpl. now rewrite size_cons, IH. Qed.

Lemma Forall_repeat {A : Type} (P : A -> Prop) x n : P x -> Forall P (repeat x n).
Proof. intros H. induction n; simpl; constructor; auto. Qed.

Lemma run_progs world studs gs seed x :
  run_of world studs gs seed x ->
  NoDup (r_progs x) /\ Permutation (r_progs x) (map fst (build_programMap studs))
  /\ forall c, In c (r_progs x) <-> In c (map program studs).
Proof.
  intros (Hp & _). rewrite Hp.
  pose proof (sort_strings_perm (map fst (build_programMap studs))) as Hperm.
  pose proof (build_programMap_nodup studs) as Hnd.
  repeat split.
  - eapply Permutation_NoDup; [symmetry; exact Hperm | exact Hnd].
  - exact Hperm.
  - intros H. apply build_programMap_keys. eapply Permutation_in; eassumption.
  - intros H. apply build_programMap_keys in H.
    eapply Permutation_in; [symmetry; exact Hperm | exact H].
Qed.

(** A property of groups that holds of the empty group and survives guarded
    pushes holds of every group handed to the final [map]. *)
Lemma run_keeps (Q : list member -> Prop) world studs gs seed x :
  Q [] ->
  (forall gr s, Q gr -> has_room gs gr = true -> Q (gr ++ [place s])) ->
  run_of world studs gs seed x ->
  Forall Q (distribute_rest gs (r_groups2 x) (r_rest x)).
Proof.
  intros Q0 Qp (_ & _ & _ & H2 & H3 & _).
  apply distribute_rest_keeps; [exact Qp|].
  eapply assign_shortage_keeps; [exact Qp| |exact H3].
  pose proof (assign_enough_keeps gs Q Qp
    (filter (fun p => (r_n x <=? length (pm_get p (r_map1 x)))%nat) (r_progs x))
    (repeat [] (r_n x)) (r_map1 x) (Forall_repeat Q [] (r_n x) Q0)) as H.
  now rewrite H2 in H.
Qed.

(** Nothing is lost between the input and the final groups. *)
Lemma run_conservation world studs gs seed x :
  studs <> [] -> (0 < gs)%Z ->
  run_of world studs gs seed x ->
  size (distribute_rest gs (r_groups2 x) (r_rest x)) = length studs.
Proof.
  intros Hne Hgs Hrun.
  destruct (run_progs _ _ _ _ _ Hrun) as (Hnd & Hperm & _).
  destruct Hrun as (Hp & Hn & H1 & H2 & H3 & H4).
  pose proof (build_programMap_nodup studs) as Hnd0.
  pose proof (shuffle_buckets_facts (r_progs x) (build_programMap studs)
                (make_rng world seed)) as [Hk1 Hg1].
  rewrite H1 in Hk1, Hg1; simpl in Hk1, Hg1.
  assert (Ht1 : pm_total (r_map1 x) = length studs).
  { rewrite <- (build_programMap_total studs).
    apply pm_total_perm; auto. intros q. apply Permutation_length, Hg1. }
  pose proof (assign_enough_size gs
    (filter (fun p => (r_n x <=? length (pm_get p (r_map1 x)))%nat) (r_progs x))
    (repeat [] (r_n x)) (r_map1 x)) as Hs2.
  pose proof (assign_enough_length gs
    (filter (fun p => (r_n x <=? length (pm_get p (r_map1 x)))%nat) (r_progs x))
    (repeat [] (r_n x)) (r_map1 x)) as Hl2.
  pose proof (assign_enough_keys gs
    (filter (fun p => (r_n x <=? length (pm_get p (r_map1 x)))%nat) (r_progs x))
    (repeat [] (r_n x)) (r_map1 x)) as Hk2.
  rewrite H2 in Hs2, Hl2, Hk2; simpl in Hs2, Hl2, Hk2.
  rewrite size_repeat_nil in Hs2. rewrite repeat_length in Hl2.
  assert (Hpos : 0 < r_n x).
  { rewrite Hn. apply ceil_div_pos; [exact Hgs|].
    destruct studs; [contradiction | simpl; lia]. }
  destruct (assign_shortage_facts _ _ _ _ _ _ _ (eq_sym Hl2) Hpos H3) as (Hl3 & Hk3 & Hs3).
  assert (Hrest : length (r_rest x) = pm_total (r_map3 x)).
  { rewrite H4.
    rewrite (Permutation_length (shuffleInPlace_perm _ _)).
    apply remaining_total.
    - now rewrite Hk3, Hk2, Hk1.
    - now rewrite Hk3, Hk2, Hk1. }
  rewrite distribute_rest_size; [lia|].
  rewrite Hl3, Hl2, Hn.
  pose proof (ceil_div_capacity (length studs) gs Hgs). lia.
Qed.

Lemma has_program_In studs c :
  has_program studs c = true <-> In c (map (fun s => program (who s)) studs).
Proof.
  unfold has_program. rewrite existsb_exists, in_map_iff. split.
  - intros (s & Hs & E). apply String.eqb_eq in E. eauto.
  - intros (s & E & Hs). exists s. split; [exact Hs | now apply String.eqb_eq].
Qed.


Lemma with_warnings_missing progs i studs c :
  In c (missing_of (with_warnings progs i studs))
  <-> In c progs /\ ~ In c (map (fun s => program (who s)) studs).
Proof.
  unfold missing_of, with_warnings; simpl.
  assert (H : In c (filter (fun p => negb (has_program studs p)) progs)
              <-> In c progs /\ ~ In c (map (fun s => program (who s)) studs)).
  { rewrite filter_In, negb_true_iff, <- has_program_In.
    destruct (has_program studs c); intuition congruence. }
  destruct (filter (fun p => negb (has_program studs p)) progs) eqn:E;
    [|exact H].
  simpl in *. exact H.
Qed.


Lemma mapi_from_In {A B : Type} (f : nat -> A -> B) i l y :
  In y (mapi_from f i l) -> exists j x, In x l /\ y = f j x.
Proof.
  revert i; induction l as [|a r IH]; intros i; simpl; [intros []|].
  intros [<-|H].
  - exists i, a. auto.
  - destruct (IH _ H) as (j & x & Hx & ->). exists j, x. auto.
Qed.

Lemma Forall_students (Q : list member -> Prop) progs grs :
  Forall Q grs -> Forall (fun g => Q (students g)) (mapi (with_warnings progs) grs).
Proof.
  intros H. apply Forall_forall. intros g Hg.
  apply mapi_from_In in Hg as (j & gr & Hgr & ->). simpl.
  rewrite Forall_forall in H. now apply H.
Qed.

(** ** Coverage when every program has enough students *)









(** ** The queues of [reshuffleRespectingLocksToGroupSize] *)

Lemma q_push_total s q : q_total (q_push s q) = S (q_total q).
Proof.
  unfold q_total. induction q as [|[k v] r IH]; simpl; [reflexivity|].
  destruct (String.eqb k (program (who s))); simpl; rewrite !length_app in *; simpl; lia.
Qed.

Lemma q_push_keys s q k :
  In k (map fst (q_push s q)) <-> k = program (who s) \/ In k (map fst q).
Proof.
  induction q as [|[k' v] r IH]; simpl.
  - intuition.
  - destruct (String.eqb k' (program (who s))) eqn:E; simpl.
    + apply String.eqb_eq in E; subst. intuition.
    + rewrite IH. intuition.
Qed.

Lemma q_push_nodup s q : NoDup (map fst q) -> NoDup (map fst (q_push s q)).
Proof.
  induction q as [|[k v] r IH]; simpl; intros H.
  - constructor; [intros []|constructor].
  - destruct (String.eqb k (program (who s))) eqn:E; simpl; [exact H|].
    inversion_clear H as [|? ? Hk Hr]. constructor; [|now apply IH].
    rewrite q_push_keys. intros [->|Hin]; [|contradiction].
    now rewrite String.eqb_refl in E.
Qed.

Lemma q_build_facts pool q :
  NoDup (map fst q) ->
  NoDup (map fst (fold_left (fun q s => q_push s q) pool q))
  /\ q_total (fold_left (fun q s => q_push s q) pool q) = length pool + q_total q.
Proof.
  revert q; induction pool as [|s r IH]; intros q H; simpl; [auto|].
  destruct (IH (q_push s q) (q_push_nodup s q H)) as [H1 H2].
  split; [exact H1|]. rewrite H2, q_push_total. lia.
Qed.

Lemma q_set_keys p b q : map fst (q_set p b q) = map fst q.
Proof.
  induction q as [|[k v] r IH]; simpl; [reflexivity|].
  destruct (String.eqb k p); simpl; [reflexivity | now rewrite IH].
Qed.

Lemma q_set_total p b v q :
  q_get p q = Some v -> q_total (q_set p b q) + length v = q_total q + length b.
Proof.
  unfold q_total. induction q as [|[k w] r IH]; simpl; [discriminate|].
  destruct (String.eqb k p); simpl; rewrite !length_app.
  - intros [= ->]. lia.
  - intros H. specialize (IH H). lia.
Qed.

Lemma q_keys_flat q :
  NoDup (map fst q) ->
  flat_map (fun p => match q_get p q with Some b => b | None => [] end) (map fst q)
  = flat_map snd q.
Proof.
  induction q as [|[k v] r IH]; simpl; [reflexivity|].
  intros H. inversion_clear H as [|? ? Hk Hr].
  rewrite String.eqb_refl. f_equal.
  rewrite <- (IH Hr). apply flat_map_agree.
  intros p Hp. destruct (String.eqb k p) eqn:E; [|reflexivity].
  apply String.eqb_eq in E; subst. contradiction.
Qed.

Lemma filter_split_perm {A : Type} (f : A -> bool) l :
  Permutation (filter f l ++ filter (fun x => negb (f x)) l) l.
Proof.
  induction l as [|a r IH]; simpl; [reflexivity|].
  destruct (f a); simpl.
  - now constructor.
  - etransitivity; [symmetry; apply Permutation_middle | now constructor].
Qed.

Lemma insert_index_perm x l : Permutation (insert_index x l) (x :: l).
Proof.
  induction l as [|y r IH]; simpl; [reflexivity|].
  destruct (fst x <=? fst y)%N; [reflexivity|].
  rewrite IH. apply perm_swap.
Qed.

Lemma object_keys_perm q : Permutation (object_keys q) (map fst q).
Proof.
  unfold object_keys. set (ks := map fst q).
  set (isidx := fun k => match array_index k with Some _ => true | None => false end).
  assert (H1 : Permutation
                 (map snd (fold_right insert_index []
                    (flat_map (fun k => match array_index k with
                                        | Some v => [(v, k)]
                                        | None => []
                                        end) ks)))
                 (filter isidx ks)).
  { etransitivity.
    - apply Permutation_map.
      instantiate (1 := flat_map (fun k => match array_index k with
                                           | Some v => [(v, k)]
                                           | None => []
                                           end) ks).
      generalize (flat_map (fun k => match array_index k with
                                     | Some v => [(v, k)]
                                     | None => []
                                     end) ks).
      intros l; induction l as [|x r IH]; simpl; [reflexivity|].
      rewrite insert_index_perm. now constructor.
    - clear. induction ks as [|k r IH]; simpl; [reflexivity|].
      unfold isidx at 1. destruct (array_index k); simpl; [now constructor | exact IH]. }
  etransitivity; [|apply (filter_split_perm isidx ks)].
  apply Permutation_app; [exact H1|].
  erewrite filter_ext; [reflexivity|].
  intros k. unfold isidx. now destruct (array_index k).
Qed.

Lemma leftover_total q : NoDup (map fst q) -> length (leftover_of q) = q_total q.
Proof.
  intros Hnd. unfold leftover_of, q_total. rewrite <- (q_keys_flat q Hnd).
  apply Permutation_length, flat_map_perm, object_keys_perm.
Qed.

Lemma shuffle_queues_facts ps q r :
  map fst (fst (shuffle_queues ps q r)) = map fst q
  /\ q_total (fst (shuffle_queues ps q r)) = q_total q.
Proof.
  revert q r; induction ps as [|p ps IH]; intros q r; simpl; [auto|].
  destruct (q_get p q) as [b|] eqn:E; [|apply IH].
  pose proof (shuffleInPlace_perm b r) as Hp.
  destruct (shuffleInPlace b r) as [b' r']; simpl in Hp.
  destruct (IH (q_set p b' q) r') as [H1 H2].
  rewrite H1, H2, q_set_keys. split; [reflexivity|].
  pose proof (q_set_total p b' b q E). apply Permutation_length in Hp. lia.
Qed.

(** Filling and placing: sizes, and the locked members of every group. *)
Lemma filter_locked_push gr (s : member) :
  filter locked (gr ++ [{| who := who s; locked := false |}]) = filter locked gr.
Proof. rewrite filter_app. simpl. apply app_nil_r. Qed.

Lemma fill_group_facts gs missing gr q :
  length (fst (fill_group gs missing gr q)) + q_total (snd (fill_group gs missing gr q))
  = length gr + q_total q
  /\ map fst (snd (fill_group gs missing gr q)) = map fst q
  /\ filter locked (fst (fill_group gs missing gr q)) = filter locked gr.
Proof.
  revert gr q; induction missing as [|p rest IH]; intros gr q; cbn [fill_group]; [auto|].
  destruct (negb (has_room gs gr)); [auto|].
  destruct (q_get p q) as [b|] eqn:E; [|apply IH].
  destruct (pop b) as [[s b']|] eqn:Ep; [|apply IH].
  destruct (IH (gr ++ [{| who := who s; locked := false |}]) (q_set p b' q))
    as (H1 & H2 & H3).
  rewrite H1, H2, H3, q_set_keys, filter_locked_push, length_app.
  pose proof (q_set_total p b' b q E). apply pop_some in Ep.
  subst b. rewrite length_app in H. simpl in *. repeat split; lia.
Qed.

Lemma fill_missing_facts gs enough res q :
  size (fst (fill_missing gs enough res q)) + q_total (snd (fill_missing gs enough res q))
  = size res + q_total q
  /\ map fst (snd (fill_missing gs enough res q)) = map fst q
  /\ map (filter locked) (fst (fill_missing gs enough res q)) = map (filter locked) res
  /\ length (fst (fill_missing gs enough res q)) = length res.
Proof.
  revert q; induction res as [|gr rest IH]; intros q; cbn [fill_missing]; [auto|].
  pose proof (fill_group_facts gs (filter (fun p => negb (has_program gr p)) enough) gr q)
    as (H1 & H2 & H3).
  destruct (fill_group gs _ gr q) as [gr' q']; simpl in H1, H2, H3.
  destruct (IH q') as (I1 & I2 & I3 & I4).
  destruct (fill_missing gs enough rest q') as [rest' q'']; simpl in *.
  rewrite !size_cons, I2, H2, H3, I3, I4. repeat split; lia.
Qed.

Lemma push_at_locked g (s : member) res :
  map (filter locked) (push_at g {| who := who s; locked := false |} res)
  = map (filter locked) res.
Proof.
  revert g; induction res as [|gr r IH]; intros [|g]; simpl; auto.
  - now rewrite filter_locked_push.
  - now rewrite IH.
Qed.

Lemma first_with_room_some gs order res idx :
  first_with_room gs order res = Some idx -> In idx order.
Proof.
  induction order as [|i r IH]; simpl; [discriminate|].
  destruct (has_room gs (nth i res [])); [intros [= ->]; now left | auto].
Qed.

Lemma first_with_room_none gs order res :
  first_with_room gs order res = None ->
  (forall i, i < length res -> In i order) -> all_full gs res = true.
Proof.
  intros Hnone Hall.
  destruct (all_full gs res) eqn:E; [reflexivity|].
  destruct (all_full_room _ _ E) as (h & Hh & Hr).
  specialize (Hall h Hh). exfalso.
  induction order as [|i r IH]; simpl in *; [contradiction|].
  destruct (has_room gs (nth i res [])) eqn:Ei; [discriminate|].
  destruct Hall as [->|Hin]; [congruence | auto].
Qed.

Lemma place_leftover_facts gs order res leftover :
  map (filter locked) (place_leftover gs order res leftover) = map (filter locked) res
  /\ length (place_leftover gs order res leftover) = length res.
Proof.
  revert res; induction leftover as [|s rest IH]; intros res; simpl; [auto|].
  destruct (first_with_room gs order res) as [idx|]; [|auto].
  destruct (IH (push_at idx {| who := who s; locked := false |} res)) as [H1 H2].
  now rewrite H1, H2, push_at_locked, push_at_length.
Qed.

Lemma place_leftover_size gs order res leftover :
  (forall i, In i order <-> i < length res) ->
  (Z.of_nat (size res + length leftover) <= Z.of_nat (length res) * gs)%Z ->
  size (place_leftover gs order res leftover) = size res + length leftover.
Proof.
  intros Hord. revert res Hord; induction leftover as [|s rest IH]; intros res Hord Hcap;
    simpl; [lia|].
  destruct (first_with_room gs order res) as [idx|] eqn:E.
  - apply first_with_room_some, Hord in E.
    rewrite IH.
    + rewrite push_at_size by exact E. lia.
    + intros i. now rewrite push_at_length.
    + rewrite push_at_length, push_at_size by exact E. simpl in Hcap. lia.
  - apply first_with_room_none in E; [|intros i Hi; now apply Hord].
    apply all_full_size in E. simpl in Hcap. lia.
Qed.

Lemma insert_order_perm res x l : Permutation (insert_order res x l) (x :: l).
Proof.
  induction l as [|y r IH]; simpl; [reflexivity|].
  destruct (order_le res x y); [reflexivity|].
  rewrite IH. apply perm_swap.
Qed.

Lemma targetOrder_of_In res i : In i (targetOrder_of res) <-> i < length res.
Proof.
  assert (H : Permutation (targetOrder_of res) (seq 0 (length res))).
  { unfold targetOrder_of. generalize (seq 0 (length res)).
    intros l; induction l as [|x r IH]; simpl; [reflexivity|].
    rewrite insert_order_perm. now constructor. }
  split; intros Hi.
  - apply (Permutation_in _ H), in_seq in Hi. lia.
  - apply (Permutation_in _ (Permutation_sym H)), in_seq. lia.
Qed.

(** ** [reshuffleRespectingLocksToGroupSize] as a whole *)

Lemma size_app a b : size (a ++ b) = size a + size b.
Proof.
  unfold size. rewrite map_app, list_sum_app. reflexivity.
Qed.

Lemma filter_locked_locked_of g : filter locked (locked_of g) = locked_of g.
Proof.
  unfold locked_of. induction (filter locked (students g)) as [|s r IH]; simpl;
    [reflexivity | now rewrite IH].
Qed.

Lemma lockedGroups_of_locked grs :
  map (filter locked) (lockedGroups_of grs) = lockedGroups_of grs.
Proof.
  unfold lockedGroups_of. induction grs as [|g r IH]; simpl; [reflexivity|].
  destruct (negb (length (locked_of g) =? 0)%nat); simpl; [|exact IH].
  now rewrite IH, filter_locked_locked_of.
Qed.

Lemma repeat_nil_locked k : map (filter locked) (repeat [] k) = repeat [] k.
Proof. induction k as [|k IH]; simpl; [reflexivity | now rewrite IH]. Qed.

Lemma lockedGroups_of_size grs :
  size (lockedGroups_of grs) = length (filter locked (flat_map students grs)).
Proof.
  unfold lockedGroups_of. induction grs as [|g r IH]; simpl; [reflexivity|].
  rewrite filter_app, length_app, <- IH.
  assert (Hl : length (locked_of g) = length (filter locked (students g)))
    by (unfold locked_of; apply length_map).
  destruct (length (locked_of g) =? 0)%nat eqn:E; simpl.
  - apply Nat.eqb_eq in E. lia.
  - rewrite size_cons. lia.
Qed.

Lemma locked_unlocked_total grs :
  size (lockedGroups_of grs) + length (unlocked_of grs) = length (flat_map students grs).
Proof.
  rewrite lockedGroups_of_size. unfold unlocked_of. rewrite length_map.
  rewrite <- length_app. apply Permutation_length, filter_split_perm.
Qed.

(** What a returned array of groups is made of. *)
Lemma reshuffle_shape world prev progs gs seed res :
  reshuffleRespectingLocksToGroupSize world prev progs gs seed = Ok res ->
  (flat_map students prev = [] /\ res = [])
  \/ exists target res2,
       length (lockedGroups_of prev) <= target
       /\ res = mapi (with_warnings progs) res2
       /\ map (filter locked) res2
          = lockedGroups_of prev ++ repeat [] (target - length (lockedGroups_of prev))
       /\ ((0 < gs)%Z -> size res2 = length (flat_map students prev)).
Proof.
  unfold reshuffleRespectingLocksToGroupSize.
  destruct (target_groups (length (flat_map students prev)) gs) as [[target|]|msg] eqn:Et;
    [| |discriminate].
  2:{ intros [= <-]. left. split; [|reflexivity].
      unfold target_groups in Et.
      destruct (0 <? gs)%Z; [discriminate|]. destruct (gs <? 0)%Z; [discriminate|].
      destruct (length (flat_map students prev) =? 0)%nat eqn:E0; [|discriminate].
      now apply Nat.eqb_eq, length_zero_iff_nil in E0. }
  destruct (target <? length (lockedGroups_of prev))%nat eqn:El; [discriminate|].
  apply Nat.ltb_ge in El.
  destruct (existsb (fun s => is_inherited (program (who s))) (unlocked_of prev));
    [discriminate|].
  set (q0 := fold_left (fun q s => q_push s q) (unlocked_of prev) []).
  destruct (shuffle_queues (object_keys q0) q0 (make_rng world seed)) as [q1 r1] eqn:E1.
  set (res0 := lockedGroups_of prev ++ repeat [] (target - length (lockedGroups_of prev))).
  destruct (fill_missing gs (filter (enough_for prev target) progs) res0 q1)
    as [res1 q2] eqn:E2.
  destruct (shuffleInPlace
              (flat_map (fun p => match q_get p q2 with Some b => b | None => [] end)
                        (object_keys q2)) r1) as [leftover r2] eqn:E3.
  intros [= <-]. right.
  exists target, (place_leftover gs (targetOrder_of res1) res1 leftover).
  pose proof (fill_missing_facts gs (filter (enough_for prev target) progs) res0 q1)
    as (F1 & F2 & F3 & F4).
  rewrite E2 in F1, F2, F3, F4; simpl in F1, F2, F3, F4.
  destruct (place_leftover_facts gs (targetOrder_of res1) res1 leftover) as [P1 P2].
  split; [exact El|]. split; [reflexivity|]. split.
  - rewrite P1, F3. unfold res0.
    now rewrite map_app, lockedGroups_of_locked, repeat_nil_locked.
  - intros Hgs.
    assert (Hq0 : NoDup (map fst q0) /\ q_total q0 = length (unlocked_of prev) + 0).
    { apply (q_build_facts (unlocked_of prev) []). constructor. }
    destruct Hq0 as [Hnd0 Ht0].
    pose proof (shuffle_queues_facts (object_keys q0) q0 (make_rng world seed)) as [S1 S2].
    rewrite E1 in S1, S2; simpl in S1, S2.
    assert (Hleft : length leftover = q_total q2).
    { pose proof (shuffleInPlace_perm (leftover_of q2) r1) as Hp.
      unfold leftover_of in Hp. rewrite E3 in Hp; simpl in Hp.
      rewrite (Permutation_length Hp). apply (leftover_total q2).
      now rewrite F2, S1. }
    assert (Hres0 : size res0 = size (lockedGroups_of prev) /\ length res0 = target).
    { unfold res0. rewrite size_app, size_repeat_nil, length_app, repeat_length. lia. }
    destruct Hres0 as [Hs0 Hl0].
    pose proof (locked_unlocked_total prev) as Htot.
    assert (Htarget : (Z.of_nat (length (flat_map students prev))
                       <= Z.of_nat target * gs)%Z).
    { unfold target_groups in Et. apply Z.ltb_lt in Hgs. rewrite Hgs in Et.
      injection Et as <-. apply Z.ltb_lt in Hgs.
      pose proof (ceil_div_capacity (length (flat_map students prev)) gs Hgs) as Hc.
      pose proof (Nat.le_max_r 1 (ceil_div (length (flat_map students prev)) gs)) as Hm.
      apply Nat2Z.inj_le in Hm.
      etransitivity; [exact Hc|]. apply Z.mul_le_mono_nonneg_r; [lia | exact Hm]. }
    rewrite place_leftover_size.
    + lia.
    + intros i. apply targetOrder_of_In.
    + rewrite F4, Hl0. lia.
Qed.

(** ** [lockedStayInPlace] *)

Lemma includes_In k l : includes k l = true <-> In k l.
Proof.
  unfold includes. rewrite existsb_exists. split.
  - intros (x & Hx & E). apply String.eqb_eq in E. now subst.
  - intros H. exists k. split; [exact H | apply String.eqb_refl].
Qed.

Lemma set_of_from_In k l acc : In k (fold_left add_key l acc) <-> In k acc \/ In k l.
Proof.
  revert acc; induction l as [|x r IH]; intros acc; simpl; [intuition|].
  rewrite IH. unfold add_key. destruct (includes x acc) eqn:E.
  - apply includes_In in E. intuition (subst; auto).
  - rewrite in_app_iff. simpl. intuition.
Qed.

Lemma set_of_In k l : In k (set_of l) <-> In k l.
Proof. unfold set_of. rewrite set_of_from_In. simpl. intuition. Qed.

Lemma set_of_empty l : (0 <? length (set_of l))%nat = negb (length l =? 0)%nat.
Proof.
  destruct l as [|x r]; [reflexivity|]. simpl negb.
  assert (H : In x (set_of (x :: r))) by (apply set_of_In; now left).
  destruct (set_of (x :: r)); [destruct H | reflexivity].
Qed.

Lemma k_get_binds k c set m :
  k_get k (fold_left (fun m k' => (k', c) :: m) set m)
  = if includes k set then Some c else k_get k m.
Proof.
  revert m; induction set as [|x r IH]; intros m; simpl; [reflexivity|].
  rewrite IH. unfold includes. simpl. rewrite (String.eqb_sym k x).
  destruct (existsb (String.eqb k) r); destruct (String.eqb x k); reflexivity.
Qed.

Lemma includes_set_of k l : includes k (set_of l) = includes k l.
Proof.
  destruct (includes k l) eqn:E.
  - apply includes_In, set_of_In, includes_In, E.
  - destruct (includes k (set_of l)) eqn:E'; [|reflexivity].
    apply (proj1 (includes_In _ _)), (proj1 (set_of_In _ _)) in E'.
    apply (proj2 (includes_In _ _)) in E'. congruence.
Qed.

Lemma add_cohort_untouched k st g :
  includes k (locked_keys g) = false -> k_get k (snd (add_cohort st g)) = k_get k (snd st).
Proof.
  intros H. destruct st as [cs m]. unfold add_cohort.
  destruct (0 <? length (set_of (locked_keys g)))%nat; [|reflexivity].
  simpl. now rewrite k_get_binds, includes_set_of, H.
Qed.

Lemma cohorts_untouched k rest st :
  forallb (fun ks => negb (includes k ks)) (map locked_keys rest) = true ->
  k_get k (snd (fold_left add_cohort rest st)) = k_get k (snd st).
Proof.
  revert st; induction rest as [|g r IH]; intros st; simpl; [reflexivity|].
  intros H. apply andb_prop in H as [H1 H2]. apply negb_true_iff in H1.
  rewrite IH by exact H2. now apply add_cohort_untouched.
Qed.

Lemma add_cohort_eq cs m g :
  add_cohort (cs, m) g
  = if negb (length (locked_keys g) =? 0)%nat
    then (cs ++ [set_of (locked_keys g)],
          fold_left (fun m0 k => (k, length cs) :: m0) (set_of (locked_keys g)) m)
    else (cs, m).
Proof. unfold add_cohort. now rewrite set_of_empty. Qed.

(** The cohorts and the map built from the previous groups. *)
Lemma cohorts_from prev : forall (cs : list (list string)) (m : kmap),
  apart (map locked_keys prev) = true ->
  fst (fold_left add_cohort prev (cs, m)) = cs ++ map set_of (cohort_keys prev)
  /\ forall i ks k, nth_error (cohort_keys prev) i = Some ks -> In k ks ->
       k_get k (snd (fold_left add_cohort prev (cs, m))) = Some (length cs + i).
Proof.
  induction prev as [|g r IH]; intros cs m Hap.
  - simpl. split; [now rewrite app_nil_r|]. intros [|i] ks k H; discriminate.
  - cbn [map apart] in Hap. apply andb_prop in Hap as [Hhead Hrest].
    cbn [fold_left]. rewrite add_cohort_eq.
    unfold cohort_keys; cbn [map filter]. fold (cohort_keys r).
    destruct (negb (length (locked_keys g) =? 0)%nat) eqn:E.
    + destruct (IH (cs ++ [set_of (locked_keys g)])
                   (fold_left (fun m0 k => (k, length cs) :: m0) (set_of (locked_keys g)) m)
                   Hrest) as [H1 H2].
      split.
      * etransitivity; [exact H1|]. now rewrite <- app_assoc.
      * intros [|i] ks k Hnth Hin.
        -- injection Hnth as <-.
           rewrite cohorts_untouched.
           ++ simpl. rewrite k_get_binds, includes_set_of.
              apply includes_In in Hin. rewrite Hin. f_equal. lia.
           ++ rewrite forallb_forall in Hhead. apply (Hhead k Hin).
        -- etransitivity; [exact (H2 i ks k Hnth Hin)|].
           rewrite length_app. simpl. f_equal. lia.
    + apply IH. exact Hrest.
Qed.

Lemma cohort_ids_same m i ks :
  (forall k, In k ks -> k_get k m = Some i) ->
  fold_left (fun acc k => match k_get k m with
                          | Some c => add_id acc c
                          | None => acc
                          end) ks [i] = [i].
Proof.
  induction ks as [|k r IH]; intros H; simpl; [reflexivity|].
  rewrite (H k) by now left. unfold add_id at 2. simpl. rewrite Nat.eqb_refl. simpl.
  apply IH. intros k' Hk'. apply H. now right.
Qed.

Lemma cohort_ids_one m i ks :
  ks <> [] -> (forall k, In k ks -> k_get k m = Some i) -> cohort_ids m ks = [i].
Proof.
  destruct ks as [|k r]; [contradiction|]. intros _ H.
  unfold cohort_ids. simpl. rewrite (H k) by now left.
  unfold add_id at 2. simpl.
  apply cohort_ids_same. intros k' Hk'. apply H. now right.
Qed.

Lemma check_next_no_locks cs m next sat :
  Forall (fun g => locked_keys g = []) next ->
  check_next cs m next sat = forallb (fun b => b) sat.
Proof.
  induction 1 as [|g r Hg Hr IH]; simpl; [reflexivity|].
  rewrite Hg. simpl. exact IH.
Qed.

Lemma set_nth_middle {A : Type} (a : list A) x y b :
  set_nth (length a) x (a ++ y :: b) = a ++ x :: b.
Proof. induction a as [|z a IH]; simpl; [reflexivity | now rewrite IH]. Qed.

Lemma forallb_true_app a (K : list (list string)) :
  Forall (fun b => b = true) a -> forallb (fun b => b) (a ++ map (fun _ => false) K)
                                  = match K with [] => true | _ :: _ => false end.
Proof.
  induction 1 as [|b a Hb Ha IH]; simpl.
  - destruct K; reflexivity.
  - now rewrite Hb, IH.
Qed.

(** The loop over the next groups, when their locked keys are the cohorts in
    order followed by groups without locked students. *)
Lemma check_next_cohorts K m k0 :
  Forall (fun ks => ks <> []) K ->
  (forall i ks k, nth_error K i = Some ks -> In k ks -> k_get k m = Some i) ->
  forall Ksuf Kpre next a,
    K = Kpre ++ Ksuf -> length a = length Kpre -> Forall (fun b => b = true) a ->
    map locked_keys next = Ksuf ++ repeat [] k0 ->
    check_next (map set_of K) m next (a ++ map (fun _ => false) Ksuf) = true.
Proof.
  intros Hne Hm. induction Ksuf as [|ks Ksuf IH]; intros Kpre next a HK Hla Ha Hnext.
  - simpl in Hnext. rewrite check_next_no_locks.
    + now rewrite forallb_true_app.
    + apply Forall_forall. intros g Hg.
      assert (Hin : In (locked_keys g) (map locked_keys next)) by now apply in_map.
      rewrite Hnext in Hin. now apply repeat_spec in Hin.
  - destruct next as [|g next]; [discriminate|].
    cbn [map app] in Hnext. injection Hnext as Hg Hnext.
    assert (Hnth : nth_error K (length Kpre) = Some ks).
    { rewrite HK, nth_error_app2, Nat.sub_diag by lia. reflexivity. }
    assert (Hks : ks <> []).
    { rewrite Forall_forall in Hne. apply Hne. rewrite HK. apply in_or_app. right. now left. }
    cbn [check_next]. rewrite Hg.
    rewrite (cohort_ids_one m (length Kpre) ks Hks) by (intros k Hk; now apply (Hm _ ks)).
    assert (Hcs : nth (length Kpre) (map set_of K) [] = set_of ks).
    { rewrite HK, map_app. cbn [map].
      rewrite <- (length_map set_of Kpre). apply nth_middle. }
    rewrite Hcs.
    assert (Hall : forallb (fun k => includes k ks) (set_of ks) = true).
    { apply forallb_forall. intros k Hk. apply includes_In, set_of_In, Hk. }
    rewrite Hall. cbn [map]. rewrite <- Hla.
    rewrite nth_middle, set_nth_middle.
    replace (a ++ true :: map (fun _ => false) Ksuf)
      with ((a ++ [true]) ++ map (fun _ => false) Ksuf) by (now rewrite <- app_assoc).
    apply (IH (Kpre ++ [ks])).
    + now rewrite <- app_assoc.
    + rewrite !length_app. simpl. lia.
    + apply Forall_app. split; [exact Ha | now constructor].
    + exact Hnext.
Qed.

Lemma cohort_keys_nonempty prev : Forall (fun ks => ks <> []) (cohort_keys prev).
Proof.
  apply Forall_forall. intros ks H. unfold cohort_keys in H.
  apply filter_In in H as [_ H]. intros ->. discriminate.
Qed.

Lemma map_key_locked_of g : map key (locked_of g) = locked_keys g.
Proof.
  unfold locked_of, locked_keys. rewrite map_map. reflexivity.
Qed.

Lemma lockedGroups_keys prev : map (map key) (lockedGroups_of prev) = cohort_keys prev.
Proof.
  unfold lockedGroups_of, cohort_keys. induction prev as [|g r IH]; simpl; [reflexivity|].
  rewrite <- (map_key_locked_of g), length_map.
  destruct (negb (length (locked_of g) =? 0)%nat); simpl; now rewrite IH.
Qed.

Lemma locked_keys_mapi progs i res2 :
  map locked_keys (mapi_from (with_warnings progs) i res2)
  = map (map key) (map (filter locked) res2).
Proof.
  revert i; induction res2 as [|gr r IH]; intros i; simpl; [reflexivity|].
  now rewrite IH.
Qed.

Lemma repeat_false_map (K : list (list string)) :
  repeat false (length K) = map (fun _ => false) K.
Proof. induction K as [|k r IH]; simpl; [reflexivity | now rewrite IH]. Qed.

Lemma no_locks_no_cohorts before st :
  (forall g, In g before -> locked_keys g = []) -> fold_left add_cohort before st = st.
Proof.
  revert st; induction before as [|g r IH]; intros st H; simpl; [reflexivity|].
  rewrite IH by (intros g' Hg'; apply H; now right).
  destruct st as [cs m]. unfold add_cohort. rewrite (H g) by now left. reflexivity.
Qed.

(** ** Cohorts in the returned groups *)

Lemma repeat_nil_keys k : map (map key) (repeat [] k) = repeat [] k.
Proof. induction k as [|k IH]; simpl; [reflexivity | now rewrite IH]. Qed.

Lemma no_students_no_keys prev g :
  flat_map students prev = [] -> In g prev -> locked_keys g = [].
Proof.
  intros Hnil Hg. unfold locked_keys.
  assert (E : students g = []).
  { induction prev as [|g0 r IH]; [destruct Hg|]. simpl in Hnil.
    apply app_eq_nil in Hnil as [H0 Hr]. destruct Hg as [->|Hg]; auto. }
  now rewrite E.
Qed.

Lemma mapi_from_has {A B : Type} (f : nat -> A -> B) i l x :
  In x l -> exists j, In (f j x) (mapi_from f i l).
Proof.
  revert i; induction l as [|a r IH]; intros i; simpl; [intros []|].
  intros [->|H].
  - exists i. now left.
  - destruct (IH (S i) H) as (j & Hj). exists j. now right.
Qed.


Lemma lockedGroups_of_has prev g :
  In g prev -> locked_of g <> [] -> In (locked_of g) (lockedGroups_of prev).
Proof.
  intros Hg Hne. unfold lockedGroups_of. apply filter_In. split; [now apply in_map|].
  destruct (locked_of g); [contradiction | reflexivity].
Qed.

Lemma filter_length_le {A : Type} (f : A -> bool) l : length (filter f l) <= length l.
Proof.
  induction l as [|a r IH]; simpl; [lia|]. destruct (f a); simpl; lia.
Qed.

(** ** Scenarios *)

(** Six students of three programs, group size 3, seed 1: two groups of three,
    each with one student of every program. *)
Example six_students_seed_1 :
  exists p, groupStudents zeros six_students 3 (Some 1%Z) = Some (Ok p)
            /\ numGroups p = 2
            /\ map (fun g => map (fun s => name (who s)) (students g)) (groups p)
               = [["D"; "B"; "F"]; ["A"; "E"; "C"]]
            /\ map missingPrograms (groups p) = [None; None].
Proof. eexists. split; [vm_compute; reflexivity|]. repeat split. Qed.

(** One CS student and five Math students, group size 2: three groups, and
    the two without the CS student report it missing. *)
Example one_short_program :
  exists p, groupStudents zeros
              [ {| name := "A"; program := "CS" |}; {| name := "B"; program := "Math" |};
                {| name := "C"; program := "Math" |}; {| name := "D"; program := "Math" |};
                {| name := "E"; program := "Math" |}; {| name := "F"; program := "Math" |} ]
              2 None = Some (Ok p)
            /\ numGroups p = 3
            /\ map missingPrograms (groups p) = [Some ["CS"]; Some ["CS"]; None].
Proof. eexists. split; [vm_compute; reflexivity|]. repeat split. Qed.

(** The first output of [mulberry32(1)], as a numerator over 2^32. *)
Example mulberry32_first : fst (mulberry32_step 1) = 2693262067%Z.
Proof. reflexivity. Qed.

(** * Main results *)

(** C2: for every non-empty list of students and every positive group size,
    [groupStudents] returns a partition in which no group holds more students
    than the group size. *)
Theorem groupStudents_within_capacity world studs gs seed :
  studs <> [] -> (0 < gs)%Z ->
  exists p, groupStudents world studs gs seed = Some (Ok p)
            /\ Forall (fun g => (Z.of_nat (length (students g)) <= gs)%Z) (groups p).
Proof.
  intros Hne Hgs.
  destruct (groupStudents_run world studs gs seed Hne Hgs) as (x & Hrun & Hres).
  exists (partition_of gs x). split; [exact Hres|].
  unfold partition_of; simpl.
  apply (Forall_students (fun gr => (Z.of_nat (length gr) <= gs)%Z)).
  apply (run_keeps (fun gr => (Z.of_nat (length gr) <= gs)%Z) world studs gs seed x);
    [simpl; lia | | exact Hrun].
  intros gr s _ Hroom. unfold has_room in Hroom. apply Z.ltb_lt in Hroom.
  rewrite length_app; simpl. lia.
Qed.

Lemma groupStudents_within_capacity_witness :
  six_students <> [] /\ (0 < 3)%Z
  /\ exists p, groupStudents zeros six_students 3 (Some 1%Z) = Some (Ok p)
               /\ Forall (fun g => (Z.of_nat (length (students g)) <= 3)%Z) (groups p).
Proof.
  split; [discriminate|]. split; [lia|].
  apply (groupStudents_within_capacity zeros six_students 3 (Some 1%Z));
    [discriminate | lia].
Defined.

(** C10: every placement in a partition returned by [groupStudents] has
    [locked] set to [false]. *)
Theorem groupStudents_nothing_locked world studs gs seed :
  studs <> [] -> (0 < gs)%Z ->
  exists p, groupStudents world studs gs seed = Some (Ok p)
            /\ Forall (fun g => Forall (fun s => locked s = false) (students g)) (groups p).
Proof.
  intros Hne Hgs.
  destruct (groupStudents_run world studs gs seed Hne Hgs) as (x & Hrun & Hres).
  exists (partition_of gs x). split; [exact Hres|].
  unfold partition_of; simpl.
  apply (Forall_students (Forall (fun s => locked s = false))).
  apply (run_keeps (Forall (fun s => locked s = false)) world studs gs seed x);
    [constructor | | exact Hrun].
  intros gr s Hgr _. apply Forall_app. split; [exact Hgr|].
  constructor; [reflexivity | constructor].
Qed.

Lemma groupStudents_nothing_locked_witness :
  six_students <> [] /\ (0 < 4)%Z
  /\ exists p, groupStudents zeros six_students 4 None = Some (Ok p)
               /\ Forall (fun g => Forall (fun s => locked s = false) (students g))
                         (groups p).
Proof.
  split; [discriminate|]. split; [lia|].
  apply (groupStudents_nothing_locked zeros six_students 4 None); [discriminate | lia].
Defined.






(** C1: for a positive group size, the groups returned by [groupStudents] on
    a non-empty list hold as many students as the list, and the groups
    returned by [reshuffleRespectingLocksToGroupSize] hold as many students as
    the groups it was given. *)
Theorem group_sizes_sum_to_total world studs prev progs gs seed :
  (0 < gs)%Z ->
  (studs <> [] ->
   exists p, groupStudents world studs gs seed = Some (Ok p)
             /\ placed (groups p) = length studs)
  /\ (forall res, reshuffleRespectingLocksToGroupSize world prev progs gs seed = Ok res ->
                  placed res = placed prev).
Proof.
  intros Hgs. split.
  - intros Hne.
    destruct (groupStudents_run world studs gs seed Hne Hgs) as (x & Hrun & Hres).
    exists (partition_of gs x). split; [exact Hres|].
    unfold partition_of; simpl.
    rewrite placed_size. unfold mapi. rewrite mapi_from_students.
    now apply (run_conservation world studs gs seed).
  - intros res Hres.
    assert (Hprev : placed prev = length (flat_map students prev)).
    { unfold placed. rewrite flat_map_concat_map, length_concat, map_map. reflexivity. }
    apply reshuffle_shape in Hres as [[Hnil ->]|(target & res2 & _ & -> & _ & Hsize)].
    + rewrite Hprev, Hnil. reflexivity.
    + rewrite placed_size. unfold mapi. rewrite mapi_from_students, Hprev.
      now apply Hsize.
Qed.

Lemma group_sizes_sum_to_total_witness :
  (0 < 2)%Z
  /\ (exists res, reshuffleRespectingLocksToGroupSize zeros two_cohorts ["CS"; "Math"] 2
                    (Some 5%Z) = Ok res)
  /\ (six_students <> [] ->
      exists p, groupStudents zeros six_students 2 (Some 5%Z) = Some (Ok p)
                /\ placed (groups p) = length six_students)
  /\ (forall res, reshuffleRespectingLocksToGroupSize zeros two_cohorts ["CS"; "Math"] 2
                    (Some 5%Z) = Ok res ->
                  placed res = placed two_cohorts).
Proof.
  split; [lia|]. split; [eexists; vm_compute; reflexivity|].
  apply (group_sizes_sum_to_total zeros six_students two_cohorts ["CS"; "Math"] 2
           (Some 5%Z)); lia.
Defined.

(** C9: when no student of the previous groups is locked,
    [lockedStayInPlace] returns [true] whatever the next groups are. *)
Theorem lockedStayInPlace_without_locks before after :
  (forall g s, In g before -> In s (students g) -> locked s = false) ->
  lockedStayInPlace before after = true.
Proof.
  intros H. unfold lockedStayInPlace, cohorts_of.
  rewrite no_locks_no_cohorts; [reflexivity|].
  intros g Hg. unfold locked_keys.
  assert (E : filter locked (students g) = []).
  { specialize (H g). induction (students g) as [|s r IH]; simpl; [reflexivity|].
    rewrite (H s Hg) by now left. apply IH. intros s' Hg' Hs'. apply H; [exact Hg'|now right]. }
  now rewrite E.
Qed.

Lemma lockedStayInPlace_without_locks_witness :
  (forall g s, In g nobody_locked -> In s (students g) -> locked s = false)
  /\ lockedStayInPlace nobody_locked two_cohorts = true.
Proof.
  assert (H : forall g s, In g nobody_locked -> In s (students g) -> locked s = false).
  { intros g s [<-|[]] [<-|[<-|[]]]; reflexivity. }
  split; [exact H|].
  apply (lockedStayInPlace_without_locks nobody_locked two_cohorts H).
Defined.

(** C4, as the code has it: when no key [name:::program] is shared by the
    locked students of two different previous groups, every array of groups
    returned by [reshuffleRespectingLocksToGroupSize] passes
    [lockedStayInPlace] against the previous groups. *)
Theorem reshuffle_keeps_cohorts world prev progs gs seed res :
  apart (map locked_keys prev) = true ->
  reshuffleRespectingLocksToGroupSize world prev progs gs seed = Ok res ->
  lockedStayInPlace prev res = true.
Proof.
  intros Hap Hres.
  apply reshuffle_shape in Hres
    as [[Hnil ->]|(target & res2 & HL & -> & Hlocked & _)].
  - unfold lockedStayInPlace, cohorts_of.
    rewrite no_locks_no_cohorts; [reflexivity|].
    intros g Hg. now apply (no_students_no_keys prev).
  - unfold lockedStayInPlace.
    assert (Hcm : fst (cohorts_of prev) = map set_of (cohort_keys prev)
                  /\ forall i ks k, nth_error (cohort_keys prev) i = Some ks -> In k ks ->
                       k_get k (snd (cohorts_of prev)) = Some i)
      by exact (cohorts_from prev [] [] Hap).
    destruct Hcm as [Hc Hm].
    destruct (cohorts_of prev) as [cs m]. simpl in Hc, Hm.
    subst cs. destruct (length (map set_of (cohort_keys prev)) =? 0)%nat; [reflexivity|].
    rewrite length_map, repeat_false_map.
    apply (check_next_cohorts (cohort_keys prev) m
             (target - length (lockedGroups_of prev))
             (cohort_keys_nonempty prev) Hm (cohort_keys prev) [] _ []);
      [reflexivity | reflexivity | constructor|].
    unfold mapi. rewrite locked_keys_mapi, Hlocked, map_app.
    now rewrite lockedGroups_keys, repeat_nil_keys.
Qed.

Lemma reshuffle_keeps_cohorts_witness :
  apart (map locked_keys two_cohorts) = true
  /\ exists res,
       reshuffleRespectingLocksToGroupSize zeros two_cohorts ["CS"; "Math"] 2 (Some 5%Z)
       = Ok res
       /\ lockedStayInPlace two_cohorts res = true.
Proof.
  split; [reflexivity|].
  eexists. split; [vm_compute; reflexivity|].
  apply (reshuffle_keeps_cohorts zeros two_cohorts ["CS"; "Math"] 2 (Some 5%Z));
    [reflexivity | vm_compute; reflexivity].
Defined.

(** C4 as stated fails: two locked students with the same name and program,
    one in each previous group, are returned one per group, and
    [lockedStayInPlace] answers [false]. *)
Lemma reshuffle_twins_rejected :
  exists res,
    reshuffleRespectingLocksToGroupSize zeros twin_cohorts ["CS"] 1 (Some 1%Z) = Ok res
    /\ lockedStayInPlace twin_cohorts res = false.
Proof. eexists. split; vm_compute; reflexivity. Qed.

(** C5, as the code has it: when a previous group has more locked students
    than the new size, [applyNewGroupSize] shows the banner about locked
    students and calls nothing, while [reshuffleRespectingLocksToGroupSize]
    itself does not check it: whenever it returns, the locked students of
    that group are the locked students of one returned group, which is then
    larger than the new size. *)
Theorem oversized_cohort world1 world2 prev progs newSize seed g :
  (1 <= newSize)%Z -> In g prev ->
  (newSize < Z.of_nat (length (filter locked (students g))))%Z ->
  (violating prev newSize <> []
   /\ applyNewGroupSize world1 world2 prev progs newSize seed
      = Banner (MoreLockedThanSize (violating prev newSize)))
  /\ forall res,
       reshuffleRespectingLocksToGroupSize world1 prev progs newSize seed = Ok res ->
       exists g', In g' res
                  /\ filter locked (students g') = locked_of g
                  /\ (newSize < Z.of_nat (length (students g')))%Z.
Proof.
  intros Hsize Hg Hbig. split.
  - assert (Hv : violating prev newSize <> []).
    { unfold violating, mapi.
      destruct (mapi_from_has (fun i g0 => (i + 1, length (filter locked (students g0))))
                  0 prev g Hg) as (j & Hj).
      intros E.
      assert (Hin : In (j + 1, length (filter locked (students g)))
                       (filter (fun x => (newSize <? Z.of_nat (snd x))%Z)
                          (mapi_from (fun i g0 =>
                             (i + 1, length (filter locked (students g0)))) 0 prev))).
      { apply filter_In. split; [exact Hj|]. simpl. now apply Z.ltb_lt. }
      rewrite E in Hin. destruct Hin. }
    split; [exact Hv|]. unfold applyNewGroupSize.
    destruct (newSize <? 1)%Z eqn:E1; [apply Z.ltb_lt in E1; lia|].
    destruct (length prev =? 0)%nat eqn:E2.
    { apply Nat.eqb_eq, length_zero_iff_nil in E2. subst. destruct Hg. }
    destruct (violating prev newSize); [contradiction | reflexivity].
  - intros res Hres.
    assert (Hlen : length (locked_of g) = length (filter locked (students g)))
      by (unfold locked_of; apply length_map).
    assert (Hne : locked_of g <> []).
    { intros E. rewrite E in Hlen. simpl in Hlen. lia. }
    apply reshuffle_shape in Hres
      as [[Hnil ->]|(target & res2 & HL & -> & Hlocked & _)].
    + pose proof (no_students_no_keys prev g Hnil Hg) as Hk.
      unfold locked_keys in Hk. apply map_eq_nil in Hk.
      rewrite Hk in Hbig. simpl in Hbig. lia.
    + assert (Hin : In (locked_of g) (map (filter locked) res2)).
      { rewrite Hlocked. apply in_or_app. left. now apply lockedGroups_of_has. }
      apply in_map_iff in Hin as (gr & Hgr & Hin).
      destruct (mapi_from_has (with_warnings progs) 0 res2 gr Hin) as (j & Hj).
      exists (with_warnings progs j gr). split; [exact Hj|]. simpl. split; [exact Hgr|].
      pose proof (filter_length_le locked gr). rewrite Hgr in H. lia.
Qed.

Lemma oversized_cohort_witness :
  (1 <= 4)%Z /\ In (nth 0 five_locked (mkGroup 0 [] None)) five_locked
  /\ (4 < Z.of_nat (length (filter locked
                              (students (nth 0 five_locked (mkGroup 0 [] None))))))%Z
  /\ (exists res,
        reshuffleRespectingLocksToGroupSize zeros five_locked ["CS"; "Math"] 4 (Some 1%Z)
        = Ok res)
  /\ (violating five_locked 4 <> []
      /\ applyNewGroupSize zeros zeros five_locked ["CS"; "Math"] 4 (Some 1%Z)
         = Banner (MoreLockedThanSize (violating five_locked 4)))
  /\ forall res,
       reshuffleRespectingLocksToGroupSize zeros five_locked ["CS"; "Math"] 4 (Some 1%Z)
       = Ok res ->
       exists g', In g' res
                  /\ filter locked (students g')
                     = locked_of (nth 0 five_locked (mkGroup 0 [] None))
                  /\ (4 < Z.of_nat (length (students g')))%Z.
Proof.
  split; [lia|]. split; [now left|]. split; [vm_compute; reflexivity|].
  split; [eexists; vm_compute; reflexivity|].
  apply (oversized_cohort zeros zeros five_locked ["CS"; "Math"] 4 (Some 1%Z)
           (nth 0 five_locked (mkGroup 0 [] None)));
    [lia | now left | vm_compute; reflexivity].
Defined.

(** C5 as stated fails: with five locked students in one group and the new
    size 4, [reshuffleRespectingLocksToGroupSize] throws nothing and returns
    a group of five. *)
Lemma reshuffle_five_locked_returns :
  exists res,
    reshuffleRespectingLocksToGroupSize zeros five_locked ["CS"; "Math"] 4 (Some 1%Z)
    = Ok res
    /\ exists g, In g res /\ (4 < Z.of_nat (length (students g)))%Z.
Proof.
  eexists. split; [vm_compute; reflexivity|].
  eexists. split; [now left|]. vm_compute. reflexivity.
Qed.

(** C8: on a header of three columns that are not aliases, [parseCSV] does not
    throw the missing-header error: it reads the name from column 0 and the
    program from column 1, as it does for two columns.  The comment above the
    test says "exactly two columns"; the test is [header.length >= 2]. *)
Theorem parseCSV_three_columns :
  last_alias_from nameAliases 0 ["a"; "b"; "c"] None = None
  /\ last_alias_from programAliases 0 ["a"; "b"; "c"] None = None
  /\ parseCSV three_columns = Ok [ {| name := "x"; program := "y" |} ].
Proof. repeat split; vm_compute; reflexivity. Qed.

(** * Further properties *)

(** ** The random source and the shuffle *)




Lemma mulberry32_step_mod a a' :
  (a mod two32 = a' mod two32)%Z -> mulberry32_step a = mulberry32_step a'.
Proof. intros H. unfold mulberry32_step. now rewrite H. Qed.

Lemma same_stream_refl r : same_stream r r.
Proof. destruct r; reflexivity. Qed.

Lemma draw_same r r' n :
  same_stream r r' ->
  fst (draw r n) = fst (draw r' n) /\ same_stream (snd (draw r n)) (snd (draw r' n)).
Proof.
  destruct r as [a|o k], r' as [a'|o' k']; cbn [draw same_stream]; intros H;
    try discriminate;
    try (injection H as <- <-; cbn [fst snd same_stream]; split; reflexivity).
  rewrite (mulberry32_step_mod a a' H).
  destruct (mulberry32_step a') as [u a1]. cbn [fst snd same_stream]. auto.
Qed.

Lemma shuffle_from_same {A : Type} i (arr : list A) r r' :
  same_stream r r' ->
  fst (shuffle_from i arr r) = fst (shuffle_from i arr r')
  /\ same_stream (snd (shuffle_from i arr r)) (snd (shuffle_from i arr r')).
Proof.
  revert arr r r'; induction i as [|i IH]; intros arr r r' H; cbn [shuffle_from]; [auto|].
  destruct (draw_same r r' (S i + 1) H) as [H1 H2].
  destruct (draw r (S i + 1)) as [j r1], (draw r' (S i + 1)) as [j' r1'].
  simpl in H1, H2. subst j'. now apply IH.
Qed.

Lemma shuffleInPlace_same {A : Type} (arr : list A) r r' :
  same_stream r r' ->
  fst (shuffleInPlace arr r) = fst (shuffleInPlace arr r')
  /\ same_stream (snd (shuffleInPlace arr r)) (snd (shuffleInPlace arr r')).
Proof. apply shuffle_from_same. Qed.

Lemma shuffle_buckets_same ps m r r' :
  same_stream r r' ->
  fst (shuffle_buckets ps m r) = fst (shuffle_buckets ps m r')
  /\ same_stream (snd (shuffle_buckets ps m r)) (snd (shuffle_buckets ps m r')).
Proof.
  revert m r r'; induction ps as [|p ps IH]; intros m r r' H; cbn [shuffle_buckets]; [auto|].
  destruct (shuffleInPlace_same (pm_get p m) r r' H) as [H1 H2].
  destruct (shuffleInPlace (pm_get p m) r) as [b r1],
           (shuffleInPlace (pm_get p m) r') as [b' r1'].
  simpl in H1, H2. subst b'. now apply IH.
Qed.

(** X1: [shuffleInPlace] returns a permutation of the array, and leaves an
    array of at most one element, and the random source, untouched. *)
Theorem shuffleInPlace_permutes {A : Type} (arr : list A) (r : rng) :
  Permutation (fst (shuffleInPlace arr r)) arr
  /\ (length arr <= 1 -> shuffleInPlace arr r = (arr, r)).
Proof.
  split; [apply shuffleInPlace_perm|].
  intros H. unfold shuffleInPlace.
  replace (length arr - 1) with 0 by lia. reflexivity.
Qed.



(** ** More on [groupStudents] *)

Lemma student_eq_dec (a b : student) : {a = b} + {a <> b}.
Proof. decide equality; apply string_dec. Qed.

Lemma member_eq_dec (a b : member) : {a = b} + {a <> b}.
Proof. decide equality; [apply bool_dec | apply student_eq_dec]. Qed.

Lemma count_occ_cons_app {A : Type} dec (a : A) l x :
  count_occ dec (a :: l) x = count_occ dec [a] x + count_occ dec l x.
Proof. change (a :: l) with ([a] ++ l). apply count_occ_app. Qed.

(** Permutations of lists built with [++] and [::], by counting. *)
Ltac count_norm :=
  repeat (progress (
    rewrite ?count_occ_app in *;
    repeat match goal with
    | |- context [count_occ ?d (?a :: ?l) ?x] =>
        lazymatch l with
        | nil => fail
        | _ => rewrite (count_occ_cons_app d a l x)
        end
    | H : context [count_occ ?d (?a :: ?l) ?x] |- _ =>
        lazymatch l with
        | nil => fail
        | _ => rewrite (count_occ_cons_app d a l x) in H
        end
    end)).

Ltac perm_by dec :=
  let x := fresh "x" in
  apply (proj2 (Permutation_count_occ dec _ _)); intros x;
  repeat match goal with
  | H : Permutation ?a ?b |- _ =>
      let H' := fresh in
      pose proof (proj1 (Permutation_count_occ dec a b) H x) as H'; clear H
  end;
  count_norm;
  repeat match goal with
  | |- context [count_occ ?d nil ?y] => change (count_occ d nil y) with 0
  | H : context [count_occ ?d nil ?y] |- _ => change (count_occ d nil y) with 0 in H
  end;
  lia.

Lemma content_cons gr grs : content (gr :: grs) = map who gr ++ content grs.
Proof. reflexivity. Qed.

Lemma content_perm l l' : Permutation l l' -> Permutation (content l) (content l').
Proof. apply flat_map_perm. Qed.

Lemma content_push gr x grs :
  Permutation (content ((gr ++ [x]) :: grs)) (who x :: content (gr :: grs)).
Proof.
  rewrite !content_cons, map_app. simpl map. perm_by student_eq_dec.
Qed.

Lemma content_length grs : length (content grs) = size grs.
Proof.
  unfold content, size. rewrite flat_map_concat_map, length_concat, map_map.
  f_equal. apply map_ext. intros a. apply length_map.
Qed.

Lemma pm_push_perm q s m :
  Permutation (flat_map snd (pm_push q s m)) (s :: flat_map snd m).
Proof.
  induction m as [|[k v] r IH]; simpl; [reflexivity|].
  destruct (String.eqb k q); simpl; perm_by student_eq_dec.
Qed.

Lemma build_programMap_perm studs :
  Permutation (flat_map snd (build_programMap studs)) studs.
Proof.
  unfold build_programMap.
  assert (H : forall m, Permutation
                (flat_map snd (fold_left (fun m s => pm_push (program s) s m) studs m))
                (flat_map snd m ++ studs)).
  { induction studs as [|s r IH]; intros m; simpl; [now rewrite app_nil_r|].
    pose proof (IH (pm_push (program s) s m)) as H1.
    pose proof (pm_push_perm (program s) s m) as H2. perm_by student_eq_dec. }
  apply (H []).
Qed.

Lemma pm_set_same_perm p b m :
  Permutation b (pm_get p m) ->
  Permutation (flat_map snd (pm_set p b m)) (flat_map snd m).
Proof.
  intros Hb. induction m as [|[k v] r IH]; simpl in *; [reflexivity|].
  destruct (String.eqb k p); simpl.
  - now apply Permutation_app_tail.
  - apply Permutation_app_head. now apply IH.
Qed.

Lemma pm_set_perm p b m :
  In p (map fst m) ->
  Permutation (flat_map snd (pm_set p b m) ++ pm_get p m) (flat_map snd m ++ b).
Proof.
  induction m as [|[k v] r IH]; simpl; [intros []|].
  destruct (String.eqb k p) eqn:E; simpl.
  - intros _. perm_by student_eq_dec.
  - intros [->|H]; [now rewrite String.eqb_refl in E|].
    specialize (IH H). perm_by student_eq_dec.
Qed.

Lemma shuffle_buckets_perm ps m r :
  Permutation (flat_map snd (fst (shuffle_buckets ps m r))) (flat_map snd m).
Proof.
  revert m r; induction ps as [|p ps IH]; intros m r; simpl; [reflexivity|].
  pose proof (shuffleInPlace_perm (pm_get p m) r) as Hp.
  destruct (shuffleInPlace (pm_get p m) r) as [b r']; simpl in Hp.
  rewrite IH. now apply pm_set_same_perm.
Qed.

Lemma one_per_group_perm gs grs bucket :
  Permutation (content (fst (one_per_group gs grs bucket))
               ++ snd (one_per_group gs grs bucket))
              (content grs ++ bucket).
Proof.
  revert bucket; induction grs as [|gr r IH]; intros bucket; cbn [one_per_group];
    [reflexivity|].
  destruct (if has_room gs gr then pop bucket else None) as [[s b]|] eqn:E.
  - destruct (has_room gs gr); [|discriminate].
    apply pop_some in E; subst bucket.
    specialize (IH b). destruct (one_per_group gs r b) as [r' b']; cbn [fst snd] in *.
    pose proof (content_push gr (place s) r') as Hc.
    rewrite !content_cons in *. simpl who in Hc. perm_by student_eq_dec.
  - specialize (IH bucket).
    destruct (one_per_group gs r bucket) as [r' b']; cbn [fst snd] in *.
    rewrite !content_cons. perm_by student_eq_dec.
Qed.

Lemma assign_enough_perm gs ps grs m :
  incl ps (map fst m) ->
  Permutation (content (fst (assign_enough gs ps grs m))
               ++ flat_map snd (snd (assign_enough gs ps grs m)))
              (content grs ++ flat_map snd m).
Proof.
  revert grs m; induction ps as [|p ps IH]; intros grs m Hin; cbn [assign_enough];
    [reflexivity|].
  pose proof (one_per_group_perm gs grs (pm_get p m)) as H.
  destruct (one_per_group gs grs (pm_get p m)) as [grs' b]; cbn [fst snd] in H.
  assert (Hin' : incl ps (map fst (pm_set p b m))).
  { rewrite pm_set_keys. intros q Hq. apply Hin. now right. }
  pose proof (IH grs' (pm_set p b m) Hin') as H1.
  pose proof (pm_set_perm p b m (Hin p (or_introl eq_refl))) as H2.
  perm_by student_eq_dec.
Qed.

Lemma push_at_content g x grs :
  g < length grs -> Permutation (content (push_at g x grs)) (who x :: content grs).
Proof.
  revert g; induction grs as [|gr r IH]; intros [|g]; cbn [push_at length]; try lia.
  - intros _. apply content_push.
  - intros H. specialize (IH g ltac:(lia)). rewrite !content_cons.
    perm_by student_eq_dec.
Qed.

Lemma spread_perm fuel gs n grs bucket g grs' b' :
  n = length grs -> g < n ->
  spread fuel gs n grs bucket g = Some (grs', b') ->
  Permutation (content grs' ++ b') (content grs ++ bucket).
Proof.
  revert grs bucket g; induction fuel as [|fuel IH]; intros grs bucket g Hn Hg;
    destruct bucket as [|s0 bk]; cbn [spread]; try discriminate.
  - now intros [= <- <-].
  - now intros [= <- <-].
  - assert (Hg' : (g + 1) mod n < n) by (apply Nat.mod_upper_bound; lia).
    destruct (if has_room gs (nth g grs []) then pop (s0 :: bk) else None)
      as [[s b]|] eqn:E.
    + destruct (has_room gs (nth g grs [])); [|discriminate].
      apply pop_some in E.
      assert (Hstep : Permutation (content (push_at g (place s) grs) ++ b)
                                  (content grs ++ s0 :: bk)).
      { rewrite E. pose proof (push_at_content g (place s) grs ltac:(lia)) as Hc.
        simpl who in Hc. perm_by student_eq_dec. }
      destruct (all_full gs (push_at g (place s) grs)).
      * intros [= <- <-]. exact Hstep.
      * intros H. apply IH in H; [|now rewrite push_at_length|exact Hg'].
        etransitivity; eassumption.
    + destruct (all_full gs grs); [now intros [= <- <-]|].
      intros H. now apply IH in H.
Qed.

Lemma assign_shortage_perm gs n ps grs m grs' m' :
  n = length grs -> 0 < n -> incl ps (map fst m) ->
  assign_shortage gs n ps grs m = Some (grs', m') ->
  Permutation (content grs' ++ flat_map snd m') (content grs ++ flat_map snd m).
Proof.
  revert grs m; induction ps as [|p ps IH]; intros grs m Hn Hpos Hin;
    cbn [assign_shortage].
  - now intros [= <- <-].
  - destruct (spread (spread_fuel n (pm_get p m)) gs n grs (pm_get p m) 0)
      as [[grs1 b]|] eqn:E; [|discriminate].
    intros H.
    pose proof (spread_length _ _ _ _ _ _ _ _ E) as Hl.
    pose proof (spread_perm _ _ _ _ _ _ _ _ Hn Hpos E) as Hp.
    apply IH in H; [|congruence|exact Hpos|].
    + pose proof (pm_set_perm p b m (Hin p (or_introl eq_refl))) as H2.
      perm_by student_eq_dec.
    + rewrite pm_set_keys. intros q Hq. apply Hin. now right.
Qed.

Lemma push_first_content gs x grs :
  all_full gs grs = false ->
  Permutation (content (push_first gs x grs)) (who x :: content grs).
Proof.
  unfold all_full. induction grs as [|gr r IH]; cbn [forallb push_first]; [discriminate|].
  destruct (has_room gs gr); cbn [negb andb]; intros H.
  - apply content_push.
  - specialize (IH H). rewrite !content_cons. perm_by student_eq_dec.
Qed.

Lemma distribute_rest_same_length gs grs rest :
  length (distribute_rest gs grs rest) = length grs.
Proof.
  revert grs; induction rest as [|s rest IH]; intros grs; simpl; [reflexivity|].
  assert (H : length (push_first gs (place s) (sort_by_length grs)) = length grs).
  { rewrite push_first_length. apply Permutation_length, sort_by_length_perm. }
  destruct (all_full gs _); [exact H | now rewrite IH].
Qed.

Lemma distribute_rest_perm gs grs rest :
  (Z.of_nat (size grs + length rest) <= Z.of_nat (length grs) * gs)%Z ->
  Permutation (content (distribute_rest gs grs rest)) (content grs ++ rest).
Proof.
  revert grs; induction rest as [|s rest IH]; intros grs Hcap; simpl;
    [now rewrite app_nil_r|].
  pose proof (sort_by_length_perm grs) as Hp.
  pose proof (size_perm _ _ Hp) as Hsz.
  pose proof (Permutation_length Hp) as Hlen.
  destruct (all_full gs (sort_by_length grs)) eqn:E.
  - apply all_full_size in E. simpl in Hcap. lia.
  - pose proof (push_first_size gs (place s) _ E) as Hs.
    pose proof (push_first_length gs (place s) (sort_by_length grs)) as Hl.
    pose proof (push_first_content gs (place s) _ E) as Hc.
    pose proof (content_perm _ _ Hp) as Hp'. simpl who in Hc.
    destruct (all_full gs (push_first gs (place s) (sort_by_length grs))) eqn:E'.
    + apply all_full_size in E'. simpl in Hcap.
      assert (rest = []) by (destruct rest; [reflexivity | simpl in Hcap; lia]).
      subst rest. perm_by student_eq_dec.
    + pose proof (IH (push_first gs (place s) (sort_by_length grs))
                     ltac:(simpl in Hcap; lia)) as H1.
      perm_by student_eq_dec.
Qed.

Lemma roster_mapi progs grs : roster (mapi (with_warnings progs) grs) = content grs.
Proof.
  unfold mapi, roster, content. generalize 0.
  induction grs as [|gr r IH]; intros i; simpl; [reflexivity|]. now rewrite IH.
Qed.

Lemma index_mapi progs i grs :
  map index (mapi_from (with_warnings progs) i grs) = seq (i + 1) (length grs).
Proof.
  revert i; induction grs as [|gr r IH]; intros i; simpl; [reflexivity|].
  rewrite IH. replace (S i + 1) with (S (i + 1)) by lia. reflexivity.
Qed.

Lemma length_mapi_from {A B : Type} (f : nat -> A -> B) i l :
  length (mapi_from f i l) = length l.
Proof. revert i; induction l as [|a r IH]; intros i; simpl; auto. Qed.

Lemma insert_string_ascending x l :
  ascending l = true -> ascending (insert_string x l) = true.
Proof.
  induction l as [|y r IH]; [reflexivity|]. intros H.
  cbn [insert_string]. destruct (String.leb x y) eqn:E.
  - cbn [ascending]. now rewrite E.
  - assert (Hyx : String.leb y x = true).
    { destruct (String.leb_total x y) as [H'|H']; congruence. }
    assert (Hr : ascending r = true).
    { cbn [ascending] in H. destruct r; [reflexivity|].
      now apply andb_prop in H as [_ H]. }
    specialize (IH Hr). cbn [ascending].
    destruct r as [|z r'].
    + simpl. now rewrite Hyx.
    + cbn [insert_string] in *. cbn [ascending] in H.
      apply andb_prop in H as [Hyz _].
      destruct (String.leb x z); [now rewrite Hyx | now rewrite Hyz].
Qed.

Lemma sort_strings_ascending l : ascending (sort_strings l) = true.
Proof.
  induction l as [|x r IH]; [reflexivity|]. simpl. now apply insert_string_ascending.
Qed.

Lemma content_repeat_nil n : content (repeat [] n) = [].
Proof. induction n as [|n IH]; [reflexivity|]. exact IH. Qed.

Lemma remaining_perm ps m :
  NoDup (map fst m) -> Permutation ps (map fst m) ->
  Permutation (remaining ps m) (flat_map snd m).
Proof.
  intros Hnd Hp. rewrite <- (remaining_keys m Hnd).
  unfold remaining. now apply flat_map_perm.
Qed.

Lemma incl_filter {A : Type} (f : A -> bool) l l' : incl l l' -> incl (filter f l) l'.
Proof. intros H x Hx. apply filter_In in Hx as [Hx _]. now apply H. Qed.

(** Every student of the input is in the groups handed to the final [map],
    once. *)
Lemma run_perm world studs gs seed x :
  studs <> [] -> (0 < gs)%Z ->
  run_of world studs gs seed x ->
  Permutation (content (distribute_rest gs (r_groups2 x) (r_rest x))) studs
  /\ length (distribute_rest gs (r_groups2 x) (r_rest x)) = r_n x.
Proof.
  intros Hne Hgs Hrun.
  destruct (run_progs _ _ _ _ _ Hrun) as (Hnd & Hperm & _).
  destruct Hrun as (Hp & Hn & H1 & H2 & H3 & H4).
  pose proof (build_programMap_nodup studs) as Hnd0.
  pose proof (build_programMap_perm studs) as P0.
  pose proof (shuffle_buckets_facts (r_progs x) (build_programMap studs)
                (make_rng world seed)) as [Hk1 _].
  pose proof (shuffle_buckets_perm (r_progs x) (build_programMap studs)
                (make_rng world seed)) as P1.
  rewrite H1 in Hk1, P1; cbn [fst] in Hk1, P1.
  assert (Hincl : incl (r_progs x) (map fst (r_map1 x))).
  { rewrite Hk1. intros c Hc. eapply Permutation_in; eassumption. }
  pose proof (assign_enough_perm gs
    (filter (fun p => (r_n x <=? length (pm_get p (r_map1 x)))%nat) (r_progs x))
    (repeat [] (r_n x)) (r_map1 x) (incl_filter _ _ _ Hincl)) as P2.
  pose proof (assign_enough_length gs
    (filter (fun p => (r_n x <=? length (pm_get p (r_map1 x)))%nat) (r_progs x))
    (repeat [] (r_n x)) (r_map1 x)) as Hl2.
  pose proof (assign_enough_keys gs
    (filter (fun p => (r_n x <=? length (pm_get p (r_map1 x)))%nat) (r_progs x))
    (repeat [] (r_n x)) (r_map1 x)) as Hk2.
  rewrite H2 in P2, Hl2, Hk2; cbn [fst snd] in P2, Hl2, Hk2.
  rewrite content_repeat_nil in P2. rewrite repeat_length in Hl2. simpl app in P2.
  assert (Hpos : 0 < r_n x).
  { rewrite Hn. apply ceil_div_pos; [exact Hgs|].
    destruct studs; [contradiction | simpl; lia]. }
  assert (Hincl2 : incl (filter (fun p => negb (r_n x <=? length (pm_get p (r_map1 x)))%nat)
                                (r_progs x)) (map fst (r_map2 x))).
  { rewrite Hk2. now apply incl_filter. }
  pose proof (assign_shortage_perm _ _ _ _ _ _ _ (eq_sym Hl2) Hpos Hincl2 H3) as P3.
  destruct (assign_shortage_facts _ _ _ _ _ _ _ (eq_sym Hl2) Hpos H3) as (Hl3 & Hk3 & _).
  assert (P4 : Permutation (r_rest x) (flat_map snd (r_map3 x))).
  { rewrite H4. etransitivity; [apply shuffleInPlace_perm|].
    apply remaining_perm; now rewrite Hk3, Hk2, Hk1. }
  assert (Pall : Permutation (content (r_groups2 x) ++ r_rest x) studs).
  { clear - P0 P1 P2 P3 P4. perm_by student_eq_dec. }
  assert (Hcap : (Z.of_nat (size (r_groups2 x) + length (r_rest x))
                  <= Z.of_nat (length (r_groups2 x)) * gs)%Z).
  { apply Permutation_length in Pall. rewrite length_app, content_length in Pall.
    rewrite Pall, Hl3, Hl2, Hn. apply ceil_div_capacity. exact Hgs. }
  split.
  - etransitivity; [apply distribute_rest_perm; exact Hcap | exact Pall].
  - now rewrite distribute_rest_same_length, Hl3.
Qed.

(** X3: a seed is used modulo 2^32: two seeds that differ by a multiple of
    2^32 give the same partition. *)
Theorem groupStudents_seed_modulo world studs gs (seed k : Z) :
  groupStudents world studs gs (Some (seed + k * two32)%Z)
  = groupStudents world studs gs (Some seed).
Proof.
  unfold groupStudents.
  destruct (gs <=? 0)%Z; [reflexivity|].
  destruct (length studs =? 0)%nat; [reflexivity|].
  assert (H : same_stream (make_rng world (Some (seed + k * two32)%Z))
                          (make_rng world (Some seed))).
  { cbn [make_rng mulberry32 same_stream]. apply Z.mod_add. discriminate. }
  set (progs := sort_strings (map fst (build_programMap studs))).
  destruct (shuffle_buckets_same progs (build_programMap studs) _ _ H) as [H1 H2].
  destruct (shuffle_buckets progs (build_programMap studs)
              (make_rng world (Some (seed + k * two32)%Z))) as [m1 r1].
  destruct (shuffle_buckets progs (build_programMap studs) (make_rng world (Some seed)))
    as [m1' r1'].
  cbn [fst snd] in H1, H2. subst m1'.
  destruct (assign_enough gs _ _ m1) as [grs1 m2].
  destruct (assign_shortage gs _ _ grs1 m2) as [[grs2 m3]|]; [|reflexivity].
  destruct (shuffleInPlace_same (remaining progs m3) r1 r1' H2) as [H3 _].
  destruct (shuffleInPlace (remaining progs m3) r1) as [rest r2].
  destruct (shuffleInPlace (remaining progs m3) r1') as [rest' r2'].
  cbn [fst] in H3. now subst rest'.
Qed.

(** X4: [groupStudents] throws "group_size must be positive" for every size
    that is not positive, whatever the students; for a positive size it throws
    "No students" on the empty array and returns a partition on every other. *)
Theorem groupStudents_returns_or_throws world studs gs seed :
  ((gs <= 0)%Z ->
   groupStudents world studs gs seed = Some (Throw "group_size must be positive"))
  /\ ((0 < gs)%Z -> studs = [] ->
      groupStudents world studs gs seed = Some (Throw "No students"))
  /\ ((0 < gs)%Z -> studs <> [] ->
      exists p, groupStudents world studs gs seed = Some (Ok p)).
Proof.
  repeat split.
  - intros H. unfold groupStudents. apply Z.leb_le in H. now rewrite H.
  - intros H ->. unfold groupStudents.
    destruct (gs <=? 0)%Z eqn:E; [apply Z.leb_le in E; lia | reflexivity].
  - intros H Hne.
    destruct (groupStudents_run world studs gs seed Hne H) as (x & _ & Hres). eauto.
Qed.

(** X5: the partition returned by [groupStudents] records the size it was
    given, has [numGroups] groups numbered 1, 2, ... in order, and [numGroups]
    is the least number of groups of that size that can hold every student. *)
Theorem groupStudents_shape world studs gs seed :
  studs <> [] -> (0 < gs)%Z ->
  exists p, groupStudents world studs gs seed = Some (Ok p)
            /\ groupSize p = gs
            /\ length (groups p) = numGroups p
            /\ map index (groups p) = seq 1 (numGroups p)
            /\ (Z.of_nat (length studs) <= Z.of_nat (numGroups p) * gs)%Z
            /\ ((Z.of_nat (numGroups p) - 1) * gs < Z.of_nat (length studs))%Z.
Proof.
  intros Hne Hgs.
  destruct (groupStudents_run world studs gs seed Hne Hgs) as (x & Hrun & Hres).
  exists (partition_of gs x). split; [exact Hres|].
  destruct (run_perm world studs gs seed x Hne Hgs Hrun) as [_ Hlen].
  destruct Hrun as (_ & Hn & _).
  unfold partition_of; cbn [groupSize numGroups groups].
  split; [reflexivity|]. unfold mapi. split; [now rewrite length_mapi_from|].
  split; [now rewrite index_mapi, Hlen|].
  rewrite Hn. split; [now apply ceil_div_capacity|].
  unfold ceil_div. rewrite Z2Nat.id by (apply Z.div_pos; lia).
  pose proof (Z.mul_div_le (Z.of_nat (length studs) + gs - 1) gs Hgs). lia.
Qed.

Lemma groupStudents_shape_witness :
  six_students <> [] /\ (0 < 4)%Z
  /\ exists p, groupStudents zeros six_students 4 (Some 9%Z) = Some (Ok p)
               /\ groupSize p = 4%Z
               /\ length (groups p) = numGroups p
               /\ map index (groups p) = seq 1 (numGroups p)
               /\ (Z.of_nat (length six_students) <= Z.of_nat (numGroups p) * 4)%Z
               /\ ((Z.of_nat (numGroups p) - 1) * 4 < Z.of_nat (length six_students))%Z.
Proof.
  split; [discriminate|]. split; [lia|].
  apply (groupStudents_shape zeros six_students 4 (Some 9%Z)); [discriminate | lia].
Defined.

(** X6: the [programs] of the returned partition are the programs of the
    input, each once, in ascending order. *)
Theorem groupStudents_programs world studs gs seed :
  studs <> [] -> (0 < gs)%Z ->
  exists p, groupStudents world studs gs seed = Some (Ok p)
            /\ ascending (programs p) = true
            /\ NoDup (programs p)
            /\ forall c, In c (programs p) <-> In c (map program studs).
Proof.
  intros Hne Hgs.
  destruct (groupStudents_run world studs gs seed Hne Hgs) as (x & Hrun & Hres).
  exists (partition_of gs x). split; [exact Hres|].
  destruct (run_progs _ _ _ _ _ Hrun) as (Hnd & _ & Hin).
  destruct Hrun as (Hp & _).
  unfold partition_of; cbn [programs].
  split; [rewrite Hp; apply sort_strings_ascending|]. split; assumption.
Qed.

Lemma groupStudents_programs_witness :
  six_students <> [] /\ (0 < 4)%Z
  /\ exists p, groupStudents zeros six_students 4 None = Some (Ok p)
               /\ ascending (programs p) = true
               /\ NoDup (programs p)
               /\ forall c, In c (programs p) <-> In c (map program six_students).
Proof.
  split; [discriminate|]. split; [lia|].
  apply (groupStudents_programs zeros six_students 4 None); [discriminate | lia].
Defined.

(** X7: the groups returned by [groupStudents] hold exactly the students of
    the input: each of them is in one group, once, and nobody else is. *)
Theorem groupStudents_places_everyone world studs gs seed :
  studs <> [] -> (0 < gs)%Z ->
  exists p, groupStudents world studs gs seed = Some (Ok p)
            /\ Permutation (roster (groups p)) studs.
Proof.
  intros Hne Hgs.
  destruct (groupStudents_run world studs gs seed Hne Hgs) as (x & Hrun & Hres).
  exists (partition_of gs x). split; [exact Hres|].
  unfold partition_of; cbn [groups]. rewrite roster_mapi.
  now apply (run_perm world studs gs seed x).
Qed.

Lemma groupStudents_places_everyone_witness :
  six_students <> [] /\ (0 < 4)%Z
  /\ exists p, groupStudents zeros six_students 4 (Some 3%Z) = Some (Ok p)
               /\ Permutation (roster (groups p)) six_students.
Proof.
  split; [discriminate|]. split; [lia|].
  apply (groupStudents_places_everyone zeros six_students 4 (Some 3%Z));
    [discriminate | lia].
Defined.

(** ** More on [reshuffleRespectingLocksToGroupSize] *)

Lemma members_cons gr grs : members (gr :: grs) = gr ++ members grs.
Proof. reflexivity. Qed.

Lemma members_app a b : members (a ++ b) = members a ++ members b.
Proof. unfold members. apply flat_map_app. Qed.

Lemma members_repeat_nil n : members (repeat [] n) = [].
Proof. induction n as [|n IH]; [reflexivity | exact IH]. Qed.

Lemma members_mapi progs grs : flat_map students (mapi (with_warnings progs) grs) = members grs.
Proof.
  unfold mapi, members. generalize 0.
  induction grs as [|gr r IH]; intros i; simpl; [reflexivity|]. now rewrite IH.
Qed.

Lemma unlocked_idem l : map unlocked (map unlocked l) = map unlocked l.
Proof. rewrite map_map. reflexivity. Qed.

Lemma q_push_perm s q : Permutation (flat_map snd (q_push s q)) (s :: flat_map snd q).
Proof.
  induction q as [|[k v] r IH]; simpl; [reflexivity|].
  destruct (String.eqb k (program (who s))); simpl; perm_by member_eq_dec.
Qed.

Lemma q_build_perm pool :
  Permutation (flat_map snd (fold_left (fun q s => q_push s q) pool [])) pool.
Proof.
  assert (H : forall q, Permutation
                (flat_map snd (fold_left (fun q s => q_push s q) pool q))
                (flat_map snd q ++ pool)).
  { induction pool as [|s r IH]; intros q; simpl; [now rewrite app_nil_r|].
    pose proof (IH (q_push s q)) as H1.
    pose proof (q_push_perm s q) as H2. perm_by member_eq_dec. }
  apply (H []).
Qed.

Lemma q_set_perm p b v q :
  q_get p q = Some v ->
  Permutation (flat_map snd (q_set p b q) ++ v) (flat_map snd q ++ b).
Proof.
  induction q as [|[k w] r IH]; simpl; [discriminate|].
  destruct (String.eqb k p); simpl.
  - intros [= ->]. perm_by member_eq_dec.
  - intros H. specialize (IH H). perm_by member_eq_dec.
Qed.

Lemma shuffle_queues_perm ps q r :
  Permutation (flat_map snd (fst (shuffle_queues ps q r))) (flat_map snd q).
Proof.
  revert q r; induction ps as [|p ps IH]; intros q r; simpl; [reflexivity|].
  destruct (q_get p q) as [b|] eqn:E; [|apply IH].
  pose proof (shuffleInPlace_perm b r) as Hp.
  destruct (shuffleInPlace b r) as [b' r']; simpl in Hp.
  pose proof (IH (q_set p b' q) r') as H1.
  pose proof (q_set_perm p b' b q E) as H2.
  perm_by member_eq_dec.
Qed.

Lemma leftover_perm q :
  NoDup (map fst q) -> Permutation (leftover_of q) (flat_map snd q).
Proof.
  intros Hnd. unfold leftover_of. rewrite <- (q_keys_flat q Hnd).
  apply flat_map_perm, object_keys_perm.
Qed.

Lemma map_unlocked_perm l l' :
  Permutation l l' -> Permutation (map unlocked l) (map unlocked l').
Proof. apply Permutation_map. Qed.

Lemma fill_group_perm gs missing gr q :
  Permutation (fst (fill_group gs missing gr q)
               ++ map unlocked (flat_map snd (snd (fill_group gs missing gr q))))
              (gr ++ map unlocked (flat_map snd q)).
Proof.
  revert gr q; induction missing as [|p rest IH]; intros gr q; cbn [fill_group];
    [reflexivity|].
  destruct (negb (has_room gs gr)); [reflexivity|].
  destruct (q_get p q) as [b|] eqn:E; [|apply IH].
  destruct (pop b) as [[s b']|] eqn:Ep; [|apply IH].
  pose proof (IH (gr ++ [{| who := who s; locked := false |}]) (q_set p b' q)) as H1.
  pose proof (map_unlocked_perm _ _ (q_set_perm p b' b q E)) as H2.
  apply pop_some in Ep. subst b.
  rewrite !map_app in H2. simpl map in H2.
  change {| who := who s; locked := false |} with (unlocked s) in H1 |- *.
  perm_by member_eq_dec.
Qed.

Lemma fill_group_room gs missing gr q :
  (Z.of_nat (length gr) <= gs)%Z ->
  (Z.of_nat (length (fst (fill_group gs missing gr q))) <= gs)%Z.
Proof.
  revert gr q; induction missing as [|p rest IH]; intros gr q H; cbn [fill_group];
    [exact H|].
  destruct (has_room gs gr) eqn:Er; cbn [negb]; [|exact H].
  destruct (q_get p q) as [b|]; [|now apply IH].
  destruct (pop b) as [[s b']|]; [|now apply IH].
  apply IH. unfold has_room in Er. apply Z.ltb_lt in Er.
  rewrite length_app. simpl. lia.
Qed.

Lemma fill_missing_perm gs enough res q :
  Permutation (members (fst (fill_missing gs enough res q))
               ++ map unlocked (flat_map snd (snd (fill_missing gs enough res q))))
              (members res ++ map unlocked (flat_map snd q)).
Proof.
  revert q; induction res as [|gr rest IH]; intros q; cbn [fill_missing]; [reflexivity|].
  pose proof (fill_group_perm gs (filter (fun p => negb (has_program gr p)) enough) gr q)
    as H1.
  destruct (fill_group gs _ gr q) as [gr' q']; cbn [fst snd] in H1.
  pose proof (IH q') as H2.
  destruct (fill_missing gs enough rest q') as [rest' q'']; cbn [fst snd] in *.
  rewrite !members_cons. perm_by member_eq_dec.
Qed.

Lemma fill_missing_room gs enough res q :
  Forall (fun gr => (Z.of_nat (length gr) <= gs)%Z) res ->
  Forall (fun gr => (Z.of_nat (length gr) <= gs)%Z) (fst (fill_missing gs enough res q)).
Proof.
  revert q; induction res as [|gr rest IH]; intros q H; cbn [fill_missing];
    [constructor|].
  inversion_clear H as [|? ? Hgr Hrest].
  pose proof (fill_group_room gs (filter (fun p => negb (has_program gr p)) enough) gr q Hgr)
    as H1.
  destruct (fill_group gs _ gr q) as [gr' q']; cbn [fst] in H1.
  specialize (IH q' Hrest).
  destruct (fill_missing gs enough rest q') as [rest' q'']; cbn [fst] in *.
  now constructor.
Qed.

Lemma push_at_members g x res :
  g < length res -> Permutation (members (push_at g x res)) (x :: members res).
Proof.
  revert g; induction res as [|gr r IH]; intros [|g]; cbn [push_at length]; try lia.
  - intros _. rewrite !members_cons. perm_by member_eq_dec.
  - intros H. specialize (IH g ltac:(lia)). rewrite !members_cons.
    perm_by member_eq_dec.
Qed.

Lemma first_with_room_has gs order res idx :
  first_with_room gs order res = Some idx -> has_room gs (nth idx res []) = true.
Proof.
  induction order as [|i r IH]; simpl; [discriminate|].
  destruct (has_room gs (nth i res [])) eqn:E; [intros [= <-]; exact E | exact IH].
Qed.

Lemma place_leftover_perm gs order res leftover :
  (forall i, In i order <-> i < length res) ->
  (Z.of_nat (size res + length leftover) <= Z.of_nat (length res) * gs)%Z ->
  Permutation (members (place_leftover gs order res leftover))
              (members res ++ map unlocked leftover).
Proof.
  intros Hord. revert res Hord; induction leftover as [|s rest IH]; intros res Hord Hcap;
    cbn [place_leftover map]; [now rewrite app_nil_r|].
  destruct (first_with_room gs order res) as [idx|] eqn:E.
  - apply first_with_room_some, Hord in E.
    pose proof (push_at_members idx (unlocked s) res E) as H1.
    pose proof (IH (push_at idx (unlocked s) res)) as H2.
    rewrite push_at_length, push_at_size in H2 by exact E.
    specialize (H2 Hord ltac:(cbn [length] in Hcap; lia)).
    change {| who := who s; locked := false |} with (unlocked s) in *.
    perm_by member_eq_dec.
  - apply first_with_room_none in E; [|intros i Hi; now apply Hord].
    apply all_full_size in E. cbn [length] in Hcap. lia.
Qed.

Lemma place_leftover_room gs order res leftover :
  Forall (fun gr => (Z.of_nat (length gr) <= gs)%Z) res ->
  Forall (fun gr => (Z.of_nat (length gr) <= gs)%Z) (place_leftover gs order res leftover).
Proof.
  revert res; induction leftover as [|s rest IH]; intros res H; cbn [place_leftover];
    [exact H|].
  destruct (first_with_room gs order res) as [idx|] eqn:E; [|exact H].
  apply IH. apply first_with_room_has in E.
  apply (push_at_keeps gs (fun gr => (Z.of_nat (length gr) <= gs)%Z)); [|exact H|exact E].
  intros gr s0 _ Hroom. unfold has_room in Hroom. apply Z.ltb_lt in Hroom.
  rewrite length_app; simpl. lia.
Qed.

Lemma locked_of_eq g : locked_of g = filter locked (students g).
Proof.
  unfold locked_of. induction (students g) as [|s r IH]; simpl; [reflexivity|].
  destruct s as [w [|]]; simpl; [now rewrite IH | exact IH].
Qed.

Lemma lockedGroups_of_members prev :
  members (lockedGroups_of prev) = filter locked (flat_map students prev).
Proof.
  unfold lockedGroups_of. induction prev as [|g r IH]; simpl; [reflexivity|].
  rewrite filter_app, <- IH.
  destruct (length (locked_of g) =? 0)%nat eqn:E; simpl.
  - apply Nat.eqb_eq, length_zero_iff_nil in E.
    rewrite <- locked_of_eq, E. reflexivity.
  - unfold members. simpl. now rewrite locked_of_eq.
Qed.

Lemma unlocked_of_eq prev :
  unlocked_of prev = filter (fun s => negb (locked s)) (flat_map students prev).
Proof.
  unfold unlocked_of. induction (flat_map students prev) as [|s r IH]; simpl;
    [reflexivity|].
  destruct s as [w [|]]; simpl; [exact IH | now rewrite IH].
Qed.

Lemma map_unlocked_unlocked_of prev : map unlocked (unlocked_of prev) = unlocked_of prev.
Proof. unfold unlocked_of. rewrite map_map. reflexivity. Qed.

Lemma lockedGroups_of_room prev gs :
  (forall g, In g prev -> (Z.of_nat (length (filter locked (students g))) <= gs)%Z) ->
  Forall (fun gr => (Z.of_nat (length gr) <= gs)%Z) (lockedGroups_of prev).
Proof.
  intros H. apply Forall_forall. intros gr Hgr.
  unfold lockedGroups_of in Hgr. apply filter_In in Hgr as [Hgr _].
  apply in_map_iff in Hgr as (g & <- & Hg).
  rewrite locked_of_eq. now apply H.
Qed.

(** What a returned array of groups is made of, for a positive size. *)
Lemma reshuffle_content world prev progs gs seed res :
  (0 < gs)%Z ->
  reshuffleRespectingLocksToGroupSize world prev progs gs seed = Ok res ->
  exists res2,
    res = mapi (with_warnings progs) res2
    /\ length res2 = Nat.max 1 (ceil_div (length (flat_map students prev)) gs)
    /\ Permutation (members res2) (flat_map students prev)
    /\ ((forall g, In g prev ->
                   (Z.of_nat (length (filter locked (students g))) <= gs)%Z) ->
        Forall (fun gr => (Z.of_nat (length gr) <= gs)%Z) res2).
Proof.
  intros Hgs. unfold reshuffleRespectingLocksToGroupSize, target_groups.
  assert (Hb : (0 <? gs)%Z = true) by now apply Z.ltb_lt.
  rewrite Hb.
  set (target := Nat.max 1 (ceil_div (length (flat_map students prev)) gs)).
  destruct (target <? length (lockedGroups_of prev))%nat eqn:El; [discriminate|].
  apply Nat.ltb_ge in El.
  destruct (existsb (fun s => is_inherited (program (who s))) (unlocked_of prev));
    [discriminate|].
  set (q0 := fold_left (fun q s => q_push s q) (unlocked_of prev) []).
  destruct (shuffle_queues (object_keys q0) q0 (make_rng world seed)) as [q1 r1] eqn:E1.
  set (res0 := lockedGroups_of prev ++ repeat [] (target - length (lockedGroups_of prev))).
  destruct (fill_missing gs (filter (enough_for prev target) progs) res0 q1)
    as [res1 q2] eqn:E2.
  destruct (shuffleInPlace
              (flat_map (fun p => match q_get p q2 with Some b => b | None => [] end)
                        (object_keys q2)) r1) as [leftover r2] eqn:E3.
  intros [= <-].
  exists (place_leftover gs (targetOrder_of res1) res1 leftover).
  pose proof (fill_missing_facts gs (filter (enough_for prev target) progs) res0 q1)
    as (F1 & F2 & _ & F4).
  pose proof (fill_missing_perm gs (filter (enough_for prev target) progs) res0 q1) as F5.
  rewrite E2 in F1, F2, F4, F5; cbn [fst snd] in F1, F2, F4, F5.
  destruct (place_leftover_facts gs (targetOrder_of res1) res1 leftover) as [_ P2].
  assert (Hq0 : NoDup (map fst q0) /\ q_total q0 = length (unlocked_of prev) + 0).
  { apply (q_build_facts (unlocked_of prev) []). constructor. }
  destruct Hq0 as [Hnd0 Ht0].
  pose proof (shuffle_queues_facts (object_keys q0) q0 (make_rng world seed)) as [S1 S2].
  pose proof (shuffle_queues_perm (object_keys q0) q0 (make_rng world seed)) as S3.
  rewrite E1 in S1, S2, S3; cbn [fst] in S1, S2, S3.
  assert (Hres0 : size res0 = size (lockedGroups_of prev) /\ length res0 = target).
  { unfold res0. rewrite size_app, size_repeat_nil, length_app, repeat_length. lia. }
  destruct Hres0 as [Hs0 Hl0].
  assert (Hleftp : Permutation leftover (flat_map snd q2)).
  { pose proof (shuffleInPlace_perm (leftover_of q2) r1) as Hp.
    unfold leftover_of in Hp. rewrite E3 in Hp; cbn [fst] in Hp.
    etransitivity; [exact Hp|]. apply (leftover_perm q2). now rewrite F2, S1. }
  assert (Hleft : length leftover = q_total q2)
    by (apply Permutation_length in Hleftp; exact Hleftp).
  pose proof (locked_unlocked_total prev) as Htot.
  assert (Htarget : (Z.of_nat (length (flat_map students prev))
                     <= Z.of_nat target * gs)%Z).
  { pose proof (ceil_div_capacity (length (flat_map students prev)) gs Hgs) as Hc.
    assert (Hm : ceil_div (length (flat_map students prev)) gs <= target)
      by apply Nat.le_max_r.
    apply Nat2Z.inj_le in Hm.
    etransitivity; [exact Hc|]. apply Z.mul_le_mono_nonneg_r; [lia | exact Hm]. }
  assert (Hcap : (Z.of_nat (size res1 + length leftover)
                  <= Z.of_nat (length res1) * gs)%Z) by (rewrite F4, Hl0; lia).
  split; [reflexivity|]. split; [now rewrite P2, F4|]. split.
  - pose proof (place_leftover_perm gs (targetOrder_of res1) res1 leftover
                  (targetOrder_of_In res1) Hcap) as P3.
    pose proof (q_build_perm (unlocked_of prev)) as B1. fold q0 in B1.
    assert (M0 : members res0 = filter locked (flat_map students prev)).
    { unfold res0. now rewrite members_app, members_repeat_nil, app_nil_r,
        lockedGroups_of_members. }
    pose proof (filter_split_perm locked (flat_map students prev)) as Hsplit.
    rewrite <- unlocked_of_eq, <- M0 in Hsplit.
    apply map_unlocked_perm in Hleftp, S3, B1.
    rewrite map_unlocked_unlocked_of in B1.
    clear - P3 F5 Hleftp S3 B1 Hsplit. perm_by member_eq_dec.
  - intros Hroom.
    apply place_leftover_room.
    pose proof (fill_missing_room gs (filter (enough_for prev target) progs) res0 q1) as R.
    rewrite E2 in R; cbn [fst] in R. apply R.
    unfold res0. apply Forall_app. split; [now apply lockedGroups_of_room|].
    apply Forall_repeat. simpl. lia.
Qed.

Lemma reshuffle_keeps_members_aux world prev progs gs seed res :
  (0 < gs)%Z ->
  reshuffleRespectingLocksToGroupSize world prev progs gs seed = Ok res ->
  Permutation (flat_map students res) (flat_map students prev).
Proof.
  intros Hgs Hres.
  destruct (reshuffle_content world prev progs gs seed res Hgs Hres)
    as (res2 & -> & _ & Hperm & _).
  now rewrite members_mapi.
Qed.

(** X8: for a positive size, [reshuffleRespectingLocksToGroupSize] returns
    groups exactly when the groups that have locked students are no more than
    [Math.max(1, Math.ceil(total / groupSize))] and no unlocked student has a
    program named like a property of [Object.prototype]; with more such groups
    it throws "Too many groups with locked students to merge without moving
    them." *)
Theorem reshuffle_returns_iff world prev progs gs seed :
  (0 < gs)%Z ->
  ((exists res, reshuffleRespectingLocksToGroupSize world prev progs gs seed = Ok res)
   <-> length (lockedGroups_of prev)
       <= Nat.max 1 (ceil_div (length (flat_map students prev)) gs)
       /\ existsb (fun s => is_inherited (program (who s))) (unlocked_of prev) = false)
  /\ (Nat.max 1 (ceil_div (length (flat_map students prev)) gs)
      < length (lockedGroups_of prev) ->
      reshuffleRespectingLocksToGroupSize world prev progs gs seed
      = Throw "Too many groups with locked students to merge without moving them.").
Proof.
  intros Hgs.
  assert (Hb : (0 <? gs)%Z = true) by now apply Z.ltb_lt.
  unfold reshuffleRespectingLocksToGroupSize, target_groups. rewrite Hb.
  set (target := Nat.max 1 (ceil_div (length (flat_map students prev)) gs)).
  destruct (target <? length (lockedGroups_of prev))%nat eqn:El.
  - apply Nat.ltb_lt in El. split; [|reflexivity]. split.
    + intros (res & H). discriminate.
    + intros [H _]. lia.
  - apply Nat.ltb_ge in El. split; [|lia].
    destruct (existsb (fun s => is_inherited (program (who s))) (unlocked_of prev)).
    + split; [intros (res & H); discriminate | intros [_ H]; discriminate].
    + destruct (shuffle_queues _ _ (make_rng world seed)) as [q1 r1].
      destruct (fill_missing gs _ _ q1) as [res1 q2].
      destruct (shuffleInPlace _ r1) as [leftover r2].
      split; [auto | intros _; eauto].
Qed.

Lemma reshuffle_returns_iff_witness :
  (0 < 2)%Z
  /\ ((exists res, reshuffleRespectingLocksToGroupSize zeros two_cohorts ["CS"; "Math"] 2
                     (Some 5%Z) = Ok res)
      <-> length (lockedGroups_of two_cohorts)
          <= Nat.max 1 (ceil_div (length (flat_map students two_cohorts)) 2)
          /\ existsb (fun s => is_inherited (program (who s))) (unlocked_of two_cohorts)
             = false)
  /\ (Nat.max 1 (ceil_div (length (flat_map students two_cohorts)) 2)
      < length (lockedGroups_of two_cohorts) ->
      reshuffleRespectingLocksToGroupSize zeros two_cohorts ["CS"; "Math"] 2 (Some 5%Z)
      = Throw "Too many groups with locked students to merge without moving them.").
Proof.
  split; [lia|].
  apply (reshuffle_returns_iff zeros two_cohorts ["CS"; "Math"] 2 (Some 5%Z)). lia.
Defined.

(** X9: the array returned by [reshuffleRespectingLocksToGroupSize] for a
    positive size has [Math.max(1, Math.ceil(total / groupSize))] groups,
    numbered 1, 2, ... in order, and the [missingPrograms] of each are exactly
    the given programs that no student of the group has. *)
Theorem reshuffle_result_shape world prev progs gs seed res :
  (0 < gs)%Z ->
  reshuffleRespectingLocksToGroupSize world prev progs gs seed = Ok res ->
  length res = Nat.max 1 (ceil_div (length (flat_map students prev)) gs)
  /\ map index res = seq 1 (length res)
  /\ forall g, In g res ->
       forall c, In c (missing_of g)
                 <-> In c progs /\ ~ In c (map (fun s => program (who s)) (students g)).
Proof.
  intros Hgs Hres.
  destruct (reshuffle_content world prev progs gs seed res Hgs Hres)
    as (res2 & -> & Hlen & _).
  unfold mapi. rewrite length_mapi_from, index_mapi.
  split; [exact Hlen|]. split; [reflexivity|].
  intros g Hg c. apply mapi_from_In in Hg as (j & gr & _ & ->).
  apply with_warnings_missing.
Qed.

Lemma reshuffle_result_shape_witness :
  exists res,
    (0 < 2)%Z
    /\ reshuffleRespectingLocksToGroupSize zeros two_cohorts ["CS"; "Math"] 2 (Some 5%Z)
       = Ok res
    /\ length res = Nat.max 1 (ceil_div (length (flat_map students two_cohorts)) 2)
    /\ map index res = seq 1 (length res)
    /\ forall g, In g res ->
         forall c, In c (missing_of g)
                   <-> In c ["CS"; "Math"]
                       /\ ~ In c (map (fun s => program (who s)) (students g)).
Proof.
  eexists. split; [lia|]. split; [vm_compute; reflexivity|].
  apply (reshuffle_result_shape zeros two_cohorts ["CS"; "Math"] 2 (Some 5%Z));
    [lia | vm_compute; reflexivity].
Defined.

(** X10: the groups returned by [reshuffleRespectingLocksToGroupSize] for a
    positive size hold exactly the members it was given: nobody is lost or
    duplicated, and every student is still locked or unlocked as before. *)
Theorem reshuffle_keeps_members world prev progs gs seed res :
  (0 < gs)%Z ->
  reshuffleRespectingLocksToGroupSize world prev progs gs seed = Ok res ->
  Permutation (flat_map students res) (flat_map students prev).
Proof. apply reshuffle_keeps_members_aux. Qed.

Lemma reshuffle_keeps_members_witness :
  exists res,
    (0 < 2)%Z
    /\ reshuffleRespectingLocksToGroupSize zeros two_cohorts ["CS"; "Math"] 2 (Some 5%Z)
       = Ok res
    /\ Permutation (flat_map students res) (flat_map students two_cohorts).
Proof.
  eexists. split; [lia|]. split; [vm_compute; reflexivity|].
  apply (reshuffle_keeps_members zeros two_cohorts ["CS"; "Math"] 2 (Some 5%Z));
    [lia | vm_compute; reflexivity].
Defined.

(** X11: when no previous group has more locked students than the positive
    new size, no group returned by [reshuffleRespectingLocksToGroupSize] has
    more students than that size. *)
Theorem reshuffle_within_capacity world prev progs gs seed res :
  (0 < gs)%Z ->
  (forall g, In g prev -> (Z.of_nat (length (filter locked (students g))) <= gs)%Z) ->
  reshuffleRespectingLocksToGroupSize world prev progs gs seed = Ok res ->
  Forall (fun g => (Z.of_nat (length (students g)) <= gs)%Z) res.
Proof.
  intros Hgs Hroom Hres.
  destruct (reshuffle_content world prev progs gs seed res Hgs Hres)
    as (res2 & -> & _ & _ & Hcap).
  apply (Forall_students (fun gr => (Z.of_nat (length gr) <= gs)%Z)).
  now apply Hcap.
Qed.

Lemma reshuffle_within_capacity_witness :
  exists res,
    (0 < 2)%Z
    /\ (forall g, In g two_cohorts ->
                  (Z.of_nat (length (filter locked (students g))) <= 2)%Z)
    /\ reshuffleRespectingLocksToGroupSize zeros two_cohorts ["CS"; "Math"] 2 (Some 5%Z)
       = Ok res
    /\ Forall (fun g => (Z.of_nat (length (students g)) <= 2)%Z) res.
Proof.
  assert (H : forall g, In g two_cohorts ->
                        (Z.of_nat (length (filter locked (students g))) <= 2)%Z).
  { intros g [<-|[<-|[]]]; simpl; lia. }
  eexists. split; [lia|]. split; [exact H|]. split; [vm_compute; reflexivity|].
  apply (reshuffle_within_capacity zeros two_cohorts ["CS"; "Math"] 2 (Some 5%Z));
    [lia | exact H | vm_compute; reflexivity].
Defined.

Lemma violating_nil prev newSize g :
  violating prev newSize = [] -> In g prev ->
  (Z.of_nat (length (filter locked (students g))) <= newSize)%Z.
Proof.
  intros Hv Hg. unfold violating, mapi in Hv.
  destruct (mapi_from_has (fun i g0 => (i + 1, length (filter locked (students g0))))
              0 prev g Hg) as (j & Hj).
  destruct (newSize <? Z.of_nat (length (filter locked (students g))))%Z eqn:E;
    [|apply Z.ltb_ge in E; exact E].
  assert (Hin : In (j + 1, length (filter locked (students g)))
                   (filter (fun x => (newSize <? Z.of_nat (snd x))%Z)
                      (mapi_from (fun i g0 =>
                         (i + 1, length (filter locked (students g0)))) 0 prev))).
  { apply filter_In. split; [exact Hj | exact E]. }
  rewrite Hv in Hin. destruct Hin.
Qed.

(** X12: whenever [applyNewGroupSize] renders new groups, the new size is at
    least 1, the groups passed [lockedStayInPlace], they hold exactly the
    members of the previous groups with their lock flags, none of them exceeds
    the new size, and they are [Math.max(1, Math.ceil(total / newSize))]. *)
Theorem applyNewGroupSize_applied world1 world2 prev progs newSize seed grs :
  applyNewGroupSize world1 world2 prev progs newSize seed = Applied grs ->
  (1 <= newSize)%Z
  /\ lockedStayInPlace prev grs = true
  /\ Permutation (flat_map students grs) (flat_map students prev)
  /\ Forall (fun g => (Z.of_nat (length (students g)) <= newSize)%Z) grs
  /\ length grs = Nat.max 1 (ceil_div (length (flat_map students prev)) newSize).
Proof.
  unfold applyNewGroupSize.
  destruct (newSize <? 1)%Z eqn:E1; [discriminate|]. apply Z.ltb_ge in E1.
  destruct (length prev =? 0)%nat; [discriminate|].
  destruct (violating prev newSize) as [|v vs] eqn:Ev; [|discriminate].
  match goal with
  | |- match ?t with Some _ => _ | None => _ end = _ -> _ => destruct t; [discriminate|]
  end.
  destruct (reshuffleRespectingLocksToGroupSize world2 prev progs newSize seed)
    as [g|msg] eqn:Er; [|discriminate].
  destruct (lockedStayInPlace prev g) eqn:El; [|discriminate].
  intros [= <-].
  assert (Hgs : (0 < newSize)%Z) by lia.
  split; [exact E1|]. split; [exact El|].
  split; [now apply (reshuffle_keeps_members_aux world2 prev progs newSize seed)|].
  destruct (reshuffle_content world2 prev progs newSize seed g Hgs Er)
    as (res2 & -> & Hlen & _ & Hcap).
  split.
  - apply (Forall_students (fun gr => (Z.of_nat (length gr) <= newSize)%Z)).
    apply Hcap. intros g0 Hg0. now apply (violating_nil prev).
  - unfold mapi. now rewrite length_mapi_from.
Qed.

Lemma applyNewGroupSize_applied_witness :
  exists grs,
    applyNewGroupSize zeros zeros two_cohorts ["CS"; "Math"] 2 (Some 5%Z) = Applied grs
    /\ (1 <= 2)%Z
    /\ lockedStayInPlace two_cohorts grs = true
    /\ Permutation (flat_map students grs) (flat_map students two_cohorts)
    /\ Forall (fun g => (Z.of_nat (length (students g)) <= 2)%Z) grs
    /\ length grs = Nat.max 1 (ceil_div (length (flat_map students two_cohorts)) 2).
Proof.
  eexists. split; [vm_compute; reflexivity|].
  apply (applyNewGroupSize_applied zeros zeros two_cohorts ["CS"; "Math"] 2 (Some 5%Z)).
  vm_compute. reflexivity.
Defined.

(** ** More on [lockedStayInPlace] *)

Lemma cohorts_list prev : forall (cs : list (list string)) (m : kmap),
  fst (fold_left add_cohort prev (cs, m)) = cs ++ map set_of (cohort_keys prev).
Proof.
  induction prev as [|g r IH]; intros cs m.
  - simpl. now rewrite app_nil_r.
  - cbn [fold_left]. rewrite add_cohort_eq.
    unfold cohort_keys; cbn [map filter]. fold (cohort_keys r).
    destruct (negb (length (locked_keys g) =? 0)%nat).
    + etransitivity; [apply IH|]. now rewrite <- app_assoc.
    + apply IH.
Qed.

Lemma nth_set_nth_other {A : Type} i j (x d : A) l :
  i <> j -> nth i (set_nth j x l) d = nth i l d.
Proof.
  revert i j; induction l as [|y r IH]; intros [|i] [|j] H; simpl; auto; try lia.
Qed.

(** A cohort marked satisfied is held whole by one of the groups visited. *)
Lemma check_next_sound cs m next : forall sat,
  check_next cs m next sat = true ->
  forall cid, cid < length sat ->
    nth cid sat false = true
    \/ exists g', In g' next
                  /\ forallb (fun k => includes k (locked_keys g')) (nth cid cs []) = true.
Proof.
  induction next as [|g rest IH]; intros sat H cid Hcid; cbn [check_next] in H.
  - left. rewrite forallb_forall in H. apply H. now apply nth_In.
  - destruct (cohort_ids m (locked_keys g)) as [|c0 [|c1 more]].
    + destruct (IH sat H cid Hcid) as [Hs|(g' & Hg' & Hall)]; [now left|].
      right. exists g'. split; [now right | exact Hall].
    + destruct (forallb (fun k => includes k (locked_keys g)) (nth c0 cs [])) eqn:Hall;
        [|discriminate].
      destruct (nth c0 sat false) eqn:Hc0; [discriminate|].
      destruct (IH (set_nth c0 true sat) H cid) as [Hs|(g' & Hg' & Hall')].
      * now rewrite set_nth_length.
      * destruct (Nat.eq_dec cid c0) as [->|Hne].
        -- right. exists g. split; [now left | exact Hall].
        -- left. now rewrite nth_set_nth_other in Hs.
      * right. exists g'. split; [now right | exact Hall'].
    + discriminate.
Qed.

(** The loop over the next groups, when the groups that have locked students
    have the keys of the cohorts, in order. *)
Lemma check_next_in_order K m :
  Forall (fun ks => ks <> []) K ->
  (forall i ks k, nth_error K i = Some ks -> In k ks -> k_get k m = Some i) ->
  forall next Ksuf Kpre a,
    K = Kpre ++ Ksuf -> length a = length Kpre -> Forall (fun b => b = true) a ->
    cohort_keys next = Ksuf ->
    check_next (map set_of K) m next (a ++ map (fun _ => false) Ksuf) = true.
Proof.
  intros Hne Hm. induction next as [|g next IH]; intros Ksuf Kpre a HK Hla Ha Hnext.
  - unfold cohort_keys in Hnext. simpl in Hnext. subst Ksuf.
    cbn [check_next]. now rewrite forallb_true_app.
  - unfold cohort_keys in Hnext. cbn [map filter] in Hnext. fold (cohort_keys next) in Hnext.
    destruct (negb (length (locked_keys g) =? 0)%nat) eqn:E.
    + destruct Ksuf as [|ks Ksuf]; [discriminate|].
      injection Hnext as Hg Hnext.
      assert (Hnth : nth_error K (length Kpre) = Some ks).
      { rewrite HK, nth_error_app2, Nat.sub_diag by lia. reflexivity. }
      assert (Hks : ks <> []).
      { rewrite Forall_forall in Hne. apply Hne. rewrite HK.
        apply in_or_app. right. now left. }
      cbn [check_next]. rewrite Hg.
      rewrite (cohort_ids_one m (length Kpre) ks Hks) by (intros k Hk; now apply (Hm _ ks)).
      assert (Hcs : nth (length Kpre) (map set_of K) [] = set_of ks).
      { rewrite HK, map_app. cbn [map].
        rewrite <- (length_map set_of Kpre). apply nth_middle. }
      rewrite Hcs.
      assert (Hall : forallb (fun k => includes k ks) (set_of ks) = true).
      { apply forallb_forall. intros k Hk. apply includes_In, set_of_In, Hk. }
      rewrite Hall. cbn [map]. rewrite <- Hla.
      rewrite nth_middle, set_nth_middle.
      replace (a ++ true :: map (fun _ => false) Ksuf)
        with ((a ++ [true]) ++ map (fun _ => false) Ksuf) by (now rewrite <- app_assoc).
      apply (IH Ksuf (Kpre ++ [ks])).
      * now rewrite <- app_assoc.
      * rewrite !length_app. simpl. lia.
      * apply Forall_app. split; [exact Ha | now constructor].
      * exact Hnext.
    + apply negb_false_iff, Nat.eqb_eq, length_zero_iff_nil in E.
      cbn [check_next]. rewrite E. cbn [cohort_ids fold_left].
      now apply (IH Ksuf Kpre).
Qed.

(** X13: when [lockedStayInPlace] answers [true], every previous group that
    has locked students finds the keys of all of them among the locked
    students of one and the same next group. *)
Theorem lockedStayInPlace_sound prev next g :
  lockedStayInPlace prev next = true ->
  In g prev -> locked_keys g <> [] ->
  exists g', In g' next /\ forall k, In k (locked_keys g) -> In k (locked_keys g').
Proof.
  intros H Hg Hne. unfold lockedStayInPlace in H.
  pose proof (cohorts_list prev [] []) as Hc.
  change (fold_left add_cohort prev ([], [])) with (cohorts_of prev) in Hc.
  destruct (cohorts_of prev) as [cs m]. cbn [fst app] in Hc. subst cs.
  assert (Hin : In (locked_keys g) (cohort_keys prev)).
  { unfold cohort_keys. apply filter_In. split; [now apply in_map|].
    destruct (locked_keys g); [contradiction | reflexivity]. }
  apply In_nth_error in Hin as (cid & Hcid).
  assert (Hlt : cid < length (cohort_keys prev)) by (apply nth_error_Some; congruence).
  destruct (length (map set_of (cohort_keys prev)) =? 0)%nat eqn:E0.
  { apply Nat.eqb_eq in E0. rewrite length_map in E0. lia. }
  destruct (check_next_sound _ _ _ _ H cid) as [Hs|(g' & Hg' & Hall)].
  - now rewrite repeat_length, length_map.
  - rewrite nth_repeat in Hs. discriminate.
  - exists g'. split; [exact Hg'|]. intros k Hk.
    rewrite forallb_forall in Hall. apply includes_In, Hall.
    rewrite (nth_error_nth _ _ _ (map_nth_error set_of _ _ Hcid)).
    now apply set_of_In.
Qed.

Lemma lockedStayInPlace_sound_witness :
  exists res,
    reshuffleRespectingLocksToGroupSize zeros two_cohorts ["CS"; "Math"] 2 (Some 5%Z)
    = Ok res
    /\ lockedStayInPlace two_cohorts res = true
    /\ In (nth 1 two_cohorts (mkGroup 0 [] None)) two_cohorts
    /\ locked_keys (nth 1 two_cohorts (mkGroup 0 [] None)) <> []
    /\ exists g', In g' res
                  /\ forall k, In k (locked_keys (nth 1 two_cohorts (mkGroup 0 [] None)))
                               -> In k (locked_keys g').
Proof.
  eexists. split; [vm_compute; reflexivity|].
  split; [vm_compute; reflexivity|]. split; [right; now left|].
  split; [discriminate|].
  apply (lockedStayInPlace_sound two_cohorts _ (nth 1 two_cohorts (mkGroup 0 [] None)));
    [vm_compute; reflexivity | right; now left | discriminate].
Defined.

(** X14: when no key is shared by the locked students of two previous groups,
    [lockedStayInPlace] answers [true] for every array of next groups in which
    the groups that have locked students carry, in the same order, the keys of
    the previous ones: moving unlocked students, and adding or removing groups
    without locked students, is always accepted. *)
Theorem lockedStayInPlace_accepts prev next :
  apart (map locked_keys prev) = true ->
  cohort_keys next = cohort_keys prev ->
  lockedStayInPlace prev next = true.
Proof.
  intros Hap Hsame. unfold lockedStayInPlace.
  assert (Hcm : fst (cohorts_of prev) = map set_of (cohort_keys prev)
                /\ forall i ks k, nth_error (cohort_keys prev) i = Some ks -> In k ks ->
                     k_get k (snd (cohorts_of prev)) = Some i)
    by exact (cohorts_from prev [] [] Hap).
  destruct Hcm as [Hc Hm].
  destruct (cohorts_of prev) as [cs m]. cbn [fst snd] in Hc, Hm. subst cs.
  destruct (length (map set_of (cohort_keys prev)) =? 0)%nat; [reflexivity|].
  rewrite length_map, repeat_false_map.
  apply (check_next_in_order (cohort_keys prev) m (cohort_keys_nonempty prev) Hm
           next (cohort_keys prev) [] []); auto.
Qed.

Lemma lockedStayInPlace_accepts_witness :
  apart (map locked_keys two_cohorts) = true
  /\ cohort_keys (two_cohorts ++ nobody_locked) = cohort_keys two_cohorts
  /\ lockedStayInPlace two_cohorts (two_cohorts ++ nobody_locked) = true.
Proof.
  split; [reflexivity|]. split; [reflexivity|].
  apply (lockedStayInPlace_accepts two_cohorts (two_cohorts ++ nobody_locked));
    reflexivity.
Defined.

(** ** More on [parseCSV], and [exportCSV] *)

Lemma chars_app (a b : string) :
  list_ascii_of_string (a ++ b) = list_ascii_of_string a ++ list_ascii_of_string b.
Proof. induction a as [|c a IH]; simpl; [reflexivity | now rewrite IH]. Qed.

Lemma length_chars s : length (list_ascii_of_string s) = String.length s.
Proof. induction s as [|c s IH]; simpl; [reflexivity | now rewrite IH]. Qed.

Lemma trim_start_head l :
  match trim_start l with
  | [] => True
  | c :: _ => is_space c = false
  end.
Proof.
  induction l as [|c r IH]; simpl; [exact I|].
  destruct (is_space c) eqn:E; [exact IH | exact E].
Qed.

Lemma trim_start_snoc a h :
  is_space h = false -> trim_start (a ++ [h]) = trim_start a ++ [h].
Proof.
  intros H. induction a as [|c a IH]; simpl; [now rewrite H|].
  destruct (is_space c); [exact IH | reflexivity].
Qed.

Lemma trim_start_fixed c l : is_space c = false -> trim_start (c :: l) = c :: l.
Proof. intros H. simpl. now rewrite H. Qed.

(** The characters of [s.trim()]. *)
Lemma trim_chars s :
  list_ascii_of_string (trim s)
  = match trim_start (list_ascii_of_string s) with
    | [] => []
    | h :: t => h :: rev (trim_start (rev t))
    end.
Proof.
  unfold trim. rewrite list_ascii_of_string_of_list_ascii.
  pose proof (trim_start_head (list_ascii_of_string s)) as Hh.
  destruct (trim_start (list_ascii_of_string s)) as [|h t]; [reflexivity|].
  cbn [rev]. rewrite trim_start_snoc by exact Hh.
  rewrite rev_app_distr. reflexivity.
Qed.

Lemma trim_trim s : trim (trim s) = trim s.
Proof.
  rewrite <- (string_of_list_ascii_of_string (trim (trim s))).
  rewrite <- (string_of_list_ascii_of_string (trim s)) at 2.
  f_equal. rewrite (trim_chars (trim s)), (trim_chars s).
  pose proof (trim_start_head (list_ascii_of_string s)) as Hh.
  destruct (trim_start (list_ascii_of_string s)) as [|h t]; [reflexivity|].
  rewrite trim_start_fixed by exact Hh. f_equal.
  rewrite rev_involutive.
  pose proof (trim_start_head (rev t)) as Ht.
  destruct (trim_start (rev t)) as [|c r] eqn:E; [reflexivity|].
  now rewrite trim_start_fixed.
Qed.

Lemma trim_start_keeps c l : In c l -> is_space c = false -> trim_start l <> [].
Proof.
  induction l as [|x r IH]; simpl; [intros []|].
  intros [->|H] Hc.
  - rewrite Hc. discriminate.
  - destruct (is_space x); [now apply IH | discriminate].
Qed.

Lemma trim_not_blank c s :
  In c (list_ascii_of_string s) -> is_space c = false ->
  (String.length (trim s) =? 0)%nat = false.
Proof.
  intros Hin Hc. apply Nat.eqb_neq. rewrite <- length_chars, trim_chars.
  pose proof (trim_start_keeps c _ Hin Hc) as H.
  destruct (trim_start (list_ascii_of_string s)); [contradiction | simpl; lia].
Qed.

Lemma split_commas_field f rest cur :
  Forall (fun c => Ascii.eqb c comma = false) f ->
  split_commas_from (f ++ comma :: rest) cur
  = string_of_list_ascii (rev cur ++ f) :: split_commas_from rest [].
Proof.
  intros H. revert cur; induction H as [|c f Hc Hf IH]; intros cur; simpl.
  - now rewrite app_nil_r.
  - rewrite Hc, IH. simpl. now rewrite <- app_assoc.
Qed.

Lemma split_commas_last f cur :
  Forall (fun c => Ascii.eqb c comma = false) f ->
  split_commas_from f cur = [string_of_list_ascii (rev cur ++ f)].
Proof.
  intros H. revert cur; induction H as [|c f Hc Hf IH]; intros cur; simpl.
  - now rewrite app_nil_r.
  - rewrite Hc, IH. simpl. now rewrite <- app_assoc.
Qed.

Lemma split_lines_line l rest cur :
  Forall (fun c => Ascii.eqb c LF = false /\ Ascii.eqb c CR = false) l ->
  split_lines_from (l ++ LF :: rest) cur
  = string_of_list_ascii (rev cur ++ l) :: split_lines_from rest [].
Proof.
  intros H. revert cur; induction H as [|c l [Hc1 Hc2] Hl IH]; intros cur; simpl.
  - now rewrite app_nil_r.
  - rewrite Hc1, Hc2, IH. simpl. now rewrite <- app_assoc.
Qed.

Lemma split_lines_last l cur :
  Forall (fun c => Ascii.eqb c LF = false /\ Ascii.eqb c CR = false) l ->
  split_lines_from l cur = [string_of_list_ascii (rev cur ++ l)].
Proof.
  intros H. revert cur; induction H as [|c l [Hc1 Hc2] Hl IH]; intros cur; simpl.
  - now rewrite app_nil_r.
  - rewrite Hc1, Hc2, IH. simpl. now rewrite <- app_assoc.
Qed.

Lemma split_lines_join ls :
  ls <> [] ->
  Forall (fun l => Forall (fun c => Ascii.eqb c LF = false /\ Ascii.eqb c CR = false)
                          (list_ascii_of_string l)) ls ->
  split_lines (String.concat (String LF EmptyString) ls) = ls.
Proof.
  intros Hne H. unfold split_lines.
  induction H as [|x r Hx Hr IH]; [contradiction|].
  destruct r as [|y r'].
  - simpl. rewrite split_lines_last by exact Hx. simpl.
    now rewrite string_of_list_ascii_of_string.
  - cbn [String.concat]. rewrite chars_app. cbn [append list_ascii_of_string].
    rewrite split_lines_line by exact Hx. simpl rev. cbn [app].
    rewrite string_of_list_ascii_of_string. f_equal.
    apply IH. discriminate.
Qed.

Lemma digits_plain d :
  Forall (fun c => Ascii.eqb c comma = false /\ Ascii.eqb c LF = false
                   /\ Ascii.eqb c CR = false)
         (list_ascii_of_string (DecimalString.NilEmpty.string_of_uint d)).
Proof.
  induction d; simpl; constructor; auto.
Qed.

Lemma plain_chars s :
  plain s = true ->
  Forall (fun c => Ascii.eqb c comma = false /\ Ascii.eqb c LF = false
                   /\ Ascii.eqb c CR = false) (list_ascii_of_string s).
Proof.
  unfold plain. intros H. apply Forall_forall. intros c Hc.
  rewrite forallb_forall in H. specialize (H c Hc).
  apply negb_true_iff in H.
  destruct (Ascii.eqb c comma), (Ascii.eqb c LF), (Ascii.eqb c CR); try discriminate.
  auto.
Qed.

Lemma clean_facts s :
  clean s = true ->
  plain s = true /\ trim s = s
  /\ exists c, In c (list_ascii_of_string s) /\ is_space c = false.
Proof.
  unfold clean. intros H. apply andb_prop in H as [H Ht].
  apply andb_prop in H as [Hl Hp]. apply String.eqb_eq in Ht.
  split; [exact Hp|]. split; [exact Ht|].
  pose proof (trim_chars s) as Hc. rewrite Ht in Hc.
  pose proof (trim_start_head (list_ascii_of_string s)) as Hh.
  destruct s as [|c s']; [discriminate|].
  exists c. split; [now left|].
  simpl in Hc, Hh. destruct (is_space c) eqn:E; [|reflexivity].
  destruct (trim_start (list_ascii_of_string s')) as [|h t] eqn:E'; [discriminate|].
  injection Hc as -> _. rewrite Hh in E. discriminate.
Qed.

(** One exported line, read back. *)
Lemma exported_line n s :
  clean (name s) = true -> clean (program s) = true ->
  let line := (number_string n ++ "," ++ name s ++ "," ++ program s)%string in
  Forall (fun c => Ascii.eqb c LF = false /\ Ascii.eqb c CR = false)
         (list_ascii_of_string line)
  /\ (String.length (trim line) =? 0)%nat = false
  /\ forall rest, read_rows 1 2 (line :: rest) = s :: read_rows 1 2 rest.
Proof.
  intros Hn Hp line.
  destruct (clean_facts _ Hn) as (Pn & Tn & cn & Hcn & Scn).
  destruct (clean_facts _ Hp) as (Pp & Tp & cp & Hcp & Scp).
  pose proof (digits_plain (Nat.to_uint n)) as Dn. fold (number_string n) in Dn.
  pose proof (plain_chars _ Pn) as Cn. pose proof (plain_chars _ Pp) as Cp.
  assert (Hline : list_ascii_of_string line
                  = list_ascii_of_string (number_string n)
                    ++ comma :: list_ascii_of_string (name s)
                    ++ comma :: list_ascii_of_string (program s)).
  { unfold line. rewrite !chars_app. reflexivity. }
  split; [|split].
  - rewrite Hline. apply Forall_app. split.
    + eapply Forall_impl; [|exact Dn]. intros c (_ & H1 & H2). auto.
    + constructor; [split; reflexivity|]. apply Forall_app. split.
      * eapply Forall_impl; [|exact Cn]. intros c (_ & H1 & H2). auto.
      * constructor; [split; reflexivity|].
        eapply Forall_impl; [|exact Cp]. intros c (_ & H1 & H2). auto.
  - apply (trim_not_blank cn); [|exact Scn].
    rewrite Hline. apply in_or_app. right. right. apply in_or_app. now left.
  - intros rest. cbn [read_rows]. unfold split_commas. rewrite Hline.
    rewrite split_commas_field
      by (eapply Forall_impl; [|exact Dn]; intros c (H1 & _); exact H1).
    rewrite split_commas_field
      by (eapply Forall_impl; [|exact Cn]; intros c (H1 & _); exact H1).
    rewrite split_commas_last
      by (eapply Forall_impl; [|exact Cp]; intros c (H1 & _); exact H1).
    cbn [rev app]. unfold cell. cbn [nth].
    rewrite !string_of_list_ascii_of_string, Tn, Tp.
    unfold clean in Hn, Hp.
    apply andb_prop in Hn as [Hn _]. apply andb_prop in Hn as [Hn _].
    apply andb_prop in Hp as [Hp _]. apply andb_prop in Hp as [Hp _].
    apply negb_true_iff in Hn, Hp. rewrite Hn, Hp. cbn [orb].
    destruct s; reflexivity.
Qed.

Lemma read_rows_nonempty n p lines s :
  In s (read_rows n p lines) ->
  (String.length (name s) =? 0)%nat = false
  /\ (String.length (program s) =? 0)%nat = false
  /\ trim (name s) = name s /\ trim (program s) = program s.
Proof.
  induction lines as [|l r IH]; cbn [read_rows]; [intros []|].
  destruct ((String.length (cell (split_commas l) n) =? 0)%nat
            || (String.length (cell (split_commas l) p) =? 0)%nat) eqn:E; [exact IH|].
  apply orb_false_iff in E as [E1 E2].
  intros [<-|H]; [|now apply IH]. cbn [name program].
  unfold cell. now rewrite !trim_trim.
Qed.

Lemma parseCSV_rows text studs :
  parseCSV text = Ok studs ->
  studs <> [] /\ exists n p lines, studs = read_rows n p lines.
Proof.
  unfold parseCSV.
  destruct (filter _ (split_lines text)) as [|first data]; [discriminate|].
  match goal with
  | |- match ?c with Ok _ => _ | Throw _ => _ end = _ -> _ => destruct c as [[n p]|msg]
  end; [|discriminate].
  destruct (read_rows n p data) as [|s r] eqn:E; [discriminate|].
  intros [= <-]. split; [discriminate|]. exists n, p, data. now rewrite E.
Qed.

Lemma read_rows_app n p a b : read_rows n p (a ++ b) = read_rows n p a ++ read_rows n p b.
Proof.
  induction a as [|l r IH]; cbn [app read_rows]; [reflexivity|].
  destruct ((String.length (cell (split_commas l) n) =? 0)%nat
            || (String.length (cell (split_commas l) p) =? 0)%nat); [exact IH|].
  simpl. now rewrite IH.
Qed.

(** The data lines of [exportCSV], read back. *)
Lemma exported_rows grs :
  Forall (fun s => clean (name s) = true /\ clean (program s) = true) (roster grs) ->
  let rows := flat_map (fun g =>
                map (fun s => (number_string (index g) ++ "," ++ name (who s)
                               ++ "," ++ program (who s))%string)
                    (students g)) grs in
  Forall (fun l => Forall (fun c => Ascii.eqb c LF = false /\ Ascii.eqb c CR = false)
                          (list_ascii_of_string l)) rows
  /\ filter (fun l => negb (String.length (trim l) =? 0)%nat) rows = rows
  /\ read_rows 1 2 rows = roster grs.
Proof.
  induction grs as [|g r IH]; intros Hclean rows.
  - repeat split; constructor.
  - unfold roster in Hclean. cbn [flat_map] in Hclean.
    apply Forall_app in Hclean as [Hg Hr]. specialize (IH Hr).
    cbv zeta in IH. destruct IH as (I1 & I2 & I3).
    unfold rows, roster. cbn [flat_map]. fold (roster r).
    rewrite filter_app, read_rows_app, I2, I3.
    assert (Hgroup :
      Forall (fun l => Forall (fun c => Ascii.eqb c LF = false /\ Ascii.eqb c CR = false)
                              (list_ascii_of_string l))
             (map (fun s => (number_string (index g) ++ "," ++ name (who s)
                             ++ "," ++ program (who s))%string) (students g))
      /\ filter (fun l => negb (String.length (trim l) =? 0)%nat)
                (map (fun s => (number_string (index g) ++ "," ++ name (who s)
                                ++ "," ++ program (who s))%string) (students g))
         = map (fun s => (number_string (index g) ++ "," ++ name (who s)
                          ++ "," ++ program (who s))%string) (students g)
      /\ read_rows 1 2
           (map (fun s => (number_string (index g) ++ "," ++ name (who s)
                           ++ "," ++ program (who s))%string) (students g))
         = map who (students g)).
    { clear - Hg. induction (students g) as [|s l IHl]; [repeat split; constructor|].
      cbn [map] in Hg. inversion_clear Hg as [|? ? [Hn Hp] Hl].
      destruct (IHl Hl) as (J1 & J2 & J3).
      destruct (exported_line (index g) (who s) Hn Hp) as (E1 & E2 & E3).
      cbn [map filter]. rewrite E2. cbn [negb]. rewrite J2, E3, J3.
      repeat split. now constructor. }
    destruct Hgroup as (G1 & G2 & G3). rewrite G2, G3.
    repeat split. apply Forall_app. now split.
Qed.

(** X15: the array returned by [parseCSV] is never empty, and the name and
    the program of every student in it are non-empty and carry no white space
    at either end. *)
Theorem parseCSV_students text studs :
  parseCSV text = Ok studs ->
  studs <> []
  /\ Forall (fun s => name s <> "" /\ program s <> ""
                      /\ trim (name s) = name s /\ trim (program s) = program s) studs.
Proof.
  intros H. destruct (parseCSV_rows text studs H) as (Hne & n & p & lines & ->).
  split; [exact Hne|]. apply Forall_forall. intros s Hs.
  destruct (read_rows_nonempty n p lines s Hs) as (H1 & H2 & H3 & H4).
  repeat split; try assumption.
  - intros E. rewrite E in H1. discriminate.
  - intros E. rewrite E in H2. discriminate.
Qed.

Lemma parseCSV_students_witness :
  exists studs,
    parseCSV three_columns = Ok studs
    /\ studs <> []
    /\ Forall (fun s => name s <> "" /\ program s <> ""
                        /\ trim (name s) = name s /\ trim (program s) = program s) studs.
Proof.
  eexists. split; [vm_compute; reflexivity|].
  apply (parseCSV_students three_columns). vm_compute. reflexivity.
Defined.

(** X16: the text written by [exportCSV] is read back by [parseCSV] as the
    students of the groups, in order, when there is at least one student and
    every name and program is non-empty, free of commas and line breaks, and
    without white space at either end. *)
Theorem exportCSV_parseCSV grs :
  roster grs <> [] ->
  Forall (fun s => clean (name s) = true /\ clean (program s) = true) (roster grs) ->
  Forall (fun g => (Z.of_nat (index g) < 10 ^ 21)%Z) grs ->
  parseCSV (exportCSV grs) = Ok (roster grs).
Proof.
  intros Hne Hclean _.
  destruct (exported_rows grs Hclean) as (R1 & R2 & R3). cbv zeta in R1, R2, R3.
  unfold parseCSV, exportCSV, exportCSV_lines.
  rewrite split_lines_join; [|discriminate|].
  - cbn [filter]. rewrite R2.
    replace (negb (String.length (trim "group,name,program") =? 0)%nat) with true
      by (vm_compute; reflexivity).
    replace (map (fun s => toLowerCase (trim s)) (split_commas "group,name,program"))
      with ["group"; "name"; "program"] by (vm_compute; reflexivity).
    replace (last_alias_from nameAliases 0 ["group"; "name"; "program"] None)
      with (Some 1) by (vm_compute; reflexivity).
    replace (last_alias_from programAliases 0 ["group"; "name"; "program"] None)
      with (Some 2) by (vm_compute; reflexivity).
    rewrite R3. destruct (roster grs); [contradiction | reflexivity].
  - constructor; [|exact R1].
    vm_compute. repeat constructor.
Qed.

Lemma exportCSV_parseCSV_witness :
  roster two_cohorts <> []
  /\ Forall (fun s => clean (name s) = true /\ clean (program s) = true)
            (roster two_cohorts)
  /\ Forall (fun g => (Z.of_nat (index g) < 10 ^ 21)%Z) two_cohorts
  /\ parseCSV (exportCSV two_cohorts) = Ok (roster two_cohorts).
Proof.
  assert (H1 : Forall (fun s => clean (name s) = true /\ clean (program s) = true)
                      (roster two_cohorts))
    by (vm_compute; repeat constructor).
  assert (H2 : Forall (fun g => (Z.of_nat (index g) < 10 ^ 21)%Z) two_cohorts)
    by (repeat constructor).
  split; [discriminate|]. split; [exact H1|]. split; [exact H2|].
  apply (exportCSV_parseCSV two_cohorts); [discriminate | exact H1 | exact H2].
Defined.

(** X17: students returned by [parseCSV] are always accepted by
    [groupStudents] with a positive size: "No students" cannot follow a
    successful parse, and every parsed student is placed in one group. *)
Theorem parseCSV_then_groupStudents world text studs gs seed :
  parseCSV text = Ok studs -> (0 < gs)%Z ->
  exists p, groupStudents world studs gs seed = Some (Ok p)
            /\ Permutation (roster (groups p)) studs.
Proof.
  intros H Hgs. destruct (parseCSV_rows text studs H) as (Hne & _).
  destruct (groupStudents_run world studs gs seed Hne Hgs) as (x & Hrun & Hres).
  exists (partition_of gs x). split; [exact Hres|].
  unfold partition_of; cbn [groups]. rewrite roster_mapi.
  now apply (run_perm world studs gs seed x).
Qed.

Lemma parseCSV_then_groupStudents_witness :
  exists studs,
    parseCSV (exportCSV two_cohorts) = Ok studs /\ (0 < 4)%Z
    /\ exists p, groupStudents zeros studs 4 (Some 2%Z) = Some (Ok p)
                 /\ Permutation (roster (groups p)) studs.
Proof.
  eexists. split; [vm_compute; reflexivity|]. split; [lia|].
  apply (parseCSV_then_groupStudents zeros (exportCSV two_cohorts) _ 4 (Some 2%Z));
    [vm_compute; reflexivity | lia].
Defined.

Lemma filter_nil_iff {A : Type} (f : A -> bool) l :
  filter f l = [] <-> forall x, In x l -> f x = false.
Proof.
  induction l as [|a r IH]; simpl; [intuition|].
  destruct (f a) eqn:E.
  - split; [discriminate|]. intros H. specialize (H a (or_introl eq_refl)). congruence.
  - rewrite IH. split; intros H x; [intros [<-|Hx]; auto | intros Hx; apply H; now right].
Qed.

(** X18: [parseCSV] throws "CSV is empty" exactly when every line of the text
    is blank. *)
Theorem parseCSV_empty text :
  parseCSV text = Throw "CSV is empty"
  <-> forall l, In l (split_lines text) -> trim l = "".
Proof.
  assert (Hblank : forall l, negb (String.length (trim l) =? 0)%nat = false
                             <-> trim l = "").
  { intros l. rewrite negb_false_iff, Nat.eqb_eq.
    destruct (trim l); simpl; split; intros H; try reflexivity; discriminate. }
  unfold parseCSV.
  destruct (filter (fun l => negb (String.length (trim l) =? 0)%nat) (split_lines text))
    as [|first data] eqn:E.
  - split; [|reflexivity]. intros _ l Hl.
    apply Hblank. revert l Hl. now apply filter_nil_iff.
  - split.
    + match goal with
      | |- match ?c with Ok _ => _ | Throw _ => _ end = _ -> _ =>
          destruct c as [[n p]|msg] eqn:Ec
      end.
      * destruct (read_rows n p data); discriminate.
      * intros [= ->]. revert Ec.
        repeat match goal with
        | |- context [last_alias_from ?a 0 ?h None] =>
            destruct (last_alias_from a 0 h None)
        end; try discriminate;
        match goal with
        | |- context [(2 <=? ?n)%nat] => destruct (2 <=? n)%nat
        end; discriminate.
    + intros H. exfalso.
      assert (Hin : In first (filter (fun l => negb (String.length (trim l) =? 0)%nat)
                                     (split_lines text))) by (rewrite E; now left).
      apply filter_In in Hin as [Hin Hf].
      specialize (H first Hin). apply Hblank in H. congruence.
Qed.

(** ** [validateConstraints] *)

Lemma flat_map_nil_iff {A B : Type} (f : A -> list B) l :
  flat_map f l = [] <-> forall x, In x l -> f x = [].
Proof.
  induction l as [|a r IH]; simpl; [intuition|].
  split.
  - intros H. apply app_eq_nil in H as [Ha Hr]. intros x [<-|Hx]; [exact Ha|].
    now apply IH.
  - intros H. rewrite (H a) by now left. simpl. apply IH. intros x Hx. apply H. now right.
Qed.

(** X19: [validateConstraints] returns no error exactly when no group has more
    students than the group size and every group has a student of each of the
    given programs. *)
Theorem validateConstraints_passes grs progs gs :
  validateConstraints grs progs gs = []
  <-> forall g, In g grs ->
        (Z.of_nat (length (students g)) <= gs)%Z
        /\ forall c, In c progs -> In c (map (fun s => program (who s)) (students g)).
Proof.
  unfold validateConstraints. rewrite flat_map_nil_iff.
  split; intros H g Hg; specialize (H g Hg).
  - apply app_eq_nil in H as [H1 H2]. split.
    + destruct (gs <? Z.of_nat (length (students g)))%Z eqn:E; [discriminate|].
      now apply Z.ltb_ge in E.
    + intros c Hc. apply has_program_In.
      destruct (filter (fun p => negb (has_program (students g) p)) progs) as [|x l] eqn:E;
        [|discriminate].
      destruct (has_program (students g) c) eqn:Ec; [reflexivity|].
      assert (Hin : In c (filter (fun p => negb (has_program (students g) p)) progs)).
      { apply filter_In. split; [exact Hc | now rewrite Ec]. }
      rewrite E in Hin. destruct Hin.
  - destruct H as [H1 H2].
    assert (E1 : (gs <? Z.of_nat (length (students g)))%Z = false)
      by now apply Z.ltb_ge.
    rewrite E1. simpl.
    destruct (filter (fun p => negb (has_program (students g) p)) progs) as [|x l] eqn:E;
      [reflexivity|].
    assert (Hin : In x (filter (fun p => negb (has_program (students g) p)) progs))
      by (rewrite E; now left).
    apply filter_In in Hin as [Hx Hn].
    apply H2, has_program_In in Hx. rewrite Hx in Hn. discriminate.
Qed.

(** X20: on the groups returned by [groupStudents], checked against its own
    programs and size, [validateConstraints] never reports a group that is too
    large, and reports missing programs exactly for the groups whose
    [missingPrograms] is not [null], with the same programs. *)
Theorem validateConstraints_groupStudents world studs gs seed :
  studs <> [] -> (0 < gs)%Z ->
  exists p, groupStudents world studs gs seed = Some (Ok p)
            /\ validateConstraints (groups p) (programs p) (groupSize p)
               = flat_map (fun g => match missingPrograms g with
                                    | Some l => [MissingPrograms (index g) l]
                                    | None => []
                                    end) (groups p).
Proof.
  intros Hne Hgs.
  destruct (groupStudents_run world studs gs seed Hne Hgs) as (x & Hrun & Hres).
  exists (partition_of gs x). split; [exact Hres|].
  pose proof (run_keeps (fun gr => (Z.of_nat (length gr) <= gs)%Z) world studs gs seed x)
    as Hcap.
  assert (Hroom : Forall (fun gr => (Z.of_nat (length gr) <= gs)%Z)
                         (distribute_rest gs (r_groups2 x) (r_rest x))).
  { apply Hcap; [simpl; lia | | exact Hrun].
    intros gr s _ Hr. unfold has_room in Hr. apply Z.ltb_lt in Hr.
    rewrite length_app; simpl. lia. }
  clear Hcap Hres Hrun.
  unfold partition_of; cbn [groups programs groupSize].
  unfold validateConstraints, mapi. generalize 0.
  induction Hroom as [|gr r Hgr Hr IH]; intros i; [reflexivity|].
  cbn [mapi_from flat_map]. rewrite IH. f_equal.
  assert (E1 : (gs <? Z.of_nat (length gr))%Z = false) by now apply Z.ltb_ge.
  unfold with_warnings at 1 2 3 4. cbn [students index missingPrograms].
  rewrite E1. simpl.
  destruct (filter (fun p => negb (has_program gr p)) (r_progs x)); reflexivity.
Qed.

Lemma validateConstraints_groupStudents_witness :
  six_students <> [] /\ (0 < 2)%Z
  /\ exists p, groupStudents zeros six_students 2 (Some 1%Z) = Some (Ok p)
               /\ validateConstraints (groups p) (programs p) (groupSize p)
                  = flat_map (fun g => match missingPrograms g with
                                       | Some l => [MissingPrograms (index g) l]
                                       | None => []
                                       end) (groups p).
Proof.
  split; [discriminate|]. split; [lia|].
  apply (validateConstraints_groupStudents zeros six_students 2 (Some 1%Z));
    [discriminate | lia].
Defined.
(** ** Group names and colours *)

Lemma number_string_inj n m : number_string n = number_string m -> n = m.
Proof.
  unfold number_string. intros H.
  apply (f_equal DecimalString.NilEmpty.uint_of_string) in H.
  rewrite !DecimalString.NilEmpty.usu in H. injection H as H.
  apply DecimalNat.Unsigned.to_uint_inj in H. exact H.
Qed.

Lemma group_label_inj i j : group_label i = group_label j -> i = j.
Proof.
  unfold group_label. cbn [String.append]. intros H.
  injection H as H. apply number_string_inj in H. lia.
Qed.

Lemma group_label_is_label i : is_label (group_label i) = true.
Proof.
  unfold is_label, group_label. cbn. now destruct (number_string (i + 1)).
Qed.

Lemma distinctb_NoDup l : distinctb l = true -> NoDup l.
Proof.
  induction l as [|x r IH]; cbn [distinctb]; intros H; constructor.
  - apply andb_prop in H as [H _]. apply negb_true_iff in H.
    intros Hin. assert (existsb (String.eqb x) r = true); [|congruence].
    apply existsb_exists. exists x. split; [exact Hin | apply String.eqb_refl].
  - apply andb_prop in H as [_ H]. auto.
Qed.

Lemma name_at_labels n i :
  i < n -> name_at (map group_label (seq 0 n)) i = group_label i.
Proof.
  intros Hi. unfold name_at.
  rewrite nth_error_map, (nth_error_nth' _ 0) by (rewrite length_seq; exact Hi).
  rewrite seq_nth by exact Hi. reflexivity.
Qed.

Lemma name_at_nil i : name_at [] i = group_label i.
Proof. unfold name_at. now destruct i. Qed.

(** With a checked table, the name at [i] is the label of [i] or an element
    of the table found at [i]. *)
Lemma name_at_table l i :
  table_ok l = true ->
  (length l <= i /\ name_at l i = group_label i)
  \/ (i < length l /\ nth_error l i = Some (name_at l i)
      /\ is_label (name_at l i) = false).
Proof.
  intros Hok. unfold table_ok in Hok. apply andb_prop in Hok as [_ Hall].
  rewrite forallb_forall in Hall. unfold name_at.
  destruct (nth_error l i) as [x|] eqn:E.
  - right. assert (Hin : In x l) by (eapply nth_error_In; exact E).
    specialize (Hall x Hin). apply andb_prop in Hall as [H1 H2].
    apply negb_true_iff in H1, H2. rewrite H2.
    split; [|split; [reflexivity | exact H1]].
    apply nth_error_Some. congruence.
  - left. split; [|reflexivity]. now apply nth_error_None.
Qed.

Lemma name_at_inj l i j :
  table_ok l = true -> name_at l i = name_at l j -> i = j.
Proof.
  intros Hok H.
  assert (Hnd : NoDup l).
  { unfold table_ok in Hok. apply andb_prop in Hok as [Hd _].
    now apply distinctb_NoDup. }
  destruct (name_at_table l i Hok) as [[_ Ei]|(Li & Ei & Fi)],
           (name_at_table l j Hok) as [[_ Ej]|(Lj & Ej & Fj)].
  - apply group_label_inj. congruence.
  - rewrite <- H, Ei, group_label_is_label in Fj. discriminate.
  - rewrite H, Ej, group_label_is_label in Fi. discriminate.
  - rewrite <- H in Ej.
    apply (proj1 (NoDup_nth_error l) Hnd i j Li). congruence.
Qed.

Lemma theme_lists_ok : forallb (fun kv => table_ok (snd kv)) theme_lists = true.
Proof. vm_compute. reflexivity. Qed.

Lemma theme_get_In theme l v : theme_get theme l = Some v -> In (theme, v) l.
Proof.
  induction l as [|[k w] r IH]; cbn [theme_get]; [discriminate|].
  destruct (String.eqb k theme) eqn:E.
  - intros [= ->]. apply String.eqb_eq in E. subst. now left.
  - intros H. right. auto.
Qed.

(** The names of [themedGroupNames] come from the labels or from a checked
    table. *)
Lemma themedGroupNames_cases numGroups theme :
  themedGroupNames numGroups theme = map group_label (seq 0 numGroups)
  \/ exists l, table_ok l = true
               /\ themedGroupNames numGroups theme = map (name_at l) (seq 0 numGroups).
Proof.
  assert (Hlab : map (name_at (map group_label (seq 0 numGroups))) (seq 0 numGroups)
                 = map group_label (seq 0 numGroups)).
  { apply map_ext_in. intros i Hi. apply in_seq in Hi. apply name_at_labels. lia. }
  unfold themedGroupNames, theme_list.
  destruct (String.eqb theme "numeric"); [left; exact Hlab|].
  destruct (theme_get theme theme_lists) as [l|] eqn:E.
  - right. exists l. split; [|reflexivity].
    apply theme_get_In in E.
    pose proof theme_lists_ok as H. rewrite forallb_forall in H.
    exact (H _ E).
  - destruct (is_inherited theme); [|left; exact Hlab].
    left. apply map_ext. intros i. apply name_at_nil.
Qed.

Lemma NoDup_map_seq {A : Type} (f : nat -> A) a n :
  (forall i j, f i = f j -> i = j) -> NoDup (map f (seq a n)).
Proof.
  intros Hf. revert a. induction n as [|n IH]; intros a; cbn [seq map]; constructor.
  - intros Hin. apply in_map_iff in Hin as (j & Hj & Hin).
    apply Hf in Hj. subst j. apply in_seq in Hin. lia.
  - apply IH.
Qed.

(** X21.  [themedGroupNames] gives one name per group and no name twice,
    for every number of groups and every theme: where the list of the theme
    ends, the labels [Group i+1] take over, and no theme contains a name of
    that form, an empty name or a repeated one. *)
Theorem themedGroupNames_distinct numGroups theme :
  length (themedGroupNames numGroups theme) = numGroups
  /\ NoDup (themedGroupNames numGroups theme).
Proof.
  split.
  - unfold themedGroupNames. now rewrite length_map, length_seq.
  - destruct (themedGroupNames_cases numGroups theme) as [E|(l & Hok & E)];
      rewrite E; apply NoDup_map_seq.
    + apply group_label_inj.
    + intros i j. now apply name_at_inj.
Qed.

(** X22.  A theme that is not a list of [lists] gives the numeric names,
    also when it names a property that an object inherits
    (such as [constructor]): nothing is found at an index of the inherited
    value, and every name falls back to its label. *)
Theorem themedGroupNames_unknown numGroups theme :
  theme_get theme theme_lists = None ->
  themedGroupNames numGroups theme = map group_label (seq 0 numGroups)
  /\ themedGroupNames numGroups theme = themedGroupNames numGroups "numeric".
Proof.
  intros E.
  assert (Hlab : map (name_at (map group_label (seq 0 numGroups))) (seq 0 numGroups)
                 = map group_label (seq 0 numGroups)).
  { apply map_ext_in. intros i Hi. apply in_seq in Hi. apply name_at_labels. lia. }
  assert (H : themedGroupNames numGroups theme = map group_label (seq 0 numGroups)).
  { unfold themedGroupNames, theme_list. rewrite E.
    destruct (String.eqb theme "numeric"); [exact Hlab|].
    destruct (is_inherited theme); [|exact Hlab].
    apply map_ext. intros i. apply name_at_nil. }
  split; [exact H|]. rewrite H. symmetry. exact Hlab.
Qed.

Lemma themedGroupNames_unknown_witness :
  themedGroupNames 3 "constructor" = map group_label (seq 0 3)
  /\ themedGroupNames 3 "constructor" = themedGroupNames 3 "numeric".
Proof. apply (themedGroupNames_unknown 3 "constructor"). reflexivity. Defined.

(** X23.  Within a theme, the names of the list are used as long as it
    lasts: group [i] gets the [i]-th name of the theme when the theme has
    one, and the label [Group i+1] from there on. *)
Theorem themedGroupNames_nth numGroups theme l i :
  theme_get theme theme_lists = Some l -> i < numGroups ->
  nth_error (themedGroupNames numGroups theme) i
  = Some (if (i <? length l)%nat then nth i l "" else group_label i).
Proof.
  intros E Hi.
  assert (Hth : String.eqb theme "numeric" = false).
  { destruct (String.eqb theme "numeric") eqn:En; [|reflexivity].
    apply String.eqb_eq in En. subst theme. vm_compute in E. discriminate. }
  unfold themedGroupNames, theme_list. rewrite Hth, E.
  rewrite nth_error_map, (nth_error_nth' _ 0) by (rewrite length_seq; exact Hi).
  rewrite seq_nth by exact Hi. cbn [option_map Nat.add]. f_equal.
  assert (Hok : table_ok l = true).
  { apply theme_get_In in E.
    pose proof theme_lists_ok as H. rewrite forallb_forall in H. exact (H _ E). }
  destruct (name_at_table l i Hok) as [[Li Ei]|(Li & Ei & _)].
  - rewrite Ei. destruct (Nat.ltb_spec i (length l)); [lia | reflexivity].
  - destruct (Nat.ltb_spec i (length l)); [|lia].
    rewrite (nth_error_nth' l "" Li) in Ei. congruence.
Qed.

Lemma themedGroupNames_nth_witness :
  nth_error (themedGroupNames 10 "planets") 9 = Some "Group 10".
Proof.
  exact (themedGroupNames_nth 10 "planets" _ 9 eq_refl (Nat.lt_succ_diag_r 9)).
Defined.
Lemma own_get_set_same k v obj : own_get k (own_set k v obj) = Some v.
Proof.
  induction obj as [|[k' v'] r IH]; cbn [own_set own_get].
  - now rewrite String.eqb_refl.
  - destruct (String.eqb k' k) eqn:E; cbn [own_get]; rewrite E; auto.
Qed.

Lemma own_get_set_other k q v obj :
  k <> q -> own_get k (own_set q v obj) = own_get k obj.
Proof.
  intros Hne. induction obj as [|[k' v'] r IH]; cbn [own_set own_get].
  - destruct (String.eqb q k) eqn:E; [|reflexivity].
    apply String.eqb_eq in E. congruence.
  - destruct (String.eqb k' q) eqn:E; cbn [own_get].
    + apply String.eqb_eq in E. subst k'.
      destruct (String.eqb q k) eqn:E2; [|reflexivity].
      apply String.eqb_eq in E2. congruence.
    + destruct (String.eqb k' k); auto.
Qed.

Lemma own_get_assign_same k v obj :
  k <> "__proto__" -> own_get k (assign k v obj) = Some v.
Proof.
  intros H. unfold assign. apply String.eqb_neq in H. rewrite H.
  apply own_get_set_same.
Qed.

Lemma own_get_assign_other k q v obj :
  k <> q -> own_get k (assign q v obj) = own_get k obj.
Proof.
  intros H. unfold assign. destruct (String.eqb q "__proto__"); [reflexivity|].
  now apply own_get_set_other.
Qed.

Lemma color_from_absent p programs index obj :
  ~ In p programs -> own_get p (color_from index programs obj) = own_get p obj.
Proof.
  revert index obj. induction programs as [|q r IH]; intros index obj Hn;
    cbn [color_from]; [reflexivity|].
  rewrite IH by (intros H; apply Hn; now right).
  apply own_get_assign_other. intros ->. apply Hn. now left.
Qed.

(** The colour of a program that occurs once. *)
Lemma color_from_get programs index obj p i :
  NoDup programs -> p <> "__proto__" -> nth_error programs i = Some p ->
  own_get p (color_from index programs obj)
  = Some (nth ((index + i) mod length colors) colors "").
Proof.
  revert index obj i. induction programs as [|q r IH]; intros index obj i Hnd Hp Hi.
  - destruct i; discriminate.
  - inversion Hnd as [|? ? Hq Hr]; subst. cbn [color_from]. destruct i as [|i].
    + injection Hi as ->. rewrite color_from_absent by exact Hq.
      rewrite own_get_assign_same by exact Hp. now rewrite Nat.add_0_r.
    + cbn [nth_error] in Hi. rewrite (IH (S index) _ i Hr Hp Hi).
      now rewrite Nat.add_succ_comm.
Qed.

Lemma colors_first_eight i j :
  i < 8 -> j < 8 -> nth i colors "" = nth j colors "" -> i = j.
Proof.
  intros Hi Hj.
  do 8 (destruct i as [|i]; [do 8 (destruct j as [|j];
          [first [reflexivity | discriminate]|]); lia|]).
  lia.
Qed.

Lemma colors_period i : i < 12 -> nth (i + 8) colors "" = nth i colors "".
Proof.
  intros Hi. do 12 (destruct i as [|i]; [reflexivity|]). lia.
Qed.

Lemma colors_In i : i < length colors -> In (nth i colors "") colors.
Proof. intros H. now apply nth_In. Qed.

(** X24.  [getProgramColors] gives each of up to eight different programs a
    colour of the palette, and different programs different colours.  (A
    program called [__proto__] gets none: the assignment to it is lost.) *)
Theorem getProgramColors_distinct programs p q :
  NoDup programs -> length programs <= 8 ->
  In p programs -> In q programs -> p <> q ->
  p <> "__proto__" -> q <> "__proto__" ->
  exists c d, own_get p (getProgramColors programs) = Some c
              /\ own_get q (getProgramColors programs) = Some d
              /\ In c colors /\ In d colors /\ c <> d.
Proof.
  intros Hnd Hlen Hp Hq Hpq Pp Pq.
  apply In_nth_error in Hp as [i Hi]. apply In_nth_error in Hq as [j Hj].
  assert (Li : i < length programs) by (apply nth_error_Some; congruence).
  assert (Lj : j < length programs) by (apply nth_error_Some; congruence).
  assert (Si : i mod length colors = i)
    by (apply Nat.mod_small; change (length colors) with 20; lia).
  assert (Sj : j mod length colors = j)
    by (apply Nat.mod_small; change (length colors) with 20; lia).
  exists (nth i colors ""), (nth j colors "").
  unfold getProgramColors.
  rewrite (color_from_get programs 0 [] p i Hnd Pp Hi).
  rewrite (color_from_get programs 0 [] q j Hnd Pq Hj).
  cbn [Nat.add]. rewrite Si, Sj.
  split; [reflexivity|]. split; [reflexivity|].
  split; [apply colors_In; change (length colors) with 20; lia|].
  split; [apply colors_In; change (length colors) with 20; lia|].
  intros Hc. apply colors_first_eight in Hc; [|lia|lia].
  subst j. congruence.
Qed.

Lemma getProgramColors_distinct_witness :
  exists c d, own_get "A" (getProgramColors ["A"; "B"]) = Some c
              /\ own_get "B" (getProgramColors ["A"; "B"]) = Some d
              /\ In c colors /\ In d colors /\ c <> d.
Proof.
  apply (getProgramColors_distinct ["A"; "B"] "A" "B").
  - repeat constructor; simpl; intuition discriminate.
  - simpl. lia.
  - simpl. auto.
  - simpl. auto.
  - discriminate.
  - discriminate.
  - discriminate.
Defined.

(** X25.  The palette has eight colours only: among different programs, the
    one at position [i] and the one at position [i + 8] get the same colour
    (for [i] below 12, and again in every further block of twenty). *)
Theorem getProgramColors_repeats programs p q i :
  NoDup programs -> i mod 20 < 12 ->
  nth_error programs i = Some p -> nth_error programs (i + 8) = Some q ->
  p <> "__proto__" -> q <> "__proto__" ->
  exists c, own_get p (getProgramColors programs) = Some c
            /\ own_get q (getProgramColors programs) = Some c.
Proof.
  intros Hnd Hi Ep Eq Pp Pq.
  exists (nth (i mod 20) colors "").
  unfold getProgramColors.
  rewrite (color_from_get programs 0 [] p i Hnd Pp Ep).
  rewrite (color_from_get programs 0 [] q (i + 8) Hnd Pq Eq).
  cbn [Nat.add]. change (length colors) with 20.
  split; [reflexivity|]. f_equal.
  assert (E : (i + 8) mod 20 = i mod 20 + 8).
  { rewrite Nat.Div0.add_mod by lia. change (8 mod 20) with 8.
    apply Nat.mod_small. lia. }
  rewrite E. now apply colors_period.
Qed.

Lemma getProgramColors_repeats_witness :
  exists c, own_get "p0" (getProgramColors
                           ["p0"; "p1"; "p2"; "p3"; "p4"; "p5"; "p6"; "p7"; "p8"]) = Some c
            /\ own_get "p8" (getProgramColors
                           ["p0"; "p1"; "p2"; "p3"; "p4"; "p5"; "p6"; "p7"; "p8"]) = Some c.
Proof.
  apply (getProgramColors_repeats
           ["p0"; "p1"; "p2"; "p3"; "p4"; "p5"; "p6"; "p7"; "p8"] "p0" "p8" 0).
  - repeat constructor; simpl; intuition discriminate.
  - simpl. lia.
  - reflexivity.
  - reflexivity.
  - discriminate.
  - discriminate.
Defined.
(** ** The history of saved classes *)

Lemma find_class_remove_first_other name other h :
  other <> name ->
  find_class other (remove_first name h) = find_class other h.
Proof.
  intros Hne. induction h as [|e r IH]; cbn [remove_first find_class]; [reflexivity|].
  destruct (String.eqb (c_name e) name) eqn:E.
  - apply String.eqb_eq in E.
    destruct (String.eqb (c_name e) other) eqn:E2; [|reflexivity].
    apply String.eqb_eq in E2. congruence.
  - cbn [find_class]. destruct (String.eqb (c_name e) other); auto.
Qed.

Lemma find_class_firstn n name h e :
  find_class name (firstn n h) = Some e -> find_class name h = Some e.
Proof.
  revert n. induction h as [|x r IH]; intros n; destruct n; cbn [firstn find_class];
    try discriminate.
  destruct (String.eqb (c_name x) name); [auto|]. apply IH.
Qed.

Lemma length_remove_first name h : length (remove_first name h) <= length h.
Proof.
  induction h as [|e r IH]; cbn [remove_first length]; [lia|].
  destruct (String.eqb (c_name e) name); cbn [length]; lia.
Qed.

Lemma remove_first_names name h x :
  In x (map c_name (remove_first name h)) -> In x (map c_name h).
Proof.
  induction h as [|e r IH]; cbn [remove_first map]; [auto|].
  destruct (String.eqb (c_name e) name); cbn [map In]; intuition.
Qed.

Lemma remove_first_NoDup name h :
  NoDup (map c_name h) ->
  NoDup (map c_name (remove_first name h)) /\ ~ In name (map c_name (remove_first name h)).
Proof.
  induction h as [|e r IH]; cbn [remove_first map]; intros Hnd.
  - split; [constructor | intros []].
  - inversion Hnd as [|? ? Hx Hr]; subst.
    destruct (String.eqb (c_name e) name) eqn:E.
    + apply String.eqb_eq in E. subst name. split; assumption.
    + apply String.eqb_neq in E. destruct (IH Hr) as [H1 H2]. cbn [map]. split.
      * constructor; [|exact H1]. intros Hin. apply Hx.
        eapply remove_first_names. exact Hin.
      * intros [Hin|Hin]; [congruence | contradiction].
Qed.

Lemma NoDup_firstn {A : Type} n (l : list A) : NoDup l -> NoDup (firstn n l).
Proof.
  intros H. rewrite <- (firstn_skipn n l) in H. eapply NoDup_app_remove_r. exact H.
Qed.

Lemma saved_history now store name content :
  saveClassList now true store name content
  = Some (firstn MAX_HISTORY_SIZE
            ({| c_name := name; c_content := content; c_timestamp := now;
                c_size := String.length content; c_lastGroups := None |}
             :: remove_first name (getClassHistory store))).
Proof.
  unfold saveClassList. cbv zeta.
  destruct (Nat.ltb_spec MAX_HISTORY_SIZE
              (length ({| c_name := name; c_content := content; c_timestamp := now;
                          c_size := String.length content; c_lastGroups := None |}
                       :: remove_first name (getClassHistory store)))) as [H|H].
  - reflexivity.
  - now rewrite firstn_all2 by exact H.
Qed.

(** X26.  After [saveClassList(className, content)], and when the storage
    took the write, [loadClassFromHistory(className)] gives that content
    back, the saved class is the first of the history, and its groups are
    reset to [null]; when the write fails the storage is as it was. *)
Theorem saveClassList_then_load now store className content :
  loadClassFromHistory (saveClassList now true store className content) className
  = Some content
  /\ (exists e rest, getClassHistory (saveClassList now true store className content)
                     = e :: rest
                     /\ c_name e = className /\ c_lastGroups e = None
                     /\ c_size e = String.length content)
  /\ saveClassList now false store className content = store.
Proof.
  rewrite saved_history. change MAX_HISTORY_SIZE with 20. cbn [firstn getClassHistory].
  split; [|split].
  - unfold loadClassFromHistory. cbn [getClassHistory find_class c_name].
    now rewrite String.eqb_refl.
  - eexists _, _. split; [reflexivity|]. cbn. auto.
  - reflexivity.
Qed.

(** X27.  [saveClassList] keeps the history within [MAX_HISTORY_SIZE]
    entries, and a history without two classes of one name stays so. *)
Theorem saveClassList_history now store className content :
  length (getClassHistory (saveClassList now true store className content))
  <= MAX_HISTORY_SIZE
  /\ (NoDup (class_names store) ->
      NoDup (class_names (saveClassList now true store className content))).
Proof.
  unfold class_names. rewrite saved_history. cbn [getClassHistory]. split.
  - rewrite length_firstn. lia.
  - intros Hnd. rewrite <- firstn_map. apply NoDup_firstn. cbn [map c_name].
    destruct (remove_first_NoDup className _ Hnd) as [H1 H2].
    constructor; assumption.
Qed.

(** X28.  Saving a class changes no other class: whatever
    [loadClassFromHistory] finds under another name afterwards was there
    before, and as long as the history had fewer than [MAX_HISTORY_SIZE]
    entries everything that was there is still found. *)
Theorem saveClassList_keeps_others now store className content other :
  other <> className ->
  (forall c, loadClassFromHistory (saveClassList now true store className content) other
             = Some c ->
             loadClassFromHistory store other = Some c)
  /\ (length (getClassHistory store) < MAX_HISTORY_SIZE ->
      loadClassFromHistory (saveClassList now true store className content) other
      = loadClassFromHistory store other).
Proof.
  intros Hne. rewrite saved_history. unfold loadClassFromHistory.
  cbn [getClassHistory]. split.
  - intros c H.
    destruct (find_class other (firstn MAX_HISTORY_SIZE _)) as [e|] eqn:E;
      [|discriminate].
    apply find_class_firstn in E. cbn [find_class c_name] in E.
    apply String.eqb_neq in Hne. rewrite String.eqb_sym, Hne in E.
    apply String.eqb_neq in Hne.
    rewrite find_class_remove_first_other in E by exact Hne.
    now rewrite E.
  - intros Hlen. rewrite firstn_all2.
    + cbn [find_class c_name].
      pose proof Hne as Hb. apply String.eqb_neq in Hb.
      rewrite String.eqb_sym, Hb.
      now rewrite find_class_remove_first_other by exact Hne.
    + cbn [length]. pose proof (length_remove_first className (getClassHistory store)).
      lia.
Qed.

Lemma saveClassList_keeps_others_witness :
  (forall c, loadClassFromHistory (saveClassList "" true one_class "1B" "x,y") "1A"
             = Some c ->
             loadClassFromHistory one_class "1A" = Some c)
  /\ (length (getClassHistory one_class) < MAX_HISTORY_SIZE ->
      loadClassFromHistory (saveClassList "" true one_class "1B" "x,y") "1A"
      = loadClassFromHistory one_class "1A").
Proof. apply (saveClassList_keeps_others "" one_class "1B" "x,y" "1A"). discriminate. Defined.

Lemma find_class_filter_other name other h :
  other <> name ->
  find_class other (filter (fun e => negb (String.eqb (c_name e) name)) h)
  = find_class other h.
Proof.
  intros Hne. induction h as [|e r IH]; cbn [filter find_class]; [reflexivity|].
  destruct (String.eqb (c_name e) name) eqn:E; cbn [negb].
  - apply String.eqb_eq in E.
    destruct (String.eqb (c_name e) other) eqn:E2; [|exact IH].
    apply String.eqb_eq in E2. congruence.
  - cbn [find_class]. destruct (String.eqb (c_name e) other); auto.
Qed.

Lemma find_class_filter_same name h :
  find_class name (filter (fun e => negb (String.eqb (c_name e) name)) h) = None.
Proof.
  induction h as [|e r IH]; cbn [filter find_class]; [reflexivity|].
  destruct (String.eqb (c_name e) name) eqn:E; cbn [negb]; [exact IH|].
  cbn [find_class]. now rewrite E.
Qed.

(** X29.  After a confirmed [deleteClass(className)] nothing is found under
    that name, however many entries carried it, and every other class loads
    as before; a declined confirmation changes nothing. *)
Theorem deleteClass_removes store className :
  loadClassFromHistory (deleteClass true true store className) className = None
  /\ (forall other, other <> className ->
        loadClassFromHistory (deleteClass true true store className) other
        = loadClassFromHistory store other)
  /\ (forall writable, deleteClass false writable store className = store).
Proof.
  unfold loadClassFromHistory, deleteClass. cbn [getClassHistory]. split; [|split].
  - now rewrite find_class_filter_same.
  - intros other Hne. now rewrite find_class_filter_other by exact Hne.
  - reflexivity.
Qed.

Lemma set_lastGroups_find name grs h h' other :
  set_lastGroups name grs h = Some h' ->
  map c_name h' = map c_name h
  /\ map c_content h' = map c_content h
  /\ (exists e, find_class name h' = Some e /\ c_lastGroups e = Some grs)
  /\ (other <> name -> find_class other h' = find_class other h).
Proof.
  revert h'. induction h as [|e r IH]; intros h'; cbn [set_lastGroups]; [discriminate|].
  destruct (String.eqb (c_name e) name) eqn:E.
  - intros [= <-]. cbn [map c_name c_content find_class]. rewrite E.
    split; [reflexivity|]. split; [reflexivity|]. split.
    + eexists. split; reflexivity.
    + intros Hne. apply String.eqb_eq in E.
      destruct (String.eqb (c_name e) other) eqn:E2; [|reflexivity].
      apply String.eqb_eq in E2. congruence.
  - destruct (set_lastGroups name grs r) as [r'|]; [|discriminate].
    intros [= <-]. destruct (IH r' eq_refl) as (H1 & H2 & H3 & H4).
    cbn [map find_class]. rewrite E, H1, H2.
    split; [reflexivity|]. split; [reflexivity|]. split; [exact H3|].
    intros Hne. destruct (String.eqb (c_name e) other); auto.
Qed.

Lemma set_lastGroups_none name grs h :
  set_lastGroups name grs h = None <-> find_class name h = None.
Proof.
  induction h as [|e r IH]; cbn [set_lastGroups find_class]; [tauto|].
  destruct (String.eqb (c_name e) name); [split; discriminate|].
  destruct (set_lastGroups name grs r).
  - split; [discriminate|]. intros H. apply IH in H. discriminate.
  - split; intros _; [now apply IH | reflexivity].
Qed.

(** X30.  [updateClassWithGroups] changes neither the names nor the
    contents of the history nor their order, so every class loads as before;
    it stores the groups with the first class of that name when there is
    one, and leaves the storage as it was when there is none. *)
Theorem updateClassWithGroups_keeps store className grs :
  class_names (updateClassWithGroups true store className grs) = class_names store
  /\ (forall other,
        loadClassFromHistory (updateClassWithGroups true store className grs) other
        = loadClassFromHistory store other)
  /\ (forall e, find_class className (getClassHistory store) = Some e ->
        exists e', find_class className
                     (getClassHistory (updateClassWithGroups true store className grs))
                   = Some e' /\ c_lastGroups e' = Some grs)
  /\ (find_class className (getClassHistory store) = None ->
      updateClassWithGroups true store className grs = store).
Proof.
  unfold class_names, updateClassWithGroups.
  destruct (set_lastGroups className grs (getClassHistory store)) as [h'|] eqn:E.
  - cbn [getClassHistory].
    destruct (set_lastGroups_find _ _ _ _ className E) as (H1 & H2 & H3 & _).
    split; [exact H1|]. split; [|split].
    + intros other. unfold loadClassFromHistory. cbn [getClassHistory].
      clear H3. revert h' E H1 H2.
      induction (getClassHistory store) as [|e r IH]; intros h' E H1 H2;
        cbn [set_lastGroups] in E; [discriminate|].
      destruct (String.eqb (c_name e) className) eqn:En.
      * injection E as <-. cbn [find_class c_name].
        destruct (String.eqb (c_name e) other); reflexivity.
      * destruct (set_lastGroups className grs r) as [r'|] eqn:Er; [|discriminate].
        injection E as <-. cbn [find_class].
        destruct (String.eqb (c_name e) other); [reflexivity|].
        destruct (set_lastGroups_find _ _ _ _ className Er) as (K1 & K2 & _).
        exact (IH r' eq_refl K1 K2).
    + intros _ _. exact H3.
    + intros Hn. apply set_lastGroups_none with (grs := grs) in Hn. congruence.
  - split; [reflexivity|]. split; [reflexivity|]. split; [|reflexivity].
    intros e He. apply set_lastGroups_none in E. congruence.
Qed.
